(** * CO2 emission calculator: route lookup and emission engine

    A shallow embedding of [js/config.js], [js/calculator.js] and
    [js/routes-data.js].  The repository ships two parallel implementations
    of every object; both are embedded, each under the name of the
    JavaScript binding it comes from:

    - [Calculator]  is [var Calculator = { ... }]       (calculator.js, 8-132)
    - [calculator]  is [const calculator = { ... }]     (calculator.js, 144-312)
    - [RoutesDB_const] is [const RoutesDB = (function..)] (routes-data.js, 4-128)
    - [RoutesDB_var]   is [var RoutesDB = { ... }]        (routes-data.js, 150-239)

    JavaScript numbers are IEEE 754 binary64 values.  They are modelled by
    the executable specification of binary floating point of the standard
    library ([spec_float], precision 53, maximal exponent 1024), so every
    product, quotient and rounding below is the one a JavaScript engine
    computes, bit for bit. *)

From Stdlib Require Import ZArith Bool List Ascii String Lia Permutation Sorted.
From Stdlib Require Import QArith Qround Qabs Qpower Lqa.
From Stdlib Require Import Floats.SpecFloat.
Import ListNotations.

Local Open Scope Z_scope.

(** ** JavaScript numbers and the built-ins used by the program *)

Module JS.

Definition prec : Z := 53.
Definition emax : Z := 1024.

Definition number : Type := spec_float.

Definition NaN : number := S754_nan.
Definition Infinity : number := S754_infinity false.
Definition zero : number := S754_zero false.

(** Arithmetic operators [*], [/], [+], [-]. *)
Definition mul : number -> number -> number := SFmul prec emax.
Definition div : number -> number -> number := SFdiv prec emax.
Definition add : number -> number -> number := SFadd prec emax.
Definition sub : number -> number -> number := SFsub prec emax.

(** Relational operators [<], [<=], [>] and strict equality [===] on
    numbers: every comparison with [NaN] is false, [+0 === -0]. *)
Definition ltb : number -> number -> bool := SFltb.
Definition leb : number -> number -> bool := SFleb.
Definition gtb (x y : number) : bool := SFltb y x.
Definition eqb : number -> number -> bool := SFeqb.

Definition is_finite (x : number) : bool :=
  match x with
  | S754_zero _ | S754_finite _ _ _ => true
  | _ => false
  end.

Definition is_nan (x : number) : bool :=
  match x with S754_nan => true | _ => false end.

(** The values a binary64 can hold: canonical mantissa and exponent. *)
Definition valid (x : number) : bool := valid_binary prec emax x.

(** An integer as a number (correctly rounded when it needs more than 53
    bits). *)
Definition of_Z (z : Z) : number := binary_normalize prec emax z 0 false.

(** The number nearest to the ratio [n / d] of two positive integers, with
    the sign [s]: correctly rounded, ties to even.  This is what reading a
    decimal literal or [Number("...")] of a decimal string yields. *)
Definition nearest (s : bool) (n d : positive) : number :=
  SFdiv prec emax (S754_finite s n 0) (S754_finite false d 0).

(** A decimal literal [n / 10^k] with [k] decimals, such as
    [0.089 = dec 89 3]. *)
Definition dec (n k : positive) : number :=
  nearest false n (Pos.pow 10 k).

(** [|x| * 10^fd + 1/2], floored, for a finite non-zero [x = m * 2^e]:
    the integer [n] for which [n / 10^fd - |x|] is closest to zero, the
    larger one when there are two. *)
Definition scaled_half_up (fd : positive) (m : positive) (e : Z) : Z :=
  if 0 <=? e then Zpos m * 2 ^ e * Zpos (Pos.pow 10 fd)
  else (2 * Zpos m * Zpos (Pos.pow 10 fd) + 2 ^ (- e)) / (2 * 2 ^ (- e)).

(** [10^21 <= m * 2^e] *)
Definition ge_1e21 (m : positive) (e : Z) : bool :=
  if 0 <=? e then 10 ^ 21 <=? Zpos m * 2 ^ e
  else 10 ^ 21 * 2 ^ (- e) <=? Zpos m.

(** [Number(x.toFixed(fd))].  [toFixed] prints [NaN] and the infinities by
    name and values of magnitude at least [10^21] through [ToString], all
    of which [Number] reads back unchanged; a zero prints without sign;
    otherwise the digits are those of [scaled_half_up], after a minus sign
    when [x < 0]. *)
Definition Number_toFixed (fd : positive) (x : number) : number :=
  match x with
  | S754_nan => S754_nan
  | S754_infinity s => S754_infinity s
  | S754_zero _ => S754_zero false
  | S754_finite s m e =>
      if ge_1e21 m e then x
      else match scaled_half_up fd m e with
           | Zpos n => nearest s n (Pos.pow 10 fd)
           | _ => S754_zero s
           end
  end.

(** [Math.round(x)]: the integer nearest to [x], ties towards [+Infinity];
    the sign of [x] is kept when the result is zero. *)
Definition Math_round (x : number) : number :=
  match x with
  | S754_finite s m e =>
      if 0 <=? e then x
      else
        let n := (2 * cond_Zopp s (Zpos m) + 2 ^ (- e)) / (2 * 2 ^ (- e)) in
        match n with
        | Z0 => S754_zero s
        | _ => of_Z n
        end
  | _ => x
  end.

(** [Math.max(0, y)] *)
Definition Math_max0 (y : number) : number :=
  match y with
  | S754_nan => S754_nan
  | _ => if ltb zero y then y else zero
  end.

(** Values a property read can produce on the configuration objects. *)
Inductive value :=
| Undefined
| Num (x : number)
| Obj.

(** [v === undefined] *)
Definition is_undefined (v : value) : bool :=
  match v with Undefined => true | _ => false end.

(** [ToNumber] as applied by [*] to its operands. *)
Definition ToNumber (v : value) : number :=
  match v with
  | Num x => x
  | _ => NaN
  end.

(** What [throw new Error(...)] raises. *)
Inductive result (A : Type) :=
| Ok (a : A)
| Throw (msg : string).
Arguments Ok {A} a.
Arguments Throw {A} msg.

End JS.

(** ** Objects used as tables: own properties in insertion order *)

Module Object.

Definition t (A : Type) : Type := list (string * A).

Fixpoint own {A} (o : t A) (key : string) : option A :=
  match o with
  | [] => None
  | (k, v) :: o' => if String.eqb k key then Some v else own o' key
  end.

(** [Object.keys(o)], also the order in which [for (k in o)] runs. *)
Definition keys {A} (o : t A) : list string := map fst o.

(** [o.hasOwnProperty(key)] *)
Definition hasOwnProperty {A} (o : t A) (key : string) : bool :=
  match own o key with Some _ => true | None => false end.

(** The names every object literal inherits from [Object.prototype]. *)
Definition prototype_names : list string :=
  [ "constructor"; "__defineGetter__"; "__defineSetter__"; "hasOwnProperty";
    "__lookupGetter__"; "__lookupSetter__"; "isPrototypeOf";
    "propertyIsEnumerable"; "toString"; "valueOf"; "__proto__";
    "toLocaleString" ]%string.

(** [o[key]] on a table of numbers: the own property when there is one,
    an inherited function or object for a name of [Object.prototype],
    [undefined] otherwise. *)
Definition get (o : t JS.number) (key : string) : JS.value :=
  match own o key with
  | Some x => JS.Num x
  | None =>
      if existsb (String.eqb key) prototype_names then JS.Obj
      else JS.Undefined
  end.

End Object.

(** ** [Array.prototype.sort] with a comparison function

    The language requires a stable sort.  The model is the insertion sort
    engines run on short arrays: each element in turn moves left past the
    elements [t] of the sorted prefix for which [comparefn(t, x) > 0].
    The prefix is kept in reverse so that the scan starts at its right
    end. *)

Section ArraySort.
Context {A : Type}.
Variable comparefn : A -> A -> JS.number.

Fixpoint insert_left (x : A) (prefix_rev : list A) : list A :=
  match prefix_rev with
  | [] => [x]
  | t :: rest =>
      if JS.gtb (comparefn t x) JS.zero then t :: insert_left x rest
      else x :: prefix_rev
  end.

Definition Array_sort (a : list A) : list A :=
  rev (fold_left (fun prefix_rev x => insert_left x prefix_rev) a []).

End ArraySort.

(** ** config.js *)

Module CONFIG.

(** [EMISSION_FACTORS], kg CO2 per km (config.js 18-23). *)
Definition EMISSION_FACTORS : Object.t JS.number :=
  [ ("bicycle", JS.zero);
    ("car", JS.dec 12 2);
    ("bus", JS.dec 89 3);
    ("truck", JS.dec 96 2) ]%string.

Record transport_mode := {
  label : string;
  icon : string;
  color : string
}.

(** [TRANSPORT_MODES] (config.js 28-49); presentation metadata. *)
Definition TRANSPORT_MODES : Object.t transport_mode :=
  [ ("bicycle", {| label := "Bicycle"; icon := "🚲"; color := "#10b981" |});
    ("car", {| label := "Car"; icon := "🚗"; color := "#3b82f6" |});
    ("bus", {| label := "Bus"; icon := "🚌"; color := "#f59e0b" |});
    ("truck", {| label := "Truck"; icon := "🚚"; color := "#ef4444" |}) ]%string.

(** [CARBON_CREDIT] (config.js 54-58). *)
Definition KG_PER_CREDIT : JS.number := JS.of_Z 1000.
Definition PRICE_MIN_USD : JS.number := JS.of_Z 50.
Definition PRICE_MAX_USD : JS.number := JS.of_Z 150.

End CONFIG.

(** ** calculator.js, first implementation: [var Calculator] *)

Module Calculator.
Import JS.

Definition calculateEmission (distanceKm : number) (transportMode : string)
  : number :=
  let factor := Object.get CONFIG.EMISSION_FACTORS transportMode in
  if is_undefined factor || leb distanceKm zero then zero
  else
    let emission := mul distanceKm (ToNumber factor) in
    Number_toFixed 2 emission.

Record entry := {
  mode : string;
  emission : number;
  percentageVsCar : number
}.

Definition calculateAllModes (distanceKm : number) : list entry :=
  let carEmission := calculateEmission distanceKm "car" in
  let results :=
    map (fun mode =>
           let emission := calculateEmission distanceKm mode in
           let percentageVsCar :=
             if gtb carEmission zero
             then mul (div emission carEmission) (of_Z 100)
             else zero in
           {| mode := mode;
              emission := emission;
              percentageVsCar := Number_toFixed 2 percentageVsCar |})
        (Object.keys CONFIG.EMISSION_FACTORS) in
  Array_sort (fun a b => sub (emission a) (emission b)) results.

Record savings := {
  savedKg : number;
  percentage : number
}.

Definition calculateSavingd (emission baselineEmission : number) : savings :=
  if leb baselineEmission zero then
    {| savedKg := zero; percentage := zero |}
  else
    let savedKg := sub baselineEmission emission in
    let percentage := mul (div savedKg baselineEmission) (of_Z 100) in
    {| savedKg := Number_toFixed 2 savedKg;
       percentage := Number_toFixed 2 percentage |}.

Definition calculateCarbonCredits (emissionKg : number) : number :=
  if leb emissionKg zero then zero
  else
    let credits := div emissionKg CONFIG.KG_PER_CREDIT in
    Number_toFixed 4 credits.

Record price := {
  min : number;
  max : number;
  average : number
}.

Definition estimatedCreditPrice (credits : number) : price :=
  if leb credits zero then
    {| min := zero; max := zero; average := zero |}
  else
    let min := mul credits CONFIG.PRICE_MIN_USD in
    let max := mul credits CONFIG.PRICE_MAX_USD in
    let average := div (add min max) (of_Z 2) in
    {| min := Number_toFixed 2 min;
       max := Number_toFixed 2 max;
       average := Number_toFixed 2 average |}.

End Calculator.

(** ** calculator.js, second implementation: [const calculator] *)

Module calculator.
Import JS.

Definition bind {A B} (r : result A) (k : A -> result B) : result B :=
  match r with
  | Ok a => k a
  | Throw msg => Throw msg
  end.

Notation "x <- r ;; k" := (bind r (fun x => k))
  (at level 61, r at next level, right associativity).

(** [a.forEach(f)] where [f] pushes one element per call or throws. *)
Fixpoint forEach_push {A B} (f : A -> result B) (a : list A) : result (list B) :=
  match a with
  | [] => Ok []
  | x :: a' =>
      y <- f x ;;
      ys <- forEach_push f a' ;;
      Ok (y :: ys)
  end.

Definition invalid_distance : string :=
  "Invalid distance. Must be a positive number.".

Definition unknown_mode (transportMode : string) : string :=
  "Unknown transport mode: " ++ transportMode.

Definition calculateEmission (distanceKm : number) (transportMode : string)
  : result number :=
  if leb distanceKm zero then Throw invalid_distance
  else if negb (Object.hasOwnProperty CONFIG.EMISSION_FACTORS transportMode)
  then Throw (unknown_mode transportMode)
  else
    let emissionFactor := Object.get CONFIG.EMISSION_FACTORS transportMode in
    let emission := mul distanceKm (ToNumber emissionFactor) in
    Ok (div (Math_round (mul emission (of_Z 100))) (of_Z 100)).

Record entry := {
  mode : string;
  emission : number;
  percentageVsCar : number;
  label : string;
  icon : string;
  color : string
}.

(** [CONFIG.TRANSPORT_MODES[mode]], whose fields are then read: a missing
    mode makes the field access raise a [TypeError]. *)
Definition transport_mode (mode : string) : result CONFIG.transport_mode :=
  match Object.own CONFIG.TRANSPORT_MODES mode with
  | Some tm => Ok tm
  | None => Throw "TypeError: cannot read properties of undefined"
  end.

Definition calculateAllModes (distanceKm : number) : result (list entry) :=
  if leb distanceKm zero then Throw invalid_distance
  else
    carEmission <- calculateEmission distanceKm "car" ;;
    results <-
      forEach_push
        (fun mode =>
           emission <- calculateEmission distanceKm mode ;;
           let percentageVsCar :=
             if eqb carEmission zero then
               (if eqb emission zero then of_Z 100 else Infinity)
             else Math_round (mul (div emission carEmission) (of_Z 100)) in
           tm <- transport_mode mode ;;
           Ok {| mode := mode;
                 emission := emission;
                 percentageVsCar := percentageVsCar;
                 label := CONFIG.label tm;
                 icon := CONFIG.icon tm;
                 color := CONFIG.color tm |})
        (Object.keys CONFIG.EMISSION_FACTORS) ;;
    Ok (Array_sort (fun a b => sub (emission a) (emission b)) results).

Record savings := {
  savedKg : number;
  percentage : number
}.

(** Both arguments are numbers here, so the [typeof] guard never fires. *)
Definition calculateSavings (emission baselineEmission : number)
  : result savings :=
  if leb baselineEmission zero then
    Ok {| savedKg := zero; percentage := zero |}
  else
    let savedKg := Math_max0 (sub baselineEmission emission) in
    let percentage := mul (div savedKg baselineEmission) (of_Z 100) in
    Ok {| savedKg := div (Math_round (mul savedKg (of_Z 100))) (of_Z 100);
          percentage :=
            div (Math_round (mul percentage (of_Z 100))) (of_Z 100) |}.

Definition calculateCarbonCredits (emissionKg : number) : result number :=
  if ltb emissionKg zero then
    Throw "Emission must be a non-negative number"
  else
    let credits := div emissionKg CONFIG.KG_PER_CREDIT in
    Ok (div (Math_round (mul credits (of_Z 10000))) (of_Z 10000)).

Record price := {
  min : number;
  max : number;
  average : number
}.

Definition estimateCreditPrice (credits : number) : result price :=
  if ltb credits zero then
    Throw "Credits must be a non-negative number"
  else
    let minPrice := mul credits CONFIG.PRICE_MIN_USD in
    let maxPrice := mul credits CONFIG.PRICE_MAX_USD in
    let averagePrice := div (add minPrice maxPrice) (of_Z 2) in
    Ok {| min := div (Math_round (mul minPrice (of_Z 100))) (of_Z 100);
          max := div (Math_round (mul maxPrice (of_Z 100))) (of_Z 100);
          average :=
            div (Math_round (mul averagePrice (of_Z 100))) (of_Z 100) |}.

End calculator.

(** ** JavaScript strings of characters below U+0100

    The built-ins used on city names, on strings whose code units are all
    below U+0100, which is where every city name of the tables lives.
    Strings of arbitrary 16-bit code units are modelled in [UTF16] further
    down, and the lookups on them in [RoutesDB16]; on strings of
    characters below U+0100 those lookups are the ones defined here
    (lemma [lookups_agree_below_U0100]). *)

Module JSString.
Local Open Scope string_scope.

Definition code (c : ascii) : N := N_of_ascii c.

(** White space and line terminators removed by [trim]. *)
Definition is_white_space (c : ascii) : bool :=
  let n := code c in
  ((9 <=? n) && (n <=? 13) || (n =? 32) || (n =? 160))%N.

(** Letters that have a lower-case form: A-Z and the Latin-1 capitals. *)
Definition is_upper (c : ascii) : bool :=
  let n := code c in
  ((65 <=? n) && (n <=? 90) || (192 <=? n) && (n <=? 214)
   || (216 <=? n) && (n <=? 222))%N.

Definition lower_char (c : ascii) : ascii :=
  if is_upper c then ascii_of_N (code c + 32) else c.

(** [s.toLowerCase()] *)
Fixpoint toLowerCase (s : string) : string :=
  match s with
  | EmptyString => EmptyString
  | String c s' => String (lower_char c) (toLowerCase s')
  end.

Fixpoint trimStart (s : string) : string :=
  match s with
  | EmptyString => EmptyString
  | String c s' => if is_white_space c then trimStart s' else s
  end.

Fixpoint trimEnd (s : string) : string :=
  match s with
  | EmptyString => EmptyString
  | String c s' =>
      match trimEnd s' with
      | EmptyString => if is_white_space c then EmptyString else String c EmptyString
      | t => String c t
      end
  end.

(** [s.trim()] *)
Definition trim (s : string) : string := trimStart (trimEnd s).

(** [!s]: the empty string is the only falsy string. *)
Definition falsy (s : string) : bool :=
  match s with EmptyString => true | _ => false end.

End JSString.

(** ** routes-data.js *)

Record Route := {
  origin : string;
  destination : string;
  distanceKm : JS.number
}.

Definition route (o d : string) (km : Z) : Route :=
  {| origin := o; destination := d; distanceKm := JS.of_Z km |}.

(** [array.find(p)]: the first element satisfying [p], or [undefined]. *)
Definition Array_find {A} (p : A -> bool) (a : list A) : option A :=
  List.find p a.

(** *** First implementation: [const RoutesDB] (routes-data.js 4-128) *)

Module RoutesDB_const.
Import JSString.
Local Open Scope string_scope.

Definition routes : list Route :=
  [
    route "Toronto, ON" "Ottawa, ON" 451;
    route "Toronto, ON" "Montreal, QC" 542;
    route "Toronto, ON" "Vancouver, BC" 4350;
    route "Toronto, ON" "New York, NY" 874;
    route "Toronto, ON" "Chicago, IL" 838;
    route "Ottawa, ON" "Montreal, QC" 199;
    route "Ottawa, ON" "Edmonton, AB" 3389;
    route "Ottawa, ON" "Vancouver, BC" 4465;
    route "Montreal, QC" "Quebec City, QC" 250;
    route "Montreal, QC" "Boston, MA" 506;
    route "Vancouver, BC" "Seattle, WA" 230;
    route "Vancouver, BC" "Calgary, AB" 970;
    route "Vancouver, BC" "Edmonton, AB" 1170;
    route "Vancouver, BC" "Toronto, ON" 4350;
    route "Calgary, AB" "Edmonton, AB" 299;
    route "Calgary, AB" "Winnipeg, MB" 1330;
    route "Edmonton, AB" "Saskatoon, SK" 525;
    route "Edmonton, AB" "Victoria, BC" 1210;
    route "Winnipeg, MB" "Toronto, ON" 2040;
    route "Winnipeg, MB" "Calgary, AB" 1330;
    route "Winnipeg, MB" "Saskatoon, SK" 785;
    route "Winnipeg, MB" "Thunder Bay, ON" 705;
    route "Halifax, NS" "St. John's, NL" 1710;
    route "Halifax, NS" "Montreal, QC" 1265;
    route "Halifax, NS" "Toronto, ON" 1795;
    route "New York, NY" "Washington, DC" 365;
    route "New York, NY" "Boston, MA" 346;
    route "New York, NY" "Chicago, IL" 1266;
    route "New York, NY" "Los Angeles, CA" 4470;
    route "Los Angeles, CA" "San Francisco, CA" 616;
    route "Los Angeles, CA" "Las Vegas, NV" 434;
    route "Los Angeles, CA" "San Diego, CA" 192;
    route "Chicago, IL" "Detroit, MI" 458;
    route "Chicago, IL" "St. Louis, MO" 467;
    route "Chicago, IL" "Minneapolis, MN" 644;
    route "Seattle, WA" "Portland, OR" 280;
    route "Seattle, WA" "Vancouver, BC" 230;
    route "Detroit, MI" "Windsor, ON" 5;
    route "Buffalo, NY" "Toronto, ON" 157;
    route "Boston, MA" "Montreal, QC" 506;
    route "San Francisco, CA" "Portland, OR" 1015;
    route "San Francisco, CA" "Seattle, WA" 1300;
    route "Miami, FL" "Orlando, FL" 346;
    route "Miami, FL" "Atlanta, GA" 1087;
    route "Atlanta, GA" "Nashville, TN" 395;
    route "Dallas, TX" "Houston, TX" 385;
    route "Dallas, TX" "Austin, TX" 320;
    route "Phoenix, AZ" "Tucson, AZ" 188;
    route "Phoenix, AZ" "Las Vegas, NV" 474
  ].

Definition findDistance (cityA cityB : string) : option JS.number :=
  let normalizedA := toLowerCase (trim cityA) in
  let normalizedB := toLowerCase (trim cityB) in
  let route :=
    Array_find
      (fun route =>
         let origin := toLowerCase (origin route) in
         let destination := toLowerCase (destination route) in
         (String.eqb origin normalizedA && String.eqb destination normalizedB)
         || (String.eqb origin normalizedB && String.eqb destination normalizedA))
      routes in
  match route with
  | Some route => Some (distanceKm route)
  | None => None
  end.

End RoutesDB_const.

(** *** Second implementation: [var RoutesDB] (routes-data.js 150-239) *)

Module RoutesDB_var.
Import JSString.
Local Open Scope string_scope.

Definition routes : list Route :=
  [
    route "Toronto, ON" "Ottawa, ON" 451;
    route "Ottawa, ON" "Montreal, QC" 199;
    route "Toronto, ON" "Montreal, QC" 541;
    route "Edmonton, AB" "Ottawa, ON" 3389;
    route "Vancouver, BC" "Ottawa, ON" 4450;
    route "Calgary, AB" "Edmonton, AB" 299;
    route "Vancouver, BC" "Calgary, AB" 970;
    route "Winnipeg, MB" "Toronto, ON" 2225;
    route "Winnipeg, MB" "Regina, SK" 575;
    route "Regina, SK" "Saskatoon, SK" 262;
    route "Halifax, NS" "Moncton, NB" 260;
    route "Halifax, NS" "St. John's, NL" 1810;
    route "Quebec City, QC" "Montreal, QC" 252;
    route "Quebec City, QC" "Ottawa, ON" 445;
    route "Hamilton, ON" "Toronto, ON" 68;
    route "Toronto, ON" "New York, NY" 790;
    route "Toronto, ON" "Chicago, IL" 701;
    route "Vancouver, BC" "Seattle, WA" 230;
    route "Montreal, QC" "Boston, MA" 500;
    route "Vancouver, BC" "San Francisco, CA" 1275;
    route "Calgary, AB" "Denver, CO" 1350;
    route "Windsor, ON" "Detroit, MI" 11;
    route "New York, NY" "Washington, DC" 362;
    route "Washington, DC" "Boston, MA" 634;
    route "Los Angeles, CA" "San Francisco, CA" 615;
    route "Los Angeles, CA" "Las Vegas, NV" 435;
    route "San Francisco, CA" "Seattle, WA" 1306;
    route "Chicago, IL" "Detroit, MI" 454;
    route "Chicago, IL" "Minneapolis, MN" 661;
    route "Dallas, TX" "Houston, TX" 385;
    route "Atlanta, GA" "Miami, FL" 1065;
    route "Denver, CO" "Salt Lake City, UT" 830;
    route "Phoenix, AZ" "Las Vegas, NV" 475;
    route "San Diego, CA" "Los Angeles, CA" 195
  ].

(** The [for] loop over [this.routes], returning at the first match. *)
Fixpoint search (o d : string) (rs : list Route) : option JS.number :=
  match rs with
  | [] => None
  | route :: rs' =>
      let rOrigin := toLowerCase (origin route) in
      let rDest := toLowerCase (destination route) in
      if (String.eqb rOrigin o && String.eqb rDest d)
         || (String.eqb rOrigin d && String.eqb rDest o)
      then Some (distanceKm route)
      else search o d rs'
  end.

Definition findDistance (origin destination : string) : option JS.number :=
  if falsy origin || falsy destination then None
  else
    let o := toLowerCase (trim origin) in
    let d := toLowerCase (trim destination) in
    search o d routes.

End RoutesDB_var.

(** ** Vocabulary of the specification *)

Module Spec.
Import JS.
Local Open Scope string_scope.

(** The closed enumeration of transport modes. *)
Inductive TransportMode := bicycle | car | bus | truck.

Definition all_modes : list TransportMode := [bicycle; car; bus; truck].

(** The key under which the program stores a mode. *)
Definition key (m : TransportMode) : string :=
  match m with
  | bicycle => "bicycle"
  | car => "car"
  | bus => "bus"
  | truck => "truck"
  end.

(** The factor table [{bicycle: 0, car: 0.12, bus: 0.089, truck: 0.96}]. *)
Definition factor (m : TransportMode) : number :=
  match m with
  | bicycle => zero
  | car => dec 12 2
  | bus => dec 89 3
  | truck => dec 96 2
  end.

(** The factor table as the specification writes it: exact decimals. *)
Definition factor_decimal (m : TransportMode) : Q :=
  match m with
  | bicycle => 0
  | car => 12 # 100
  | bus => 89 # 1000
  | truck => 96 # 100
  end.

(** The real number a finite binary64 denotes, [m * 2^e] with its sign
    (0 for the values that denote none). *)
Definition value (x : number) : Q :=
  match x with
  | S754_finite s m e => (inject_Z (cond_Zopp s (Zpos m)) * 2 ^ e)%Q
  | _ => 0%Q
  end.

(** [round(q, k)] in exact arithmetic, ties away from zero, as a count of
    units of [10^-k]: [sign(q) * floor(|q| * 10^k + 1/2)]. *)
Definition round_half_away (q : Q) (k : positive) : Z :=
  Z.sgn (Qnum q)
  * Qfloor (Qabs q * inject_Z (Zpos (Pos.pow 10 k)) + (1 # 2))%Q.

(** [round(q, k)] with ties to the even neighbour, the other rule the
    specification allows. *)
Definition round_half_even (q : Q) (k : positive) : Z :=
  let x := (Qabs q * inject_Z (Zpos (Pos.pow 10 k)))%Q in
  let f := Qfloor x in
  Z.sgn (Qnum q)
  * match (x - inject_Z f ?= 1 # 2)%Q with
    | Lt => f
    | Gt => f + 1
    | Eq => if Z.even f then f else f + 1
    end.

(** The number written [n * 10^-k]: the binary64 nearest to it. *)
Definition decimal (n : Z) (k : positive) : number :=
  match n with
  | Z0 => zero
  | Zpos p => nearest false p (Pos.pow 10 k)
  | Zneg p => nearest true p (Pos.pow 10 k)
  end.

(** [emission(d, m) == round(d * factor[m], 2)], exactly: the product and
    the rounding are those of exact arithmetic on the decimals of the
    factor table. *)
Definition emission (d : number) (m : TransportMode) : number :=
  decimal (round_half_away (value d * factor_decimal m) 2) 2.

(** The same rounding applied to the product as binary64 arithmetic
    computes it: the distance times the binary64 value of the factor,
    rounded to the nearest binary64. *)
Definition emission_of_binary64_product (d : number) (m : TransportMode)
  : number :=
  decimal (round_half_away (value (mul d (factor m))) 2) 2.

(** The two implementations of the emission operation return the same
    number, the second without raising. *)
Definition variants_agree (d : number) (mode : string) : Prop :=
  calculator.calculateEmission d mode
  = Ok (Calculator.calculateEmission d mode).

(** The distances the route tables can fill in. *)
Definition table_distances : list number :=
  map distanceKm (RoutesDB_const.routes ++ RoutesDB_var.routes).

(** A distance the operations are specified for: a finite number that a
    binary64 can hold, strictly positive. *)
Definition positive_distance (d : number) : Prop :=
  valid d = true /\ is_finite d = true /\ ltb zero d = true.

(** A route matches the normalized pair [(a, b)] in either direction. *)
Definition matches (a b : string) (r : Route) : bool :=
  let o := JSString.toLowerCase (origin r) in
  let d := JSString.toLowerCase (destination r) in
  (String.eqb o a && String.eqb d b) || (String.eqb o b && String.eqb d a).

(** [first_match a b routes r]: [r] is the first route of the table, in
    table order, that matches. *)
Definition first_match (a b : string) (routes : list Route) (r : Route)
  : Prop :=
  exists before after,
    routes = (before ++ r :: after)%list
    /\ matches a b r = true
    /\ forall r', In r' before -> matches a b r' = false.

(** What a lookup may return: the distance of the first matching route,
    which is strictly positive, or [null] when no route matches. *)
Definition lookup_result (routes : list Route) (a b : string)
  (res : option number) : Prop :=
  match res with
  | Some km =>
      exists r, first_match a b routes r
                /\ km = distanceKm r /\ ltb zero km = true
  | None => forall r, In r routes -> matches a b r = false
  end.

(** A table entry as the data model wants it: a strictly positive distance
    between two named cities. *)
Definition well_formed (r : Route) : bool :=
  ltb zero (distanceKm r)
  && negb (String.eqb (JSString.toLowerCase (origin r)) "")
  && negb (String.eqb (JSString.toLowerCase (destination r)) "").

(** The other case of a letter of the model's alphabet, the character
    itself when it has none. *)
Definition is_lower (c : ascii) : bool :=
  let n := JSString.code c in
  ((97 <=? n) && (n <=? 122) || (224 <=? n) && (n <=? 246)
   || (248 <=? n) && (n <=? 254))%N.

Definition swap_case (c : ascii) : ascii :=
  if JSString.is_upper c then ascii_of_N (JSString.code c + 32)
  else if is_lower c then ascii_of_N (JSString.code c - 32)
  else c.

(** [s'] is [s] with the case of some letters changed. *)
Inductive recased : string -> string -> Prop :=
| recased_nil : recased EmptyString EmptyString
| recased_same c s s' : recased s s' -> recased (String c s) (String c s')
| recased_swap c s s' :
    recased s s' -> recased (String c s) (String (swap_case c) s').

(** A string made of white space only. *)
Fixpoint blank (s : string) : bool :=
  match s with
  | EmptyString => true
  | String c s' => JSString.is_white_space c && blank s'
  end.

(** [s'] is [s] altered only by leading or trailing white space and by
    letter case. *)
Definition altered (s s' : string) : Prop :=
  exists before core after,
    blank before = true /\ blank after = true
    /\ recased s core /\ s' = before ++ core ++ after.

End Spec.

(** ** Vocabulary for binary64 values *)

Module B64.
Import JS.

(** The exponent a value of magnitude below [2^k] is stored with. *)
Definition fexp (k : Z) : Z := SpecFloat.fexp prec emax k.

(** The number of binary digits of a positive integer. *)
Definition digits (m : positive) : Z := Zpos (digits2_pos m).

(** [n] right shifts divide the mantissa by [2^n]; they lose nothing when
    the mantissa is a multiple of [2^n] and nothing had been lost before. *)
Definition shifted (n : Z) (x y : shr_record) : Prop :=
  0 <= shr_m x ->
  shr_m y = shr_m x / 2 ^ n
  /\ (shr_r x = false -> shr_s x = false -> shr_m x mod 2 ^ n = 0 ->
      shr_r y = false /\ shr_s y = false).

(** Every finite binary64 is an integer multiple of [2^-1074]; [scaled x]
    is that integer.  The infinities are placed beyond every finite value
    (the largest is below [2^2098]) and [NaN], which compares with nothing,
    is given 0. *)
Definition scaled (x : number) : Z :=
  match x with
  | S754_zero _ => 0
  | S754_nan => 0
  | S754_infinity s => cond_Zopp s (2 ^ 2098)
  | S754_finite s m e => cond_Zopp s (Zpos m * 2 ^ (e + 1074))
  end.

(** A number other than [NaN] that a binary64 can hold. *)
Definition proper (x : number) : Prop :=
  valid x = true /\ is_nan x = false.

(** The outcome of rounding a magnitude with the sign [s]: a valid zero,
    finite value or infinity of that sign. *)
Definition rounded (s : bool) (x : number) : Prop :=
  valid x = true
  /\ (x = S754_zero s \/ x = S754_infinity s
      \/ exists m e, x = S754_finite s m e).

End B64.

(** ** Vocabulary for sorted results *)

(** [x] goes before [y] in a stable ascending sort: by key, then by the
    position [pos] the element had in the input. *)
Definition sorted_before {A : Type} (key pos : A -> Z) (x y : A) : Prop :=
  key x < key y \/ (key x = key y /\ pos x < pos y).

(** ** Vocabulary for the emission engine's results *)

Module Engine.
Import JS.

(** [NaN] or a valid zero, finite value or infinity with a clear sign bit:
    the numbers for which [x < 0] is false and that a rounding of a
    non-negative quantity can produce. *)
Definition nonneg (x : number) : Prop :=
  x = NaN \/ B64.rounded false x.

(** [Math.round(x * 10^k) / 10^k], the second implementation's rounding to
    [k] decimals. *)
Definition round_scaled (k : Z) (x : number) : number :=
  div (Math_round (mul x (of_Z (10 ^ k)))) (of_Z (10 ^ k)).

(** Position of a mode key in the declaration order of a table. *)
Fixpoint index_of (key : string) (keys : list string) : Z :=
  match keys with
  | [] => 0
  | k :: keys' => if String.eqb k key then 0 else 1 + index_of key keys'
  end.

Definition declaration_index (mode : string) : Z :=
  index_of mode (Object.keys CONFIG.EMISSION_FACTORS).

(** The order of a comparison: ascending emission, and declaration order
    of the modes among equal emissions. *)
Definition precedes (e1 : number) (mode1 : string)
  (e2 : number) (mode2 : string) : Prop :=
  ltb e1 e2 = true
  \/ (eqb e1 e2 = true
      /\ declaration_index mode1 < declaration_index mode2).

(** What the specification asks of a comparison, given how to read the
    mode and the emission of an entry: one entry per mode of the
    enumeration, ascending emissions, ties in declaration order, and no
    emission for the bicycle. *)
Definition comparison {A : Type} (mode : A -> string)
  (emission : A -> number) (entries : list A) : Prop :=
  List.length entries = 4%nat
  /\ Permutation (map mode entries) (map Spec.key Spec.all_modes)
  /\ StronglySorted (fun a b => leb (emission a) (emission b) = true) entries
  /\ StronglySorted
       (fun a b => precedes (emission a) (mode a) (emission b) (mode b))
       entries
  /\ (forall x, In x entries -> mode x = "bicycle"%string ->
      emission x = zero).

End Engine.

(** * The rest of the route table and of the application

    What follows embeds the functions of the same files that the
    properties above did not need: the enumeration of cities, and the
    chains of calls by which the two submit handlers use the engine. *)

(** ** More of the language: sets, the default sort order, truthiness *)

Module ES.
Import JS.

(** [isNaN(x)] and [!x] on numbers: 0, -0 and [NaN] are the falsy ones. *)
Definition isNaN (x : number) : bool := is_nan x.

Definition falsy_number (x : number) : bool :=
  match x with
  | S754_zero _ | S754_nan => true
  | _ => false
  end.

(** A [Set] of strings, as the sequence of its elements in insertion
    order; [set.add(x)] leaves the set as it is when [x] is in it. *)
Definition Set_add (set : list string) (x : string) : list string :=
  if existsb (String.eqb x) set then set else set ++ [x].

(** [new Set(array)] *)
Definition Set_of (array : list string) : list string :=
  fold_left Set_add array [].

(** The comparison [sort()] applies to strings when it is given no
    function: by code units, a proper prefix first. *)
Definition SortCompare (x y : string) : number :=
  if String.ltb x y then of_Z (-1)
  else if String.ltb y x then of_Z 1
  else zero.

(** [array.sort()] on strings *)
Definition sort (array : list string) : list string :=
  Array_sort SortCompare array.

End ES.

(** ** routes-data.js: [getAllCities]

    The table [this.routes] is passed explicitly. *)

Module Cities_const.

(** routes-data.js 90-101 *)
Definition getAllCities (this_routes : list Route) : list string :=
  let cities :=
    fold_left
      (fun cities route =>
         ES.Set_add (ES.Set_add cities (origin route)) (destination route))
      this_routes [] in
  ES.sort cities.

End Cities_const.

Module Cities_var.

(** routes-data.js 197-206 *)
Definition getAllCities (this_routes : list Route) : list string :=
  let cities :=
    fold_left
      (fun cities route => (cities ++ [origin route]) ++ [destination route])
      this_routes [] in
  ES.sort (ES.Set_of cities).

End Cities_var.

(** ** The first submit handler (calculator.js 359-495)

    The handler reads the form, validates it, and in a [try] block
    computes the figures it hands to the renderers.  The model is the
    validation and that computation, on the values read from the form:
    the trimmed origin and destination, the parsed distance, and the value
    of the checked radio button (the empty string when none is). *)

Module app.
Import JS.

Record figures := {
  emission : number;
  carEmission : number;
  savings : Calculator.savings;
  allModesComparison : list Calculator.entry;
  credits : number;
  creditPrice : Calculator.price
}.

Inductive outcome :=
| Alert (message : string)
| Computed (f : figures).

Definition handleFormSubmit (origin destination : string)
  (distanceKm : number) (transportMode : string) : outcome :=
  if JSString.falsy origin || JSString.falsy destination
     || ES.falsy_number distanceKm || JSString.falsy transportMode
  then Alert "Please fill in all fields before calculating."
  else if leb distanceKm zero || ES.isNaN distanceKm
  then Alert "Distance must be greater than 0."
  else
    let emission := Calculator.calculateEmission distanceKm transportMode in
    let carEmission := Calculator.calculateEmission distanceKm "car" in
    let savings := Calculator.calculateSavingd emission carEmission in
    let allModesComparison := Calculator.calculateAllModes distanceKm in
    let credits := Calculator.calculateCarbonCredits emission in
    let creditPrice := Calculator.estimatedCreditPrice credits in
    Computed {| emission := emission;
                carEmission := carEmission;
                savings := savings;
                allModesComparison := allModesComparison;
                credits := credits;
                creditPrice := creditPrice |}.

End app.

(** ** The second submit handler (calculator.js 500-755) *)

Module app_iife.
Import JS.
Import calculator.

Record formData := {
  origin : string;
  destination : string;
  distance : number;
  transport : option string
}.

(** [validateFormData]: [None] for [true], the alert shown otherwise. *)
Definition validateFormData (formData : formData) : option string :=
  if JSString.falsy (origin formData) then
    Some "Please enter an origin city."%string
  else if JSString.falsy (destination formData) then
    Some "Please enter a destination city."%string
  else if ES.isNaN (distance formData) || leb (distance formData) zero then
    Some "Please enter a valid distance greater than 0 km."%string
  else if match transport formData with
          | None => true
          | Some t => JSString.falsy t
          end then
    Some "Please select a transport mode."%string
  else if String.eqb (JSString.toLowerCase (origin formData))
                     (JSString.toLowerCase (destination formData)) then
    Some "Origin and destination cannot be the same city."%string
  else None.

(** A [null] transport used as a property name reads as ["null"]. *)
Definition property_name (transport : option string) : string :=
  match transport with
  | Some t => t
  | None => "null"
  end.

Record figures := {
  selectedEmission : number;
  carEmission : number;
  savings : calculator.savings;
  allModes : list calculator.entry;
  creditsNeeded : number;
  creditPrice : calculator.price
}.

(** [performCalculations], steps 1 to 5: the figures handed to the
    renderers, or the error thrown before anything is rendered. *)
Definition performCalculations (formData : formData) : result figures :=
  selectedEmission <-
    calculateEmission (distance formData)
                      (property_name (transport formData)) ;;
  carEmission <- calculateEmission (distance formData) "car" ;;
  savings <- calculateSavings selectedEmission carEmission ;;
  allModes <- calculateAllModes (distance formData) ;;
  creditsNeeded <- calculateCarbonCredits selectedEmission ;;
  creditPrice <- estimateCreditPrice creditsNeeded ;;
  Ok {| selectedEmission := selectedEmission;
        carEmission := carEmission;
        savings := savings;
        allModes := allModes;
        creditsNeeded := creditsNeeded;
        creditPrice := creditPrice |}.

End app_iife.

(** ** ui.js, first implementation: the colour of a comparison bar
    (config.js 301-304) *)

Module UI.
Import JS.

Definition barColor (percentageVsCar : number) : string :=
  let barColor := "green"%string in
  let barColor :=
    if gtb percentageVsCar (of_Z 25) && leb percentageVsCar (of_Z 75)
    then "yellow"%string else barColor in
  let barColor :=
    if gtb percentageVsCar (of_Z 75) && leb percentageVsCar (of_Z 100)
    then "orange"%string else barColor in
  let barColor :=
    if gtb percentageVsCar (of_Z 100) then "red"%string else barColor in
  barColor.

End UI.

(** * Strings as JavaScript has them

    A JavaScript string is a sequence of 16-bit code units.  [trim] is
    modelled on all of them.  [toLowerCase] is a function of the host; the
    lookups below take it as a parameter, so that what is proved of them
    holds for whatever function the host provides. *)

Module UTF16.

(** A code unit is a number below [2^16]. *)
Definition code_unit : Type := N.

(** A string literal of the source whose characters are all below U+0100:
    one code unit per character. *)
Definition of_string (s : string) : list code_unit :=
  map N_of_ascii (list_ascii_of_string s).

(** [WhiteSpace] and [LineTerminator] of ECMAScript, the code units that
    [trim] removes: TAB, LF, VT, FF, CR, SP, NBSP, U+1680, U+2000 to
    U+200A, U+2028, U+2029, U+202F, U+205F, U+3000 and U+FEFF. *)
Definition is_white_space (c : code_unit) : bool :=
  ((9 <=? c) && (c <=? 13) || (c =? 32) || (c =? 160) || (c =? 0x1680)
   || (0x2000 <=? c) && (c <=? 0x200A) || (c =? 0x2028) || (c =? 0x2029)
   || (c =? 0x202F) || (c =? 0x205F) || (c =? 0x3000) || (c =? 0xFEFF))%N.

Fixpoint trimStart (s : list code_unit) : list code_unit :=
  match s with
  | [] => []
  | c :: s' => if is_white_space c then trimStart s' else s
  end.

Fixpoint trimEnd (s : list code_unit) : list code_unit :=
  match s with
  | [] => []
  | c :: s' =>
      match trimEnd s' with
      | [] => if is_white_space c then [] else [c]
      | t => c :: t
      end
  end.

(** [s.trim()] *)
Definition trim (s : list code_unit) : list code_unit :=
  trimStart (trimEnd s).

(** [!s]: the empty string is the only falsy string. *)
Definition falsy (s : list code_unit) : bool :=
  match s with [] => true | _ => false end.

(** [s === t] on strings: the same code units. *)
Fixpoint eqb (s t : list code_unit) : bool :=
  match s, t with
  | [], [] => true
  | c :: s', d :: t' => (c =? d)%N && eqb s' t'
  | _, _ => false
  end.

End UTF16.

(** ** The lookups on 16-bit strings

    [findDistance] of both implementations (routes-data.js 110-126 and
    217-238) with the arguments as sequences of code units and the host's
    [toLowerCase] as a parameter. *)

Module RoutesDB16.
Import UTF16.

Section Host.
Variable toLowerCase : list code_unit -> list code_unit.

Definition const_findDistance (cityA cityB : list code_unit)
  : option JS.number :=
  let normalizedA := toLowerCase (trim cityA) in
  let normalizedB := toLowerCase (trim cityB) in
  let route :=
    Array_find
      (fun route =>
         let origin := toLowerCase (of_string (origin route)) in
         let destination := toLowerCase (of_string (destination route)) in
         (eqb origin normalizedA && eqb destination normalizedB)
         || (eqb origin normalizedB && eqb destination normalizedA))
      RoutesDB_const.routes in
  match route with
  | Some route => Some (distanceKm route)
  | None => None
  end.

(** The [for] loop over [this.routes], returning at the first match. *)
Fixpoint var_search (o d : list code_unit) (rs : list Route)
  : option JS.number :=
  match rs with
  | [] => None
  | route :: rs' =>
      let rOrigin := toLowerCase (of_string (origin route)) in
      let rDest := toLowerCase (of_string (destination route)) in
      if (eqb rOrigin o && eqb rDest d) || (eqb rOrigin d && eqb rDest o)
      then Some (distanceKm route)
      else var_search o d rs'
  end.

Definition var_findDistance (origin destination : list code_unit)
  : option JS.number :=
  if falsy origin || falsy destination then None
  else
    let o := toLowerCase (trim origin) in
    let d := toLowerCase (trim destination) in
    var_search o d RoutesDB_var.routes.

End Host.

End RoutesDB16.

(** ** Case conversion of the characters below U+0100

    The case mappings of Unicode for the code units of Basic Latin and
    Latin-1 Supplement, and for the dotted and dotless I of Latin
    Extended-A (U+0130, U+0131).  They serve the examples; a code unit
    outside this range is left as it is, which is not claimed of the
    host. *)

Module Unicode.
Import UTF16.

(** A-Z and the capitals U+00C0 to U+00DE, the multiplication sign U+00D7
    apart, have their lower case 32 units above; no other unit below
    U+0100 changes. *)
Definition lower_Latin1 (c : code_unit) : code_unit :=
  if ((65 <=? c) && (c <=? 90)
      || (192 <=? c) && (c <=? 222) && negb (c =? 215))%N
  then (c + 32)%N else c.

Definition toLowerCase_unit (c : code_unit) : list code_unit :=
  if (c <? 256)%N then [lower_Latin1 c]
  else if (c =? 0x130)%N then [0x69; 0x307]%N
  else [c].

Definition toLowerCase (s : list code_unit) : list code_unit :=
  flat_map toLowerCase_unit s.

(** a-z and U+00E0 to U+00FE, the division sign U+00F7 apart, have their
    upper case 32 units below; the sharp s becomes SS, the micro sign the
    Greek capital MU, y with diaeresis U+0178, and the dotless i the
    letter I. *)
Definition toUpperCase_unit (c : code_unit) : list code_unit :=
  if ((97 <=? c) && (c <=? 122)
      || (224 <=? c) && (c <=? 254) && negb (c =? 247))%N
  then [(c - 32)%N]
  else if (c =? 0xDF)%N then [0x53; 0x53]%N
  else if (c =? 0xB5)%N then [0x39C]%N
  else if (c =? 0xFF)%N then [0x178]%N
  else if (c =? 0x131)%N then [0x49]%N
  else [c].

Definition toUpperCase (s : list code_unit) : list code_unit :=
  flat_map toUpperCase_unit s.

End Unicode.

Module Spec16.
Import UTF16.

(** A string made of white space only. *)
Definition blank (s : list code_unit) : bool := forallb is_white_space s.

(** What the lookups need of the host's [toLowerCase]: a string of
    characters below U+0100 is lower-cased one code unit at a time. *)
Definition maps_Latin1 (toLowerCase : list code_unit -> list code_unit)
  : Prop :=
  forall s : string,
    toLowerCase (of_string s) = map Unicode.lower_Latin1 (of_string s).

(** A route matches the normalized pair [(a, b)] in either direction. *)
Definition matches (toLowerCase : list code_unit -> list code_unit)
  (a b : list code_unit) (r : Route) : bool :=
  let o := toLowerCase (of_string (origin r)) in
  let d := toLowerCase (of_string (destination r)) in
  (eqb o a && eqb d b) || (eqb o b && eqb d a).

(** [s'] is [s] altered only by leading or trailing white space and, when
    [s] is a string of characters below U+0100, by the case of its
    letters. *)
Definition altered (s s' : list code_unit) : Prop :=
  exists before core after,
    blank before = true /\ blank after = true
    /\ s' = (before ++ core ++ after)%list
    /\ (core = s
        \/ exists u u',
             s = of_string u /\ core = of_string u' /\ Spec.recased u u').

(** "winnipeg, mb" written with a dotless i (U+0131). *)
Definition dotless_winnipeg : list code_unit :=
  (of_string "w" ++ [0x131%N] ++ of_string "nnipeg, mb")%list.

End Spec16.

(** * Properties *)

Import JS.
Local Open Scope string_scope.

(** ** Decimal literals and the worked example *)

(** The literals of the factor table have the bit patterns a JavaScript
    engine gives them: [0.12 = 0x1.eb851eb851eb8p-4] and so on. *)
Lemma factor_bits :
  dec 12 2 = S754_finite false 8646911284551352 (-56)
  /\ dec 89 3 = S754_finite false 6413125869375586 (-56)
  /\ dec 96 2 = S754_finite false 8646911284551352 (-53)
  /\ dec 1 1 = S754_finite false 7205759403792794 (-56).
Proof. vm_compute. repeat split. Qed.

(** C9: distance 451 km by car gives emission 54.12 kg, 0.0541 credits for
    54.12 kg, and the price range 2.71 / 8.12 / 5.41 for 0.0541 credits. *)
Theorem C9_worked_example :
  Calculator.calculateEmission (of_Z 451) "car" = dec 5412 2
  /\ Calculator.calculateCarbonCredits (dec 5412 2) = dec 541 4
  /\ Calculator.estimatedCreditPrice (dec 541 4)
     = {| Calculator.min := dec 271 2;
          Calculator.max := dec 812 2;
          Calculator.average := dec 541 2 |}.
Proof. vm_compute. repeat split. Qed.

(** The second implementation computes the same figures. *)
Lemma worked_example_second_implementation :
  calculator.calculateEmission (of_Z 451) "car" = Ok (dec 5412 2)
  /\ calculator.calculateCarbonCredits (dec 5412 2) = Ok (dec 541 4)
  /\ calculator.estimateCreditPrice (dec 541 4)
     = Ok {| calculator.min := dec 271 2;
             calculator.max := dec 812 2;
             calculator.average := dec 541 2 |}.
Proof. vm_compute. repeat split. Qed.

(** ** The two emission operations side by side *)

(** 15 km by bus: the product [15 * 0.089] is the number just below 1.335
    (in decimal arithmetic it would be the tie 1.335 itself), which
    [toFixed(2)] prints as 1.33, while [emission * 100] rounds up to 133.5
    exactly and [Math.round] makes it 134. *)
Lemma bus_15km :
  mul (of_Z 15) (dec 89 3) = S754_finite false 6012305502539612 (-52)
  /\ mul (mul (of_Z 15) (dec 89 3)) (of_Z 100) = nearest false 1335 10
  /\ Calculator.calculateEmission (of_Z 15) "bus" = dec 133 2
  /\ calculator.calculateEmission (of_Z 15) "bus" = Ok (dec 134 2).
Proof. vm_compute. repeat split. Qed.

(** C2, refuted as stated: at 15 km by bus the implementations return 1.33
    and 1.34. *)
Lemma C2_variants_differ :
  Spec.positive_distance (of_Z 15)
  /\ In "bus" (Object.keys CONFIG.EMISSION_FACTORS)
  /\ ~ Spec.variants_agree (of_Z 15) "bus".
Proof.
  split; [|split].
  - repeat split.
  - simpl; auto.
  - unfold Spec.variants_agree. vm_compute. discriminate.
Qed.

(** A finite strictly positive number has a clear sign bit. *)
Lemma positive_finite_inv (d : number) :
  is_finite d = true -> ltb zero d = true ->
  exists m e, d = S754_finite false m e.
Proof.
  destruct d as [s|s| |s m e]; try discriminate.
  intros _. destruct s; [discriminate|]. intros _. now exists m, e.
Qed.

(** The same happens on distances of the route tables: 705 km
    (Winnipeg - Thunder Bay) by bus is 62.74 kg for one implementation and
    62.75 kg for the other. *)
Lemma bus_705km :
  In (of_Z 705) Spec.table_distances
  /\ Calculator.calculateEmission (of_Z 705) "bus" = dec 6274 2
  /\ calculator.calculateEmission (of_Z 705) "bus" = Ok (dec 6275 2).
Proof.
  split; [|vm_compute; repeat split].
  unfold Spec.table_distances. apply in_map_iff.
  exists (route "Winnipeg, MB" "Thunder Bay, ON" 705).
  split; [reflexivity|]. apply in_or_app. left.
  unfold RoutesDB_const.routes. do 21 right. left. reflexivity.
Qed.

Lemma table_distances_agree :
  Forall (fun d => Spec.variants_agree d "car"
                   /\ Spec.variants_agree d "truck")
         Spec.table_distances.
Proof.
  let l := eval vm_compute in Spec.table_distances in
  change (Forall (fun d => Spec.variants_agree d "car"
                           /\ Spec.variants_agree d "truck") l).
  repeat (apply Forall_cons; [split; vm_compute; reflexivity|]).
  apply Forall_nil.
Qed.

(** C2, amended: the implementations agree for the bicycle at every
    finite positive distance, for the car and the truck at every distance
    of the route tables, and for every mode at the distance 451 of the
    worked example. *)
Theorem C2_variants_agree_on (d : number) (mode : string) :
  is_finite d = true -> ltb zero d = true ->
  mode = "bicycle"
  \/ (In d Spec.table_distances /\ (mode = "car" \/ mode = "truck"))
  \/ (d = of_Z 451 /\ mode = "bus") ->
  Spec.variants_agree d mode.
Proof.
  intros Hfin Hpos [->|[[Hin Hmode]|[-> ->]]].
  - destruct (positive_finite_inv d Hfin Hpos) as (m & e & ->).
    reflexivity.
  - pose proof table_distances_agree as H. rewrite Forall_forall in H.
    destruct (H d Hin) as [Hcar Htruck].
    now destruct Hmode as [->| ->].
  - vm_compute. reflexivity.
Qed.

Lemma C2_variants_agree_on_witness :
  Spec.variants_agree (of_Z 451) "bus".
Proof.
  apply (C2_variants_agree_on (of_Z 451) "bus");
    [reflexivity | reflexivity | right; right; split; reflexivity].
Defined.

(** ** Unknown transport modes *)

(** C4, refuted as stated: the first implementation answers 0 for the
    unknown mode "plane". *)
Lemma C4_unknown_mode_silent_zero :
  ~ In "plane" (map Spec.key Spec.all_modes)
  /\ Calculator.calculateEmission (of_Z 451) "plane" = zero.
Proof.
  split; [|reflexivity].
  simpl. intros [H|[H|[H|[H|[]]]]]; discriminate.
Qed.

Lemma own_not_key {A} (o : Object.t A) (key : string) :
  ~ In key (Object.keys o) -> Object.own o key = None.
Proof.
  induction o as [|[k v] o IH]; intros H; [reflexivity|].
  cbn [Object.own]. destruct (String.eqb_spec k key) as [E|_].
  - exfalso. apply H. left. exact E.
  - apply IH. intros Hin. apply H. right. exact Hin.
Qed.

Lemma hasOwnProperty_factors (mode : string) :
  ~ In mode (map Spec.key Spec.all_modes) ->
  Object.own CONFIG.EMISSION_FACTORS mode = None.
Proof. intros H. apply own_not_key. exact H. Qed.

(** C4, amended: for a mode outside the enumeration the second
    implementation always raises, the unknown-mode error when the
    distance passes its own check and the invalid-distance error
    otherwise; the first implementation returns 0 unless the name is one
    every object inherits. *)
Theorem C4_unknown_mode (d : number) (mode : string) :
  ~ In mode (map Spec.key Spec.all_modes) ->
  (exists msg, calculator.calculateEmission d mode = Throw msg)
  /\ (leb d zero = false ->
      calculator.calculateEmission d mode
      = Throw (calculator.unknown_mode mode))
  /\ (leb d zero = true ->
      calculator.calculateEmission d mode
      = Throw calculator.invalid_distance)
  /\ (~ In mode Object.prototype_names ->
      Calculator.calculateEmission d mode = zero).
Proof.
  intros H. pose proof (hasOwnProperty_factors mode H) as Hown.
  unfold calculator.calculateEmission, Calculator.calculateEmission,
    Object.hasOwnProperty, Object.get.
  rewrite Hown. simpl negb. repeat split.
  - destruct (leb d zero); eauto.
  - intros ->. reflexivity.
  - intros ->. reflexivity.
  - intros Hp.
    destruct (existsb (String.eqb mode) Object.prototype_names) eqn:E.
    + apply existsb_exists in E. destruct E as (k & Hk & E).
      apply String.eqb_eq in E. subst k. contradiction.
    + reflexivity.
Qed.

Lemma C4_unknown_mode_witness :
  calculator.calculateEmission (of_Z 451) "plane"
  = Throw (calculator.unknown_mode "plane")
  /\ calculator.calculateEmission zero "plane"
     = Throw calculator.invalid_distance.
Proof.
  assert (H : ~ In "plane" (map Spec.key Spec.all_modes))
    by (simpl; intros [H|[H|[H|[H|[]]]]]; discriminate).
  split.
  - exact (proj1 (proj2 (C4_unknown_mode (of_Z 451) "plane" H)) eq_refl).
  - exact (proj1 (proj2 (proj2 (C4_unknown_mode zero "plane" H))) eq_refl).
Defined.

(** An inherited name is not rejected by the first implementation either:
    the product with a function is [NaN]. *)
Lemma inherited_name_gives_NaN :
  Calculator.calculateEmission (of_Z 451) "toString" = NaN.
Proof. reflexivity. Qed.

(** ** Strings: trimming and case folding *)

Section Strings.
Import JSString.

Lemma white_space_swap_case (c : ascii) :
  is_white_space (Spec.swap_case c) = is_white_space c.
Proof. destruct c as [[] [] [] [] [] [] [] []]; reflexivity. Qed.

Lemma lower_char_swap_case (c : ascii) :
  lower_char (Spec.swap_case c) = lower_char c.
Proof. destruct c as [[] [] [] [] [] [] [] []]; reflexivity. Qed.

Lemma trimEnd_blank (ws : string) : Spec.blank ws = true -> trimEnd ws = "".
Proof.
  induction ws as [|c ws IH]; simpl; [reflexivity|].
  intros H. apply andb_prop in H. destruct H as [Hc Hws].
  now rewrite (IH Hws), Hc.
Qed.

Lemma trimEnd_pad_right (s ws : string) :
  Spec.blank ws = true -> trimEnd (s ++ ws) = trimEnd s.
Proof.
  intros Hws. induction s as [|c s IH]; simpl.
  - now apply trimEnd_blank.
  - now rewrite IH.
Qed.

Lemma trimStart_pad_left (ws s : string) :
  Spec.blank ws = true -> trimStart (ws ++ s) = trimStart s.
Proof.
  induction ws as [|c ws IH]; simpl; [reflexivity|].
  intros H. apply andb_prop in H. destruct H as [Hc Hws].
  now rewrite Hc, IH.
Qed.

Lemma trimEnd_pad_left (ws s : string) :
  Spec.blank ws = true ->
  trimEnd (ws ++ s)
  = match trimEnd s with EmptyString => "" | t => ws ++ t end.
Proof.
  induction ws as [|c ws IH]; simpl.
  - intros _. now destruct (trimEnd s).
  - intros H. apply andb_prop in H. destruct H as [Hc Hws].
    rewrite (IH Hws). destruct (trimEnd s); [now rewrite Hc|].
    now destruct ws.
Qed.

Lemma trim_pad (before s after : string) :
  Spec.blank before = true -> Spec.blank after = true ->
  trim (before ++ s ++ after) = trim s.
Proof.
  intros Hb Ha. unfold trim.
  rewrite trimEnd_pad_left by assumption.
  rewrite trimEnd_pad_right by assumption.
  destruct (trimEnd s) as [|c t] eqn:E; [reflexivity|].
  now apply trimStart_pad_left.
Qed.

Lemma recased_trimStart (s s' : string) :
  Spec.recased s s' -> Spec.recased (trimStart s) (trimStart s').
Proof.
  induction 1 as [|c s s' H IH|c s s' H IH]; simpl.
  - constructor.
  - destruct (is_white_space c); [exact IH | now constructor].
  - rewrite white_space_swap_case.
    destruct (is_white_space c); [exact IH | now constructor].
Qed.

Lemma recased_trimEnd (s s' : string) :
  Spec.recased s s' -> Spec.recased (trimEnd s) (trimEnd s').
Proof.
  induction 1 as [|c s s' H IH|c s s' H IH]; simpl.
  - constructor.
  - inversion IH as [E1 E2|d t t' Ht E1 E2|d t t' Ht E1 E2].
    + destruct (is_white_space c); repeat constructor.
    + constructor. rewrite E1, E2. exact IH.
    + constructor. rewrite E1, E2. exact IH.
  - rewrite white_space_swap_case.
    inversion IH as [E1 E2|d t t' Ht E1 E2|d t t' Ht E1 E2].
    + destruct (is_white_space c); repeat constructor.
    + apply Spec.recased_swap. rewrite E1, E2. exact IH.
    + apply Spec.recased_swap. rewrite E1, E2. exact IH.
Qed.

Lemma recased_toLowerCase (s s' : string) :
  Spec.recased s s' -> toLowerCase s' = toLowerCase s.
Proof.
  induction 1 as [|c s s' H IH|c s s' H IH]; simpl.
  - reflexivity.
  - now rewrite IH.
  - now rewrite IH, lower_char_swap_case.
Qed.

(** Normalization does not see the alterations. *)
Lemma altered_normalized (s s' : string) :
  Spec.altered s s' ->
  toLowerCase (trim s') = toLowerCase (trim s).
Proof.
  intros (before & core & after & Hb & Ha & Hrec & ->).
  rewrite trim_pad by assumption.
  apply recased_toLowerCase. unfold trim.
  now apply recased_trimStart, recased_trimEnd.
Qed.

End Strings.

(** ** Route lookup *)

Section Lookup.
Import JSString.

Lemma find_first {A} (p : A -> bool) (l : list A) (x : A) :
  find p l = Some x ->
  exists before after,
    l = (before ++ x :: after)%list /\ p x = true
    /\ forall y, In y before -> p y = false.
Proof.
  induction l as [|y l IH]; simpl; [discriminate|].
  destruct (p y) eqn:Ey.
  - intros [= ->]. exists [], l. repeat split; [assumption | intros ? []].
  - intros H. destruct (IH H) as (before & after & -> & Hx & Hbefore).
    exists (y :: before), after. repeat split; [assumption|].
    intros z [<-|Hz]; [assumption | now apply Hbefore].
Qed.

Lemma find_pointwise {A} (p q : A -> bool) (l : list A) :
  (forall x, p x = q x) -> find p l = find q l.
Proof.
  intros H. induction l as [|x l IH]; simpl; [reflexivity|].
  now rewrite H, IH.
Qed.

Lemma matches_sym (a b : string) (r : Route) :
  Spec.matches a b r = Spec.matches b a r.
Proof. unfold Spec.matches. apply orb_comm. Qed.

(** The [for] loop of the second implementation is a [find]. *)
Lemma search_find (o d : string) (rs : list Route) :
  RoutesDB_var.search o d rs
  = option_map distanceKm (find (Spec.matches o d) rs).
Proof.
  induction rs as [|r rs IH]; simpl; [reflexivity|].
  unfold Spec.matches at 1.
  destruct (_ || _); [reflexivity | exact IH].
Qed.

Lemma const_findDistance_find (cityA cityB : string) :
  RoutesDB_const.findDistance cityA cityB
  = option_map distanceKm
      (find (Spec.matches (toLowerCase (trim cityA)) (toLowerCase (trim cityB)))
            RoutesDB_const.routes).
Proof.
  unfold RoutesDB_const.findDistance, Array_find.
  change (fun route : Route => _)
    with (Spec.matches (toLowerCase (trim cityA)) (toLowerCase (trim cityB))).
  now destruct (find _ _).
Qed.

(** Table facts, by inspection of every entry: distances are strictly
    positive and no city name is empty. *)
Lemma routes_const_well_formed (r : Route) :
  In r RoutesDB_const.routes -> Spec.well_formed r = true.
Proof.
  revert r. apply forallb_forall. vm_compute. reflexivity.
Qed.

Lemma routes_var_well_formed (r : Route) :
  In r RoutesDB_var.routes -> Spec.well_formed r = true.
Proof.
  revert r. apply forallb_forall. vm_compute. reflexivity.
Qed.

Lemma no_match_empty (a b : string) (r : Route) :
  Spec.well_formed r = true -> a = "" \/ b = "" -> Spec.matches a b r = false.
Proof.
  unfold Spec.well_formed, Spec.matches. intros H.
  apply andb_prop in H. destruct H as [H Hd].
  apply andb_prop in H. destruct H as [_ Ho].
  apply negb_true_iff in Ho, Hd.
  intros [->| ->]; rewrite ?Ho, ?Hd, ?andb_false_r; reflexivity.
Qed.

Lemma find_lookup_result (routes : list Route) (a b : string) :
  (forall r, In r routes -> Spec.well_formed r = true) ->
  Spec.lookup_result routes a b
    (option_map distanceKm (find (Spec.matches a b) routes)).
Proof.
  intros Hwf. destruct (find _ _) as [r|] eqn:E; simpl.
  - destruct (find_first _ _ _ E) as (before & after & Hl & Hr & Hb).
    exists r. split; [now exists before, after|]. split; [reflexivity|].
    assert (Hin : In r routes)
      by (rewrite Hl; apply in_or_app; right; now left).
    specialize (Hwf r Hin). unfold Spec.well_formed in Hwf.
    apply andb_prop in Hwf. destruct Hwf as [Hwf _].
    apply andb_prop in Hwf. now destruct Hwf.
  - intros r Hin. exact (find_none _ _ E r Hin).
Qed.

Lemma find_no_match_empty (routes : list Route) (a b : string) :
  (forall r, In r routes -> Spec.well_formed r = true) ->
  a = "" \/ b = "" -> find (Spec.matches a b) routes = None.
Proof.
  intros Hwf Hab. destruct (find _ _) as [r|] eqn:E; [|reflexivity].
  apply find_some in E. destruct E as [Hin Hm].
  rewrite (no_match_empty a b r (Hwf r Hin) Hab) in Hm. discriminate.
Qed.

(** The second implementation's guard on empty arguments changes nothing:
    an empty argument would match no route. *)
Lemma var_findDistance_find (origin destination : string) :
  RoutesDB_var.findDistance origin destination
  = option_map distanceKm
      (find (Spec.matches (toLowerCase (trim origin))
                          (toLowerCase (trim destination)))
            RoutesDB_var.routes).
Proof.
  unfold RoutesDB_var.findDistance.
  destruct (falsy origin || falsy destination) eqn:E.
  - rewrite find_no_match_empty; [reflexivity| |].
    + exact routes_var_well_formed.
    + apply orb_prop in E. destruct E as [E|E].
      * left. destruct origin; [reflexivity | discriminate].
      * right. destruct destination; [reflexivity | discriminate].
  - apply search_find.
Qed.

(** C7: a lookup returns the distance of the first matching route in table
    order, a strictly positive number, or [null] when none matches; it is a
    total function, so it never raises; an empty argument gives [null]. *)
Theorem C7_findDistance_result (cityA cityB : string) :
  let a := toLowerCase (trim cityA) in
  let b := toLowerCase (trim cityB) in
  Spec.lookup_result RoutesDB_const.routes a b
    (RoutesDB_const.findDistance cityA cityB)
  /\ Spec.lookup_result RoutesDB_var.routes a b
       (RoutesDB_var.findDistance cityA cityB)
  /\ (cityA = "" \/ cityB = "" ->
      RoutesDB_const.findDistance cityA cityB = None
      /\ RoutesDB_var.findDistance cityA cityB = None).
Proof.
  intros a b. rewrite const_findDistance_find, var_findDistance_find.
  fold a b. split; [|split].
  - apply find_lookup_result, routes_const_well_formed.
  - apply find_lookup_result, routes_var_well_formed.
  - intros H.
    assert (Hab : a = "" \/ b = "")
      by (destruct H as [->| ->]; [left | right]; reflexivity).
    rewrite !find_no_match_empty;
      auto using routes_const_well_formed, routes_var_well_formed.
Qed.

Lemma C7_findDistance_result_witness :
  RoutesDB_const.findDistance "" "Toronto, ON" = None
  /\ RoutesDB_var.findDistance "" "Toronto, ON" = None.
Proof.
  exact (proj2 (proj2 (C7_findDistance_result "" "Toronto, ON"))
               (or_introl eq_refl)).
Defined.

(** The lookups of the specification's examples. *)
Lemma findDistance_examples :
  RoutesDB_const.findDistance "Toronto, ON" "Ottawa, ON" = Some (of_Z 451)
  /\ RoutesDB_var.findDistance " toronto, on " "OTTAWA, ON" = Some (of_Z 451)
  /\ RoutesDB_const.findDistance "Nowhere" "Toronto, ON" = None
  /\ RoutesDB_var.findDistance "Nowhere" "Toronto, ON" = None.
Proof. vm_compute. repeat split. Qed.

End Lookup.


(** ** The lookups on 16-bit strings *)

Section Lookup16.
Import UTF16.

Lemma eqb_eq16 (s t : list code_unit) : eqb s t = true <-> s = t.
Proof.
  revert t. induction s as [|c s IH]; intros [|d t]; cbn [eqb];
    try (split; (discriminate || reflexivity)).
  rewrite andb_true_iff, N.eqb_eq, IH. split.
  - now intros [-> ->].
  - intros E. injection E as -> ->. now split.
Qed.

Lemma eqb_nil_r (s : list code_unit) : s <> [] -> eqb s [] = false.
Proof. destruct s; [congruence | reflexivity]. Qed.

Lemma trimEnd_blank16 (ws : list code_unit) :
  Spec16.blank ws = true -> trimEnd ws = [].
Proof.
  induction ws as [|c ws IH]; cbn [Spec16.blank forallb trimEnd];
    [reflexivity|].
  intros H. apply andb_prop in H. destruct H as [Hc Hws].
  fold (Spec16.blank ws) in Hws. now rewrite (IH Hws), Hc.
Qed.

Lemma trimEnd_pad_right16 (s ws : list code_unit) :
  Spec16.blank ws = true -> trimEnd (s ++ ws)%list = trimEnd s.
Proof.
  intros Hws. induction s as [|c s IH]; cbn [app trimEnd].
  - now apply trimEnd_blank16.
  - now rewrite IH.
Qed.

Lemma trimStart_pad_left16 (ws s : list code_unit) :
  Spec16.blank ws = true -> trimStart (ws ++ s)%list = trimStart s.
Proof.
  induction ws as [|c ws IH]; cbn [Spec16.blank forallb app trimStart];
    [reflexivity|].
  intros H. apply andb_prop in H. destruct H as [Hc Hws].
  fold (Spec16.blank ws) in Hws. now rewrite Hc, IH.
Qed.

Lemma trimEnd_pad_left16 (ws s : list code_unit) :
  Spec16.blank ws = true ->
  trimEnd (ws ++ s)%list
  = match trimEnd s with [] => [] | t => (ws ++ t)%list end.
Proof.
  induction ws as [|c ws IH]; cbn [Spec16.blank forallb app trimEnd].
  - intros _. now destruct (trimEnd s).
  - intros H. apply andb_prop in H. destruct H as [Hc Hws].
    fold (Spec16.blank ws) in Hws.
    rewrite (IH Hws). destruct (trimEnd s); [now rewrite Hc|].
    now destruct ws.
Qed.

Lemma trim_pad16 (before s after : list code_unit) :
  Spec16.blank before = true -> Spec16.blank after = true ->
  trim (before ++ s ++ after)%list = trim s.
Proof.
  intros Hb Ha. unfold trim.
  rewrite trimEnd_pad_left16 by assumption.
  rewrite trimEnd_pad_right16 by assumption.
  destruct (trimEnd s) as [|c t] eqn:E; [reflexivity|].
  now apply trimStart_pad_left16.
Qed.

(** *** Strings of characters below U+0100 *)

Lemma of_string_cons (c : ascii) (s : string) :
  of_string (String c s) = N_of_ascii c :: of_string s.
Proof. reflexivity. Qed.

Lemma white_space_of_ascii (c : ascii) :
  is_white_space (N_of_ascii c) = JSString.is_white_space c.
Proof. destruct c as [[] [] [] [] [] [] [] []]; reflexivity. Qed.

Lemma lower_of_ascii (c : ascii) :
  Unicode.lower_Latin1 (N_of_ascii c) = N_of_ascii (JSString.lower_char c).
Proof. destruct c as [[] [] [] [] [] [] [] []]; reflexivity. Qed.

Lemma trimStart_of_string (s : string) :
  trimStart (of_string s) = of_string (JSString.trimStart s).
Proof.
  induction s as [|c s IH]; [reflexivity|].
  rewrite of_string_cons. cbn [trimStart JSString.trimStart].
  rewrite white_space_of_ascii.
  destruct (JSString.is_white_space c); [exact IH | reflexivity].
Qed.

Lemma trimEnd_of_string (s : string) :
  trimEnd (of_string s) = of_string (JSString.trimEnd s).
Proof.
  induction s as [|c s IH]; [reflexivity|].
  rewrite of_string_cons. cbn [trimEnd JSString.trimEnd].
  rewrite IH, white_space_of_ascii.
  destruct (JSString.trimEnd s) as [|c' t]; cbn [of_string];
    [destruct (JSString.is_white_space c)|]; reflexivity.
Qed.

Lemma trim_of_string (s : string) :
  trim (of_string s) = of_string (JSString.trim s).
Proof.
  unfold trim, JSString.trim. now rewrite trimEnd_of_string, trimStart_of_string.
Qed.

Lemma lower_of_string (s : string) :
  map Unicode.lower_Latin1 (of_string s)
  = of_string (JSString.toLowerCase s).
Proof.
  induction s as [|c s IH]; [reflexivity|].
  cbn [JSString.toLowerCase]. rewrite !of_string_cons. cbn [map].
  now rewrite IH, lower_of_ascii.
Qed.

Lemma find_nowhere {A} (p : A -> bool) (l : list A) :
  (forall x, In x l -> p x = false) -> find p l = None.
Proof.
  induction l as [|x l IH]; intros H; [reflexivity|].
  cbn [find]. rewrite (H x (or_introl eq_refl)).
  apply IH. intros y Hy. apply H. now right.
Qed.

Lemma append_empty_r (s : string) : (s ++ "")%string = s.
Proof. induction s as [|c s IH]; [reflexivity|]. cbn. now rewrite IH. Qed.

Lemma of_string_nil (s : string) : of_string s = [] -> s = "".
Proof. destruct s; [reflexivity | discriminate]. Qed.

Section Host.
Variable toLowerCase : list code_unit -> list code_unit.
Hypothesis Latin1 : Spec16.maps_Latin1 toLowerCase.

Lemma host_lower_of_string (s : string) :
  toLowerCase (of_string s) = of_string (JSString.toLowerCase s).
Proof. now rewrite Latin1, lower_of_string. Qed.

Lemma host_lower_nil : toLowerCase [] = [].
Proof. exact (Latin1 ""). Qed.

(** Lookups depend on an argument through its trimmed, lower-cased form
    only, which an alteration does not change. *)
Lemma altered_normalized16 (s s' : list code_unit) :
  Spec16.altered s s' -> toLowerCase (trim s') = toLowerCase (trim s).
Proof.
  intros (before & core & after & Hb & Ha & -> & Hcore).
  rewrite trim_pad16 by assumption.
  destruct Hcore as [->|(u & u' & -> & -> & Hr)]; [reflexivity|].
  rewrite !trim_of_string, !host_lower_of_string. f_equal.
  apply altered_normalized. exists "", u', "".
  repeat split; [exact Hr|]. cbn. now rewrite append_empty_r.
Qed.

Lemma matches_sym16 (a b : list code_unit) (r : Route) :
  Spec16.matches toLowerCase a b r = Spec16.matches toLowerCase b a r.
Proof. unfold Spec16.matches. cbv zeta. apply orb_comm. Qed.

Lemma no_match_empty16 (a b : list code_unit) (r : Route) :
  Spec.well_formed r = true -> a = [] \/ b = [] ->
  Spec16.matches toLowerCase a b r = false.
Proof.
  intros Hwf Hab. unfold Spec.well_formed in Hwf.
  apply andb_prop in Hwf. destruct Hwf as [Hwf Hd].
  apply andb_prop in Hwf. destruct Hwf as [_ Ho].
  apply negb_true_iff, String.eqb_neq in Ho, Hd.
  assert (Ho' : toLowerCase (of_string (origin r)) <> []).
  { rewrite host_lower_of_string. intros E. now apply of_string_nil in E. }
  assert (Hd' : toLowerCase (of_string (destination r)) <> []).
  { rewrite host_lower_of_string. intros E. now apply of_string_nil in E. }
  unfold Spec16.matches. cbv zeta.
  destruct Hab as [-> | ->];
    rewrite (eqb_nil_r _ Ho'), (eqb_nil_r _ Hd');
    now rewrite ?andb_false_r.
Qed.

Lemma const_findDistance_find16 (cityA cityB : list code_unit) :
  RoutesDB16.const_findDistance toLowerCase cityA cityB
  = option_map distanceKm
      (find (Spec16.matches toLowerCase (toLowerCase (trim cityA))
                                        (toLowerCase (trim cityB)))
            RoutesDB_const.routes).
Proof.
  unfold RoutesDB16.const_findDistance, Array_find. cbv zeta.
  fold (Spec16.matches toLowerCase (toLowerCase (trim cityA))
                                   (toLowerCase (trim cityB))).
  now destruct (find _ _).
Qed.

Lemma var_search_find16 (o d : list code_unit) (rs : list Route) :
  RoutesDB16.var_search toLowerCase o d rs
  = option_map distanceKm (find (Spec16.matches toLowerCase o d) rs).
Proof.
  induction rs as [|r rs IH]; [reflexivity|].
  cbn [RoutesDB16.var_search find]. unfold Spec16.matches at 1. cbv zeta.
  destruct (_ || _); [reflexivity | exact IH].
Qed.

Lemma var_findDistance_find16 (origin destination : list code_unit) :
  RoutesDB16.var_findDistance toLowerCase origin destination
  = option_map distanceKm
      (find (Spec16.matches toLowerCase (toLowerCase (trim origin))
                                        (toLowerCase (trim destination)))
            RoutesDB_var.routes).
Proof.
  unfold RoutesDB16.var_findDistance.
  destruct (falsy origin || falsy destination) eqn:E.
  - assert (H : toLowerCase (trim origin) = []
                \/ toLowerCase (trim destination) = []).
    { apply orb_prop in E. destruct E as [E|E]; [left | right].
      - destruct origin; [exact host_lower_nil | discriminate].
      - destruct destination; [exact host_lower_nil | discriminate]. }
    assert (N : find (Spec16.matches toLowerCase (toLowerCase (trim origin))
                        (toLowerCase (trim destination)))
                     RoutesDB_var.routes = None).
    { apply find_nowhere. intros r Hr.
      apply no_match_empty16; [|exact H].
      now apply routes_var_well_formed. }
    now rewrite N.
  - apply var_search_find16.
Qed.

End Host.

Lemma ascii_eqb_of_ascii (c d : ascii) :
  (N_of_ascii c =? N_of_ascii d)%N = Ascii.eqb c d.
Proof.
  destruct (Ascii.eqb_spec c d) as [->|Hne].
  - apply N.eqb_refl.
  - apply N.eqb_neq. intros E. apply Hne.
    rewrite <- (ascii_N_embedding c), <- (ascii_N_embedding d). now f_equal.
Qed.

Lemma eqb_of_string (s t : string) :
  eqb (of_string s) (of_string t) = String.eqb s t.
Proof.
  revert t. induction s as [|c s IH]; intros [|d t]; try reflexivity.
  rewrite !of_string_cons. cbn [eqb String.eqb].
  rewrite ascii_eqb_of_ascii, IH. now destruct (Ascii.eqb c d).
Qed.

(** On strings of characters below U+0100 the lookups on 16-bit strings
    are the lookups [RoutesDB_const.findDistance] and
    [RoutesDB_var.findDistance], whatever else the host's [toLowerCase]
    does. *)
Lemma lookups_agree_below_U0100
  (toLowerCase : list code_unit -> list code_unit) (u v : string) :
  Spec16.maps_Latin1 toLowerCase ->
  RoutesDB16.const_findDistance toLowerCase (of_string u) (of_string v)
  = RoutesDB_const.findDistance u v
  /\ RoutesDB16.var_findDistance toLowerCase (of_string u) (of_string v)
     = RoutesDB_var.findDistance u v.
Proof.
  intros H.
  rewrite const_findDistance_find16, (var_findDistance_find16 _ H).
  rewrite const_findDistance_find, var_findDistance_find.
  rewrite !trim_of_string, !(host_lower_of_string _ H).
  split; f_equal; apply find_pointwise; intros r;
    unfold Spec16.matches, Spec.matches; cbv zeta;
    now rewrite !(host_lower_of_string _ H), !eqb_of_string.
Qed.

Lemma Unicode_maps_Latin1 : Spec16.maps_Latin1 Unicode.toLowerCase.
Proof.
  intros s. induction s as [|c s IH]; [reflexivity|].
  rewrite of_string_cons. cbn [map]. rewrite <- IH.
  unfold Unicode.toLowerCase at 1. cbn [flat_map].
  unfold Unicode.toLowerCase_unit at 1.
  pose proof (N_ascii_bounded c) as B.
  apply N.ltb_lt in B. now rewrite B.
Qed.

(** C6, refuted as stated: a change of letter case that [toLowerCase]
    does not undo changes the result.  The upper case of "winnipeg, mb"
    written with a dotless i is "WINNIPEG, MB"; the first is not found,
    the second is. *)
Lemma C6_case_change_alters_result :
  Unicode.toUpperCase Spec16.dotless_winnipeg = of_string "WINNIPEG, MB"
  /\ RoutesDB16.const_findDistance Unicode.toLowerCase
       Spec16.dotless_winnipeg (of_string "Toronto, ON") = None
  /\ RoutesDB16.const_findDistance Unicode.toLowerCase
       (of_string "WINNIPEG, MB") (of_string "Toronto, ON")
     = Some (of_Z 2040)
  /\ RoutesDB16.var_findDistance Unicode.toLowerCase
       Spec16.dotless_winnipeg (of_string "Toronto, ON") = None
  /\ RoutesDB16.var_findDistance Unicode.toLowerCase
       (of_string "WINNIPEG, MB") (of_string "Toronto, ON")
     = Some (of_Z 2225).
Proof. vm_compute. repeat split. Qed.

(** C6, amended: for every pair of strings of 16-bit code units, and
    whatever the host's [toLowerCase] does to characters from U+0100 on,
    a lookup is symmetric in its two arguments and unchanged when an
    argument is altered by leading or trailing white space or, for an
    argument of characters below U+0100, by the case of its letters. *)
Theorem C6_findDistance_symmetric_trimmed
  (toLowerCase : list code_unit -> list code_unit)
  (a b a' b' : list code_unit) :
  Spec16.maps_Latin1 toLowerCase ->
  Spec16.altered a a' -> Spec16.altered b b' ->
  RoutesDB16.const_findDistance toLowerCase a b
  = RoutesDB16.const_findDistance toLowerCase b a
  /\ RoutesDB16.const_findDistance toLowerCase a' b'
     = RoutesDB16.const_findDistance toLowerCase a b
  /\ RoutesDB16.var_findDistance toLowerCase a b
     = RoutesDB16.var_findDistance toLowerCase b a
  /\ RoutesDB16.var_findDistance toLowerCase a' b'
     = RoutesDB16.var_findDistance toLowerCase a b.
Proof.
  intros H Ha Hb.
  rewrite !const_findDistance_find16, !(var_findDistance_find16 _ H).
  rewrite (altered_normalized16 _ H a a' Ha),
    (altered_normalized16 _ H b b' Hb).
  assert (S : forall routes x y,
            find (Spec16.matches toLowerCase x y) routes
            = find (Spec16.matches toLowerCase y x) routes).
  { intros routes x y. apply find_pointwise. intros r. apply matches_sym16. }
  split; [|split; [|split]].
  - now rewrite S.
  - reflexivity.
  - now rewrite S.
  - reflexivity.
Qed.

Lemma C6_findDistance_symmetric_trimmed_witness :
  RoutesDB16.var_findDistance Unicode.toLowerCase
    ([0x3000%N] ++ of_string "toronto, on" ++ [0xFEFF%N])%list
    (of_string "OTTAWA, ON")
  = RoutesDB16.var_findDistance Unicode.toLowerCase
      (of_string "Toronto, ON") (of_string "Ottawa, ON").
Proof.
  refine (proj2 (proj2 (proj2
    (C6_findDistance_symmetric_trimmed Unicode.toLowerCase
       (of_string "Toronto, ON") (of_string "Ottawa, ON")
       ([0x3000%N] ++ of_string "toronto, on" ++ [0xFEFF%N])%list
       (of_string "OTTAWA, ON") Unicode_maps_Latin1 _ _)))).
  - exists [0x3000%N], (of_string "toronto, on"), [0xFEFF%N].
    repeat split. right. exists "Toronto, ON", "toronto, on".
    repeat split.
    change "Toronto, ON" with (String "T" "oronto, ON").
    change "toronto, on" with (String (Spec.swap_case "T") "oronto, on").
    constructor.
    repeat first
      [ apply Spec.recased_nil
      | apply Spec.recased_same
      | apply (Spec.recased_swap "O")%char
      | apply (Spec.recased_swap "N")%char ].
  - exists [], (of_string "OTTAWA, ON"), [].
    repeat split. right. exists "Ottawa, ON", "OTTAWA, ON".
    repeat split.
    repeat first
      [ apply Spec.recased_nil
      | apply Spec.recased_same
      | apply (Spec.recased_swap "t")%char
      | apply (Spec.recased_swap "a")%char
      | apply (Spec.recased_swap "w")%char ].
Defined.

End Lookup16.

(** ** Binary64 arithmetic: what the rounding steps guarantee *)

Import B64.
Local Open Scope Z_scope.

Lemma fexp_eq (k : Z) : fexp k = Z.max (k - 53) (-1074).
Proof. reflexivity. Qed.

Lemma fexp_monotone (j k : Z) : j <= k -> fexp j <= fexp k.
Proof. rewrite !fexp_eq. lia. Qed.

Lemma digits_succ (d : positive) (z : Z) :
  2 ^ (Zpos d - 1) <= z < 2 ^ Zpos d ->
  2 * 2 ^ (Zpos d - 1) = 2 ^ (Zpos (Pos.succ d) - 1)
  /\ 2 * 2 ^ Zpos d = 2 ^ Zpos (Pos.succ d).
Proof.
  intros _. rewrite Pos2Z.inj_succ.
  replace (Z.succ (Zpos d) - 1) with (Z.succ (Zpos d - 1)) by lia.
  rewrite !Z.pow_succ_r by lia. split; reflexivity.
Qed.

Lemma digits_bounds (m : positive) :
  2 ^ (digits m - 1) <= Zpos m < 2 ^ digits m.
Proof.
  unfold digits.
  induction m as [m IH|m IH|]; cbn [digits2_pos].
  - destruct (digits_succ _ _ IH) as [<- <-]. lia.
  - destruct (digits_succ _ _ IH) as [<- <-]. lia.
  - simpl. lia.
Qed.

Lemma digits_unique (m : positive) (k : Z) :
  2 ^ (k - 1) <= Zpos m < 2 ^ k -> digits m = k.
Proof.
  intros [Hlo Hhi]. pose proof (digits_bounds m) as [Dlo Dhi].
  assert (0 < k).
  { destruct (Z.ltb_spec 0 k); [assumption|].
    destruct (Z.eq_dec k 0) as [->|Hk]; [simpl in Hhi; lia|].
    rewrite Z.pow_neg_r in Hhi by lia. lia. }
  destruct (Z.lt_trichotomy (digits m) k) as [Hlt|[Heq|Hgt]];
    [exfalso|assumption|exfalso].
  - assert (2 ^ digits m <= 2 ^ (k - 1)) by (apply Z.pow_le_mono_r; lia). lia.
  - assert (2 ^ k <= 2 ^ (digits m - 1)) by (apply Z.pow_le_mono_r; lia). lia.
Qed.

Lemma Zdigits2_nonneg (m : Z) : 0 <= Zdigits2 m.
Proof. destruct m; simpl; lia. Qed.

(** Iterating a step composes whatever the step guarantees. *)
Lemma iter_pos_rel {A} (f : A -> A) (R : Z -> A -> A -> Prop) :
  (forall x, R 1 x (f x)) ->
  (forall a b x y z, 0 < a -> 0 < b -> R a x y -> R b y z -> R (a + b) x z) ->
  forall p x, R (Zpos p) x (iter_pos f p x).
Proof.
  intros Hstep Hcomp.
  induction p as [p IH|p IH|]; intros x; cbn [iter_pos].
  - replace (Zpos p~1) with (1 + (Zpos p + Zpos p)) by lia.
    apply Hcomp with (y := f x); [lia|lia|apply Hstep|].
    apply Hcomp with (y := iter_pos f p (f x)); [lia|lia|apply IH|apply IH].
  - replace (Zpos p~0) with (Zpos p + Zpos p) by lia.
    apply Hcomp with (y := iter_pos f p x); [lia|lia|apply IH|apply IH].
  - apply Hstep.
Qed.

Lemma shr_1_shifted (x : shr_record) : shifted 1 x (shr_1 x).
Proof.
  destruct x as [m r s]. intros Hm. cbn [shr_m] in Hm.
  change (2 ^ 1) with 2.
  destruct m as [|[p|p|]|p]; try lia; cbn [shr_1 shr_m shr_r shr_s].
  - split; [reflexivity|]. now intros -> ->.
  - split.
    + rewrite Pos2Z.inj_xI. apply Z.div_unique with 1; lia.
    + intros _ _ H. rewrite Pos2Z.inj_xI in H.
      rewrite Z.add_comm, Z.mul_comm, Z.mod_add in H by lia. discriminate.
  - split.
    + rewrite Pos2Z.inj_xO. apply Z.div_unique with 0; lia.
    + now intros -> ->.
  - split; [reflexivity|]. intros _ _ H. discriminate.
Qed.

Lemma shifted_comp (a b : Z) (x y z : shr_record) :
  0 < a -> 0 < b -> shifted a x y -> shifted b y z -> shifted (a + b) x z.
Proof.
  intros Ha Hb Hxy Hyz Hx.
  destruct (Hxy Hx) as [Ey Hexact_y].
  assert (Hy : 0 <= shr_m y)
    by (rewrite Ey; apply Z.div_pos; [assumption | apply Z.pow_pos_nonneg; lia]).
  destruct (Hyz Hy) as [Ez Hexact_z].
  assert (Pa : 0 < 2 ^ a) by (apply Z.pow_pos_nonneg; lia).
  assert (Pb : 0 < 2 ^ b) by (apply Z.pow_pos_nonneg; lia).
  rewrite Z.pow_add_r by lia. split.
  - rewrite Ez, Ey. apply Z.div_div; lia.
  - intros Hr Hs Hmod.
    apply Z.mod_divide in Hmod; [|lia]. destruct Hmod as [q Hq].
    assert (Hmod_a : shr_m x mod 2 ^ a = 0).
    { rewrite Hq. replace (q * (2 ^ a * 2 ^ b)) with (q * 2 ^ b * 2 ^ a) by ring.
      apply Z.mod_mul. lia. }
    destruct (Hexact_y Hr Hs Hmod_a) as [Hry Hsy].
    apply Hexact_z; [assumption|assumption|].
    rewrite Ey, Hq.
    replace (q * (2 ^ a * 2 ^ b)) with (q * 2 ^ b * 2 ^ a) by ring.
    rewrite Z.div_mul by lia. apply Z.mod_mul. lia.
Qed.

Lemma iter_shr_1_shifted (p : positive) (x : shr_record) :
  shifted (Zpos p) x (iter_pos shr_1 p x).
Proof.
  apply (iter_pos_rel shr_1 shifted); [exact shr_1_shifted|].
  intros a b x0 y z. apply shifted_comp.
Qed.


Lemma Zdigits2_monotone (a b : Z) : 0 <= a <= b -> Zdigits2 a <= Zdigits2 b.
Proof.
  intros [Ha Hab]. destruct a as [|p|p]; [apply Zdigits2_nonneg| |lia].
  destruct b as [|q|q]; try lia. cbn [Zdigits2]. fold (digits p) (digits q).
  pose proof (digits_bounds p) as [Plo _].
  pose proof (digits_bounds q) as [_ Qhi].
  destruct (Z.le_gt_cases (digits p) (digits q)) as [|Hgt]; [assumption|].
  assert (2 ^ digits q <= 2 ^ (digits p - 1))
    by (apply Z.pow_le_mono_r; unfold digits in *; lia).
  lia.
Qed.

(** Dividing by [2^n] removes [n] digits. *)
Lemma div_pow2_digits (p : positive) (n : Z) :
  0 <= n ->
  (n < digits p ->
   0 < Zpos p / 2 ^ n /\ Zdigits2 (Zpos p / 2 ^ n) = digits p - n)
  /\ (digits p <= n -> Zpos p / 2 ^ n = 0).
Proof.
  intros Hn. pose proof (digits_bounds p) as [Plo Phi].
  assert (P2 : 0 < 2 ^ n) by (apply Z.pow_pos_nonneg; lia).
  split.
  - intros Hlt.
    assert (Hq : 2 ^ (digits p - n - 1) <= Zpos p / 2 ^ n < 2 ^ (digits p - n)).
    { split.
      - apply Z.div_le_lower_bound; [assumption|].
        rewrite <- Z.pow_add_r by lia.
        now replace (n + (digits p - n - 1)) with (digits p - 1) by lia.
      - apply Z.div_lt_upper_bound; [assumption|].
        rewrite <- Z.pow_add_r by lia.
        now replace (n + (digits p - n)) with (digits p) by lia. }
    assert (0 < 2 ^ (digits p - n - 1)) by (apply Z.pow_pos_nonneg; lia).
    destruct (Zpos p / 2 ^ n) as [|q|q] eqn:E; try lia.
    split; [lia|]. now apply digits_unique.
  - intros Hle. apply Z.div_small. split; [lia|].
    assert (2 ^ digits p <= 2 ^ n) by (apply Z.pow_le_mono_r; unfold digits in *; lia).
    lia.
Qed.

Lemma shr_record_of_loc_m (m : Z) (l : location) :
  shr_m (shr_record_of_loc m l) = m.
Proof. destruct l as [|[]]; reflexivity. Qed.

(** One rounding stage: the mantissa is brought to the exponent its number
    of digits calls for. *)
Lemma shr_fexp_stage (m e : Z) (l : location) :
  0 <= m -> e <= fexp (Zdigits2 m + e) ->
  let '(mrs, e') := shr_fexp prec emax m e l in
  e' = fexp (Zdigits2 m + e)
  /\ 0 <= shr_m mrs
  /\ shr_m mrs = m / 2 ^ (e' - e)
  /\ (0 < shr_m mrs -> Zdigits2 (shr_m mrs) + e' = Zdigits2 m + e)
  /\ (shr_m mrs = 0 -> e' = -1074)
  /\ (0 < m -> -1073 <= Zdigits2 m + e -> 0 < shr_m mrs).
Proof.
  intros Hm Hpre. unfold shr_fexp, shr. fold (fexp (Zdigits2 m + e)).
  pose proof (fexp_eq (Zdigits2 m + e)) as He1.
  remember (fexp (Zdigits2 m + e)) as e1 eqn:Ee1. clear Ee1.
  pose proof (Zdigits2_nonneg m) as Hd.
  destruct (e1 - e) as [|n|n] eqn:En; [| |lia].
  - (* no shift *)
    rewrite shr_record_of_loc_m.
    replace (e - e) with 0 by lia. rewrite Z.pow_0_r, Z.div_1_r.
    repeat split; try lia.
    intros ->. cbn [Zdigits2] in *. lia.
  - (* shift by [n] *)
    pose proof (iter_shr_1_shifted n (shr_record_of_loc m l)) as Hs.
    unfold shifted in Hs. rewrite shr_record_of_loc_m in Hs.
    destruct (Hs Hm) as [Eq _].
    rewrite Eq.
    replace (e + Zpos n - e) with (Zpos n) by lia.
    destruct m as [|p|p]; [| |lia].
    + rewrite Z.div_0_l by (apply Z.pow_nonzero; lia).
      cbn [Zdigits2] in *. repeat split; try lia.
    + cbn [Zdigits2] in *. fold (digits p) in *.
      destruct (div_pow2_digits p (Zpos n)) as [Hlt Hle]; [lia|].
      destruct (Z.lt_ge_cases (Zpos n) (digits p)) as [C|C].
      * destruct (Hlt C) as [Hpos Hdig]. rewrite Hdig.
        repeat split; try lia.
      * rewrite (Hle C). repeat split; try lia.
Qed.

Lemma round_nearest_even_bounds (m : Z) (l : location) :
  m <= round_nearest_even m l <= m + 1.
Proof.
  destruct l as [|[]]; cbn [round_nearest_even]; try lia.
  destruct (Z.even m); lia.
Qed.

(** Rounding a non-negative magnitude whose exponent is not above the one
    its digits call for gives a valid number of the requested sign, which
    is not zero unless the magnitude is below the smallest subnormal. *)
Lemma binary_round_aux_rounded (s : bool) (m e : Z) (l : location) :
  0 <= m -> e <= fexp (Zdigits2 m + e) ->
  rounded s (binary_round_aux prec emax s m e l)
  /\ (0 < m -> -1073 <= Zdigits2 m + e ->
      forall s', binary_round_aux prec emax s m e l <> S754_zero s').
Proof.
  intros Hm Hpre. unfold binary_round_aux.
  pose proof (shr_fexp_stage m e l Hm Hpre) as H1.
  destruct (shr_fexp prec emax m e l) as [mrs1 e1].
  destruct H1 as (He1 & Hm1 & _ & Hd1 & Hz1 & Hnz1).
  set (m2 := round_nearest_even (shr_m mrs1) (loc_of_shr_record mrs1)).
  pose proof (round_nearest_even_bounds (shr_m mrs1) (loc_of_shr_record mrs1))
    as Hm2. fold m2 in Hm2.
  assert (Hpre2 : e1 <= fexp (Zdigits2 m2 + e1)).
  { destruct (Z.eq_dec (shr_m mrs1) 0) as [Z|NZ].
    - rewrite (Hz1 Z), fexp_eq. lia.
    - rewrite He1 at 1. rewrite <- Hd1 by lia.
      apply fexp_monotone.
      pose proof (Zdigits2_monotone (shr_m mrs1) m2). lia. }
  pose proof (shr_fexp_stage m2 e1 loc_Exact ltac:(lia) Hpre2) as H2.
  destruct (shr_fexp prec emax m2 e1 loc_Exact) as [mrs2 e2].
  destruct H2 as (He2 & Hm3 & _ & Hd3 & _ & Hnz3).
  destruct (shr_m mrs2) as [|p3|p3] eqn:E3; [| |lia].
  - split.
    + split; [reflexivity | now left].
    + intros Hpos Hbig. exfalso.
      specialize (Hnz1 Hpos Hbig).
      assert (0 < m2) by lia.
      assert (Zdigits2 (shr_m mrs1) <= Zdigits2 m2)
        by (apply Zdigits2_monotone; lia).
      specialize (Hd1 Hnz1). specialize (Hnz3 ltac:(lia) ltac:(lia)). lia.
  - split; [|now destruct (e2 <=? emax - prec)].
    destruct (e2 <=? emax - prec) eqn:Eb.
    + split; [|right; right; now exists p3, e2].
      unfold valid, valid_binary, bounded, canonical_mantissa.
      rewrite Eb, andb_true_r. apply Z.eqb_eq.
      specialize (Hd3 ltac:(lia)). cbn [Zdigits2] in Hd3.
      fold (fexp (Zpos (digits2_pos p3) + e2)). rewrite Hd3. now symmetry.
    + split; [reflexivity | now right; left].
Qed.


(** *** Aligning, normalizing, multiplying, dividing *)

Lemma iter_xO (m d : positive) : Zpos (Pos.iter xO m d) = Zpos m * 2 ^ Zpos d.
Proof.
  rewrite <- Z.shiftl_mul_pow2 by lia. cbn [Z.shiftl].
  apply (Pos.iter_swap_gen _ _ Zpos xO (Z.mul 2)). reflexivity.
Qed.

Lemma digits_mul_pow2 (m p : positive) (j : Z) :
  0 <= j -> Zpos p = Zpos m * 2 ^ j -> digits p = digits m + j.
Proof.
  intros Hj E. apply digits_unique. rewrite E.
  pose proof (digits_bounds m) as [Lo Hi].
  assert (0 < 2 ^ j) by (apply Z.pow_pos_nonneg; lia).
  replace (digits m + j - 1) with (digits m - 1 + j) by lia.
  rewrite !Z.pow_add_r by (unfold digits; lia). nia.
Qed.

Lemma shl_align_spec (mx : positive) (ex ex' : Z) :
  let '(mz, ez) := shl_align mx ex ex' in
  ez = Z.min ex ex' /\ Zpos mz = Zpos mx * 2 ^ (ex - ez).
Proof.
  unfold shl_align. destruct (ex' - ex) as [|d|d] eqn:E.
  - split; [lia|]. rewrite Z.sub_diag. simpl. lia.
  - split; [lia|]. rewrite Z.sub_diag. simpl. lia.
  - split; [lia|]. rewrite iter_xO. f_equal. f_equal. lia.
Qed.

(** Rounding a positive integer mantissa at any exponent. *)
Lemma binary_round_rounded (s : bool) (m : positive) (e : Z) :
  rounded s (binary_round prec emax s m e)
  /\ (-1073 <= digits m + e ->
      forall s', binary_round prec emax s m e <> S754_zero s').
Proof.
  unfold binary_round. fold (digits m) (fexp (digits m + e)).
  pose proof (shl_align_spec m e (fexp (digits m + e))) as H.
  destruct (shl_align m e (fexp (digits m + e))) as [mz ez].
  destruct H as [Hez Hmz].
  assert (Hd : digits mz + ez = digits m + e).
  { rewrite (digits_mul_pow2 m mz (e - ez)); lia. }
  destruct (binary_round_aux_rounded s (Zpos mz) ez loc_Exact) as [R NZ];
    [lia| |].
  - cbn [Zdigits2]. fold (digits mz). rewrite Hd. lia.
  - split; [exact R|]. intros Hbig. apply NZ; [lia|].
    cbn [Zdigits2]. fold (digits mz). lia.
Qed.

Lemma of_Z_rounded (z : Z) : rounded (z <? 0) (of_Z z).
Proof.
  destruct z as [|p|p]; cbn [of_Z binary_normalize Z.ltb Z.compare].
  - split; [reflexivity | now left].
  - apply binary_round_rounded.
  - apply binary_round_rounded.
Qed.

Lemma rounded_valid (s : bool) (x : number) : rounded s x -> valid x = true.
Proof. now intros [H _]. Qed.

Lemma rounded_not_nan (s : bool) (x : number) : rounded s x -> is_nan x = false.
Proof. intros [_ [->|[->|(m & e & ->)]]]; reflexivity. Qed.

Lemma rounded_proper (s : bool) (x : number) : rounded s x -> proper x.
Proof. intros H. split; eauto using rounded_valid, rounded_not_nan. Qed.

(** What validity says of a finite number. *)
Lemma valid_finite (s : bool) (m : positive) (e : Z) :
  valid (S754_finite s m e) = true ->
  fexp (digits m + e) = e /\ -1074 <= e <= 971 /\ digits m <= 53
  /\ (digits m = 53 \/ e = -1074).
Proof.
  unfold valid, valid_binary, bounded, canonical_mantissa.
  fold (digits m) (fexp (digits m + e)). intros H.
  apply andb_prop in H. destruct H as [Hc Hb].
  apply Z.eqb_eq in Hc. apply Z.leb_le in Hb.
  change (emax - prec) with 971 in Hb.
  pose proof (fexp_eq (digits m + e)). lia.
Qed.

Lemma digits_ge_1 (m : positive) : 1 <= digits m.
Proof. unfold digits. lia. Qed.

Lemma digits_mul (mx my : positive) :
  digits mx + digits my - 1 <= digits (mx * my).
Proof.
  pose proof (digits_bounds mx) as [Xlo _].
  pose proof (digits_bounds my) as [Ylo _].
  pose proof (digits_bounds (mx * my)) as [_ Hi].
  pose proof (digits_ge_1 mx). pose proof (digits_ge_1 my).
  rewrite Pos2Z.inj_mul in Hi.
  assert (2 ^ (digits mx - 1 + (digits my - 1)) < 2 ^ digits (mx * my)).
  { rewrite Z.pow_add_r by lia.
    assert (0 < 2 ^ (digits mx - 1)) by (apply Z.pow_pos_nonneg; lia).
    assert (0 < 2 ^ (digits my - 1)) by (apply Z.pow_pos_nonneg; lia).
    nia. }
  apply Z.pow_lt_mono_r_iff in H1; unfold digits in *; lia.
Qed.

(** The product of two finite binary64 values. *)
Lemma mul_finite_rounded (sx sy : bool) (mx my : positive) (ex ey : Z) :
  valid (S754_finite sx mx ex) = true ->
  valid (S754_finite sy my ey) = true ->
  rounded (xorb sx sy) (mul (S754_finite sx mx ex) (S754_finite sy my ey)).
Proof.
  intros Hx Hy. apply valid_finite in Hx, Hy.
  unfold mul. cbn [SFmul].
  apply binary_round_aux_rounded; [lia|].
  cbn [Zdigits2]. fold (digits (mx * my)).
  pose proof (digits_mul mx my).
  pose proof (digits_ge_1 mx). pose proof (digits_ge_1 my).
  rewrite fexp_eq. lia.
Qed.

Lemma mul_valid (x y : number) :
  valid x = true -> valid y = true -> valid (mul x y) = true.
Proof.
  destruct x as [sx|sx| |sx mx ex], y as [sy|sy| |sy my ey];
    try reflexivity.
  intros Hx Hy. exact (rounded_valid _ _ (mul_finite_rounded _ _ _ _ _ _ Hx Hy)).
Qed.

Lemma div_eucl_div_mod (a b : Z) : Z.div_eucl a b = (a / b, a mod b).
Proof. unfold Z.div, Z.modulo. now destruct (Z.div_eucl a b). Qed.

Lemma Zdigits2_lower (q t : Z) : 0 <= t -> 2 ^ t <= q -> t + 1 <= Zdigits2 q.
Proof.
  intros Ht Hq. assert (0 < 2 ^ t) by (apply Z.pow_pos_nonneg; lia).
  destruct q as [|p|p]; try lia. cbn [Zdigits2]. fold (digits p).
  pose proof (digits_bounds p) as [_ Hi].
  assert (Hlt : 2 ^ t < 2 ^ digits p) by lia.
  apply Z.pow_lt_mono_r_iff in Hlt; unfold digits in *; lia.
Qed.

(** The quotient of two finite numbers, whatever their representation. *)
Lemma div_finite_rounded (sx sy : bool) (mx my : positive) (ex ey : Z) :
  rounded (xorb sx sy) (div (S754_finite sx mx ex) (S754_finite sy my ey)).
Proof.
  unfold div. cbn [SFdiv]. unfold SFdiv_core_binary.
  cbn [Zdigits2]. fold (digits mx) (digits my).
  fold (fexp (digits mx + ex - (digits my + ey))).
  set (e' := Z.min (fexp (digits mx + ex - (digits my + ey))) (ex - ey)).
  set (s := ex - ey - e').
  assert (Hs : 0 <= s) by (unfold s, e'; lia).
  set (m' := match s with
             | 0 => Zpos mx
             | Zpos _ => Z.shiftl (Zpos mx) s
             | Zneg _ => 0
             end).
  assert (Hm' : m' = Zpos mx * 2 ^ s).
  { unfold m'. destruct s as [|p|p] eqn:Es; [simpl; lia| |lia].
    now rewrite Z.shiftl_mul_pow2. }
  rewrite div_eucl_div_mod.
  pose proof (digits_bounds mx) as [Xlo Xhi].
  pose proof (digits_bounds my) as [Ylo Yhi].
  pose proof (digits_ge_1 mx). pose proof (digits_ge_1 my).
  assert (P : 0 < 2 ^ s) by (apply Z.pow_pos_nonneg; lia).
  assert (Hq : 0 <= m' / Zpos my) by (apply Z.div_pos; nia).
  apply binary_round_aux_rounded; [exact Hq|].
  assert (Hdig : digits mx + s - digits my <= Zdigits2 (m' / Zpos my)).
  { destruct (Z.le_gt_cases (digits mx + s - digits my) 0) as [C|C].
    - pose proof (Zdigits2_nonneg (m' / Zpos my)). lia.
    - replace (digits mx + s - digits my)
        with ((digits mx + s - digits my - 1) + 1) by lia.
      apply Zdigits2_lower; [lia|].
      apply Z.div_le_lower_bound; [lia|].
      assert (E : 2 ^ (digits mx - 1) * 2 ^ s
                  = 2 ^ digits my * 2 ^ (digits mx + s - digits my - 1)).
      { rewrite <- !Z.pow_add_r by lia. f_equal. lia. }
      assert (0 < 2 ^ (digits mx + s - digits my - 1))
        by (apply Z.pow_pos_nonneg; lia).
      nia. }
  apply Z.le_trans with (fexp (digits mx + ex - (digits my + ey)));
    [unfold e'; lia|].
  apply fexp_monotone. unfold s in Hdig. lia.
Qed.

Lemma div_valid (x y : number) : valid (div x y) = true.
Proof.
  destruct x as [sx|sx| |sx mx ex], y as [sy|sy| |sy my ey];
    try reflexivity.
  exact (rounded_valid _ _ (div_finite_rounded _ _ _ _ _ _)).
Qed.


(** *** Order: comparisons are comparisons of the scaled integers *)

Lemma scaled_finite_bounds (s : bool) (m : positive) (e : Z) :
  valid (S754_finite s m e) = true ->
  0 < Zpos m * 2 ^ (e + 1074) < 2 ^ 2098.
Proof.
  intros H. apply valid_finite in H. destruct H as (_ & He & Hd & _).
  pose proof (digits_bounds m) as [_ Hi].
  assert (P : 0 < 2 ^ (e + 1074)) by (apply Z.pow_pos_nonneg; lia).
  split; [lia|].
  assert (2 ^ digits m <= 2 ^ 53) by (apply Z.pow_le_mono_r; lia).
  assert (2 ^ (e + 1074) <= 2 ^ 2045) by (apply Z.pow_le_mono_r; lia).
  change (2 ^ 2098) with (2 ^ 53 * 2 ^ 2045).
  assert (0 < 2 ^ 2045) by (apply Z.pow_pos_nonneg; lia).
  nia.
Qed.

Lemma magnitude_compare (m1 m2 : positive) (e1 e2 : Z) (s1 s2 : bool) :
  valid (S754_finite s1 m1 e1) = true ->
  valid (S754_finite s2 m2 e2) = true ->
  (Zpos m1 * 2 ^ (e1 + 1074) ?= Zpos m2 * 2 ^ (e2 + 1074))
  = match e1 ?= e2 with
    | Lt => Lt
    | Gt => Gt
    | Eq => Pos.compare_cont Eq m1 m2
    end.
Proof.
  intros H1 H2. apply valid_finite in H1, H2.
  destruct H1 as (_ & He1 & Hd1 & Hn1), H2 as (_ & He2 & Hd2 & Hn2).
  pose proof (digits_bounds m1) as [Lo1 Hi1].
  pose proof (digits_bounds m2) as [Lo2 Hi2].
  assert (B1 : Zpos m1 < 2 ^ 53).
  { assert (2 ^ digits m1 <= 2 ^ 53) by (apply Z.pow_le_mono_r; lia). lia. }
  assert (B2 : Zpos m2 < 2 ^ 53).
  { assert (2 ^ digits m2 <= 2 ^ 53) by (apply Z.pow_le_mono_r; lia). lia. }
  destruct (Z.compare_spec e1 e2) as [E|L|G].
  - subst e2.
    assert (P : 0 < 2 ^ (e1 + 1074)) by (apply Z.pow_pos_nonneg; lia).
    change (Pos.compare_cont Eq m1 m2) with (Zpos m1 ?= Zpos m2).
    destruct (Z.compare_spec (Zpos m1) (Zpos m2)) as [E|L|G].
    + rewrite E. apply Z.compare_refl.
    + apply Z.compare_lt_iff. nia.
    + apply Z.compare_gt_iff. nia.
  - apply Z.compare_lt_iff.
    assert (D2 : digits m2 = 53) by lia. rewrite D2 in Lo2.
    replace (e2 + 1074) with ((e2 - e1) + (e1 + 1074)) by lia.
    rewrite (Z.pow_add_r 2 (e2 - e1) (e1 + 1074)) by lia.
    assert (P : 0 < 2 ^ (e1 + 1074)) by (apply Z.pow_pos_nonneg; lia).
    assert (2 ^ 1 <= 2 ^ (e2 - e1)) by (apply Z.pow_le_mono_r; lia).
    change (2 ^ (53 - 1)) with (2 ^ 52) in Lo2.
    change (2 ^ 53) with (2 * 2 ^ 52) in B1.
    assert (0 < 2 ^ 52) by (apply Z.pow_pos_nonneg; lia).
    change (2 ^ 1) with 2 in *.
    assert (Zpos m1 < Zpos m2 * 2 ^ (e2 - e1)) by nia.
    nia.
  - apply Z.compare_gt_iff.
    assert (D1 : digits m1 = 53) by lia. rewrite D1 in Lo1.
    replace (e1 + 1074) with ((e1 - e2) + (e2 + 1074)) by lia.
    rewrite (Z.pow_add_r 2 (e1 - e2) (e2 + 1074)) by lia.
    assert (P : 0 < 2 ^ (e2 + 1074)) by (apply Z.pow_pos_nonneg; lia).
    assert (2 ^ 1 <= 2 ^ (e1 - e2)) by (apply Z.pow_le_mono_r; lia).
    change (2 ^ (53 - 1)) with (2 ^ 52) in Lo1.
    change (2 ^ 53) with (2 * 2 ^ 52) in B2.
    assert (0 < 2 ^ 52) by (apply Z.pow_pos_nonneg; lia).
    change (2 ^ 1) with 2 in *.
    assert (Zpos m2 < Zpos m1 * 2 ^ (e1 - e2)) by nia.
    nia.
Qed.

Ltac compare_by_sign :=
  f_equal; symmetry;
  first [ apply Z.compare_refl
        | apply Z.compare_lt_iff; lia
        | apply Z.compare_gt_iff; lia ].

(** Comparing two numbers other than [NaN] compares their scaled
    integers. *)
Lemma compare_scaled (x y : number) :
  proper x -> proper y ->
  SFcompare x y = Some (scaled x ?= scaled y).
Proof.
  intros [Vx Nx] [Vy Ny].
  assert (Big : 0 < 2 ^ 2098) by (apply Z.pow_pos_nonneg; lia).
  destruct x as [sx|sx| |sx mx ex], y as [sy|sy| |sy my ey];
    try discriminate; cbn [SFcompare scaled];
    try pose proof (scaled_finite_bounds _ _ _ Vx) as Bx;
    try pose proof (scaled_finite_bounds _ _ _ Vy) as By.
  9: { pose proof (magnitude_compare mx my ex ey sx sy Vx Vy) as M.
    destruct sx, sy; cbn [cond_Zopp].
    - rewrite Z.compare_opp.
      rewrite (Z.compare_antisym (Zpos mx * 2 ^ (ex + 1074))
                                 (Zpos my * 2 ^ (ey + 1074))), M.
      now destruct (ex ?= ey).
    - compare_by_sign.
    - compare_by_sign.
    - now rewrite M. }
  all: repeat match goal with s : bool |- _ => destruct s end;
    cbn [cond_Zopp]; compare_by_sign.
Qed.

Lemma gtb_scaled (x y : number) :
  proper x -> proper y -> gtb x y = (scaled y <? scaled x).
Proof.
  intros Hx Hy. unfold gtb, SFltb. rewrite (compare_scaled y x Hy Hx).
  unfold Z.ltb. reflexivity.
Qed.

Lemma ltb_scaled (x y : number) :
  proper x -> proper y -> ltb x y = (scaled x <? scaled y).
Proof. intros Hx Hy. exact (gtb_scaled y x Hy Hx). Qed.

Lemma leb_scaled (x y : number) :
  proper x -> proper y -> leb x y = (scaled x <=? scaled y).
Proof.
  intros Hx Hy. unfold leb, SFleb. rewrite (compare_scaled x y Hx Hy).
  unfold Z.leb. now destruct (scaled x ?= scaled y).
Qed.

Lemma eqb_scaled (x y : number) :
  proper x -> proper y -> eqb x y = (scaled x =? scaled y).
Proof.
  intros Hx Hy. unfold eqb, SFeqb. rewrite (compare_scaled x y Hx Hy).
  destruct (Z.compare_spec (scaled x) (scaled y)); symmetry;
    [apply Z.eqb_eq | apply Z.eqb_neq | apply Z.eqb_neq]; lia.
Qed.


(** *** Subtraction has the sign of the comparison *)

Lemma cond_Zopp_mul (s : bool) (a b : Z) :
  cond_Zopp s (a * b) = cond_Zopp s a * b.
Proof. destruct s; cbn [cond_Zopp]; ring. Qed.

(** The aligned mantissas that [-] subtracts, against the scaled
    integers. *)
Lemma aligned_scaled (s : bool) (m : positive) (e ez : Z) :
  -1074 <= ez <= e ->
  cond_Zopp s (Zpos (fst (shl_align m e ez))) * 2 ^ (ez + 1074)
  = scaled (S754_finite s m e).
Proof.
  intros H. pose proof (shl_align_spec m e ez) as A.
  destruct (shl_align m e ez) as [mz ez']. destruct A as [E1 E2].
  cbn [fst scaled]. rewrite E2, <- !cond_Zopp_mul. f_equal.
  rewrite <- Z.mul_assoc, <- Z.pow_add_r by lia. f_equal. f_equal. lia.
Qed.

Lemma sub_finite_sign (sx sy : bool) (mx my : positive) (ex ey : Z) :
  let x := S754_finite sx mx ex in
  let y := S754_finite sy my ey in
  valid x = true -> valid y = true ->
  match scaled x ?= scaled y with
  | Lt => rounded true (sub x y) /\ forall s, sub x y <> S754_zero s
  | Eq => sub x y = zero
  | Gt => rounded false (sub x y) /\ forall s, sub x y <> S754_zero s
  end.
Proof.
  intros x y Vx Vy.
  pose proof (valid_finite _ _ _ Vx) as (_ & Hex & _).
  pose proof (valid_finite _ _ _ Vy) as (_ & Hey & _).
  unfold sub, x, y. cbn [SFsub].
  set (ez := Z.min ex ey).
  pose proof (aligned_scaled sx mx ex ez ltac:(lia)) as Ax.
  pose proof (aligned_scaled sy my ey ez ltac:(lia)) as Ay.
  fold x in Ax. fold y in Ay. fold x y.
  set (a := cond_Zopp sx (Zpos (fst (shl_align mx ex ez)))) in *.
  set (b := cond_Zopp sy (Zpos (fst (shl_align my ey ez)))) in *.
  assert (P : 0 < 2 ^ (ez + 1074)) by (apply Z.pow_pos_nonneg; lia).
  rewrite <- Ax, <- Ay.
  destruct (Z.compare_spec (a * 2 ^ (ez + 1074)) (b * 2 ^ (ez + 1074)))
    as [E|L|G].
  - assert (a - b = 0) by nia. now replace (a - b) with 0.
  - assert (a - b < 0) by nia.
    destruct (a - b) as [|p|p] eqn:E; try lia. cbn [binary_normalize].
    destruct (binary_round_rounded true p ez) as [R NZ].
    split; [exact R|]. apply NZ. pose proof (digits_ge_1 p). lia.
  - assert (0 < a - b) by nia.
    destruct (a - b) as [|p|p] eqn:E; try lia. cbn [binary_normalize].
    destruct (binary_round_rounded false p ez) as [R NZ].
    split; [exact R|]. apply NZ. pose proof (digits_ge_1 p). lia.
Qed.

Lemma rounded_gtb_zero (s : bool) (x : number) :
  rounded s x -> (forall s', x <> S754_zero s') -> gtb x zero = negb s.
Proof.
  intros [_ [->|[->|(m & e & ->)]]] NZ.
  - now contradiction (NZ s).
  - now destruct s.
  - now destruct s.
Qed.

(** [x - y > 0] exactly when [x > y]. *)
Lemma gtb_sub (x y : number) :
  proper x -> proper y -> gtb (sub x y) zero = gtb x y.
Proof.
  intros Hx Hy. rewrite (gtb_scaled x y Hx Hy).
  destruct Hx as [Vx Nx], Hy as [Vy Ny].
  destruct x as [sx|sx| |sx mx ex], y as [sy|sy| |sy my ey];
    try discriminate.
  9: { pose proof (sub_finite_sign sx sy mx my ex ey Vx Vy) as H.
       cbv zeta in H. rewrite Z.ltb_antisym. unfold Z.leb.
       destruct (_ ?= _).
       - now rewrite H.
       - destruct H as [R NZ]. now rewrite (rounded_gtb_zero true).
       - destruct H as [R NZ]. now rewrite (rounded_gtb_zero false). }
  all: try pose proof (scaled_finite_bounds _ _ _ Vx) as Bx;
       try pose proof (scaled_finite_bounds _ _ _ Vy) as By;
       assert (Big : 0 < 2 ^ 2098) by (apply Z.pow_pos_nonneg; lia);
       repeat match goal with s : bool |- _ => destruct s end;
       cbn [sub SFsub gtb SFltb SFcompare zero scaled cond_Zopp negb];
       symmetry;
       first [ apply Z.ltb_lt; lia | apply Z.ltb_ge; lia ].
Qed.


(** *** Exact results *)

(** Rounding a value that a binary64 holds returns that binary64. *)
Lemma binary_round_aux_exact (s : bool) (m : positive) (e j : Z) :
  valid (S754_finite s m e) = true -> 0 <= j ->
  binary_round_aux prec emax s (Zpos m * 2 ^ j) (e - j) loc_Exact
  = S754_finite s m e.
Proof.
  intros V Hj. apply valid_finite in V. destruct V as (Hc & He & _).
  assert (P : 0 < 2 ^ j) by (apply Z.pow_pos_nonneg; lia).
  destruct (Zpos m * 2 ^ j) as [|p|p] eqn:Ep; try lia.
  assert (Dp : digits p = digits m + j) by (apply digits_mul_pow2; lia).
  unfold binary_round_aux, shr_fexp. cbn [Zdigits2].
  fold (digits p). rewrite Dp.
  replace (digits m + j + (e - j)) with (digits m + e) by lia.
  fold (fexp (digits m + e)). rewrite Hc.
  replace (e - (e - j)) with j by lia.
  assert (Hstage :
    shr (shr_record_of_loc (Zpos p) loc_Exact) (e - j) j
    = ({| shr_m := Zpos m; shr_r := false; shr_s := false |}, e)).
  { unfold shr. destruct j as [|n|n]; [| |lia].
    - cbn [shr_record_of_loc]. f_equal; [|lia]. f_equal. lia.
    - pose proof (iter_shr_1_shifted n (shr_record_of_loc (Zpos p) loc_Exact))
        as Hs. unfold shifted in Hs. cbn [shr_record_of_loc] in *.
      destruct (iter_pos shr_1 n _) as [m' r' s'].
      cbn [shr_m shr_r shr_s] in Hs.
      destruct Hs as [Em Hex]; [lia|].
      rewrite <- Ep, Z.div_mul in Em by lia.
      destruct Hex as [Er Es]; [reflexivity|reflexivity| |].
      + rewrite <- Ep. apply Z.mod_mul. lia.
      + rewrite Em, Er, Es. f_equal. lia. }
  rewrite Hstage. cbn [shr_m loc_of_shr_record round_nearest_even Zdigits2].
  fold (digits m) (fexp (digits m + e)). rewrite Hc, Z.sub_diag.
  cbn [shr shr_record_of_loc shr_m].
  change (emax - prec) with 971.
  destruct (Z.leb_spec e 971); [reflexivity | lia].
Qed.

Lemma new_location_exact (k : Z) : new_location k 0 = loc_Exact.
Proof. unfold new_location. now destruct (Z.even k). Qed.

(** The number nearest to an integer-valued binary64, written as a ratio,
    is that binary64. *)
Lemma nearest_integer (s : bool) (m n k : positive) (e : Z) :
  valid (S754_finite s m e) = true -> 0 <= e ->
  Zpos n = Zpos m * 2 ^ e * Zpos k ->
  nearest s n k = S754_finite s m e.
Proof.
  intros V He En. unfold nearest. cbn [SFdiv]. unfold SFdiv_core_binary.
  set (e' := Z.min _ (0 - 0)).
  assert (He' : e' <= 0) by (unfold e'; lia).
  set (s' := 0 - 0 - e').
  assert (Hs' : s' = - e') by (unfold s'; lia).
  set (m' := match s' with
             | 0 => Zpos n
             | Zpos _ => Z.shiftl (Zpos n) s'
             | Zneg _ => 0
             end).
  assert (Hm' : m' = Zpos m * 2 ^ (e - e') * Zpos k).
  { assert (E : m' = Zpos n * 2 ^ s').
    { unfold m'. destruct s' as [|p|p] eqn:Es; [simpl; lia| |lia].
      now rewrite Z.shiftl_mul_pow2. }
    rewrite E, En, Hs'.
    replace (e - e') with (e + - e') by lia.
    rewrite Z.pow_add_r by lia. ring. }
  rewrite div_eucl_div_mod, Hm', Z.div_mul, Z.mod_mul by lia.
  rewrite new_location_exact. rewrite xorb_false_r.
  replace e' with (e - (e - e')) at 2 by lia.
  apply binary_round_aux_exact; [exact V | lia].
Qed.

(** A finite number divided by itself is 1. *)
Lemma div_self (s : bool) (m : positive) (e : Z) :
  div (S754_finite s m e) (S754_finite s m e) = of_Z 1.
Proof.
  unfold div. cbn [SFdiv]. unfold SFdiv_core_binary.
  rewrite !Z.sub_diag. cbn [Z.min Z.compare SpecFloat.fexp].
  change (Z.min (SpecFloat.fexp prec emax 0) 0) with (-53).
  change (0 - -53) with 53.
  cbv iota beta. rewrite Z.shiftl_mul_pow2 by lia.
  rewrite div_eucl_div_mod.
  replace (Zpos m * 2 ^ 53) with (2 ^ 53 * Zpos m) by ring.
  rewrite Z.div_mul, Z.mod_mul by lia.
  rewrite new_location_exact, xorb_nilpotent. reflexivity.
Qed.

(** ** Sorting *)

Section SortFacts.
Context {A : Type}.
Variable comparefn : A -> A -> number.

(** Whatever the comparison function answers, sorting permutes. *)
Lemma insert_left_perm (x : A) (r : list A) :
  Permutation (x :: r) (insert_left comparefn x r).
Proof.
  induction r as [|t r IH]; cbn [insert_left]; [reflexivity|].
  destruct (gtb (comparefn t x) zero); [|reflexivity].
  rewrite perm_swap. now apply perm_skip.
Qed.

Lemma fold_insert_perm (a r : list A) :
  Permutation (rev r ++ a)
    (rev (fold_left (fun r x => insert_left comparefn x r) a r)).
Proof.
  revert r. induction a as [|x a IH]; intros r; cbn [fold_left].
  - now rewrite app_nil_r.
  - rewrite <- IH. rewrite <- !Permutation_rev.
    rewrite <- insert_left_perm.
    rewrite <- Permutation_middle. reflexivity.
Qed.

Lemma Array_sort_perm (a : list A) :
  Permutation a (Array_sort comparefn a).
Proof. exact (fold_insert_perm a []). Qed.

Lemma Array_sort_length (a : list A) :
  List.length (Array_sort comparefn a) = List.length a.
Proof. symmetry. apply Permutation_length, Array_sort_perm. Qed.

Lemma Array_sort_In (a : list A) (x : A) :
  In x (Array_sort comparefn a) <-> In x a.
Proof.
  split; apply Permutation_in;
    [symmetry|]; apply Array_sort_perm.
Qed.

(** With a comparison function that answers as an order on keys does, the
    result is in ascending key order, elements of equal key staying in
    their original order ([pos] is the position in the input). *)
Variable key pos : A -> Z.
Variable ok : A -> Prop.
Hypothesis comparefn_key :
  forall t x, ok t -> ok x -> gtb (comparefn t x) zero = (key x <? key t).

Lemma insert_left_sorted (x : A) (r : list A) :
  ok x -> Forall ok r ->
  Forall (fun t => pos t < pos x) r ->
  StronglySorted (fun t u => sorted_before key pos u t) r ->
  StronglySorted (fun t u => sorted_before key pos u t) (insert_left comparefn x r).
Proof.
  intros Hx. induction r as [|t r IH]; intros Hok Hpos Hs; cbn [insert_left].
  - repeat constructor.
  - inversion Hok as [|? ? Ht Hr]; subst.
    inversion Hpos as [|? ? Pt Pr]; subst.
    apply StronglySorted_inv in Hs. destruct Hs as [Hs Hall].
    rewrite (comparefn_key t x Ht Hx).
    destruct (Z.ltb_spec (key x) (key t)) as [L|G].
    + constructor; [now apply IH|].
      rewrite <- (insert_left_perm x r).
      constructor; [now left | exact Hall].
    + constructor; [now constructor|].
      constructor; [unfold sorted_before; lia|].
      rewrite Forall_forall in *. intros u Hu.
      specialize (Hall u Hu). specialize (Pr u Hu).
      unfold sorted_before in *. lia.
Qed.

Lemma fold_insert_sorted (a r : list A) :
  Forall ok a -> Forall ok r ->
  StronglySorted (fun x y => pos x < pos y) a ->
  Forall (fun t => Forall (fun x => pos t < pos x) a) r ->
  StronglySorted (fun t u => sorted_before key pos u t) r ->
  StronglySorted (fun t u => sorted_before key pos u t)
    (fold_left (fun r x => insert_left comparefn x r) a r).
Proof.
  revert r. induction a as [|x a IH]; intros r Ha Hr Hinc Hlt Hs;
    cbn [fold_left]; [exact Hs|].
  inversion Ha as [|? ? Hx Ha']; subst.
  apply StronglySorted_inv in Hinc. destruct Hinc as [Hinc Hxa].
  apply IH; try assumption.
  - rewrite <- (insert_left_perm x r). now constructor.
  - rewrite <- (insert_left_perm x r). constructor; [exact Hxa|].
    rewrite Forall_forall in *. intros t Ht. specialize (Hlt t Ht).
    now inversion Hlt.
  - apply insert_left_sorted; try assumption.
    rewrite Forall_forall in *. intros t Ht. specialize (Hlt t Ht).
    now inversion Hlt.
Qed.

Lemma StronglySorted_snoc (R : A -> A -> Prop) (l : list A) (x : A) :
  StronglySorted R l -> Forall (fun y => R y x) l ->
  StronglySorted R (l ++ [x]).
Proof.
  induction l as [|y l IH]; intros Hs Hall; cbn [app].
  - repeat constructor.
  - apply StronglySorted_inv in Hs. destruct Hs as [Hs Hy].
    inversion Hall as [|? ? Ryx Hall']; subst.
    constructor; [now apply IH|].
    apply Forall_app. split; [exact Hy | now constructor].
Qed.

Lemma StronglySorted_rev (R : A -> A -> Prop) (l : list A) :
  StronglySorted (fun t u => R u t) l -> StronglySorted R (rev l).
Proof.
  induction 1 as [|x l Hs IH Hall]; cbn [rev]; [constructor|].
  apply StronglySorted_snoc; [exact IH|].
  now apply Forall_rev.
Qed.

Lemma Array_sort_sorted (a : list A) :
  Forall ok a ->
  StronglySorted (fun x y => pos x < pos y) a ->
  StronglySorted (sorted_before key pos) (Array_sort comparefn a).
Proof.
  intros Ha Hinc. apply StronglySorted_rev.
  apply fold_insert_sorted; try assumption; constructor.
Qed.

End SortFacts.


(** ** The built-ins keep numbers well formed *)

Lemma proper_zero (s : bool) : proper (S754_zero s).
Proof. now split. Qed.

Lemma proper_infinity (s : bool) : proper (S754_infinity s).
Proof. now split. Qed.

Lemma of_Z_proper (z : Z) : proper (of_Z z).
Proof. exact (rounded_proper _ _ (of_Z_rounded z)). Qed.

(** Multiplying by a finite non-zero constant. *)
Lemma mul_proper_finite (x : number) (sy : bool) (my : positive) (ey : Z) :
  proper x -> valid (S754_finite sy my ey) = true ->
  proper (mul x (S754_finite sy my ey)).
Proof.
  intros [Vx Nx] Vy.
  destruct x as [sx|sx| |sx mx ex]; try discriminate;
    try apply proper_zero; try apply proper_infinity.
  exact (rounded_proper _ _ (mul_finite_rounded _ _ _ _ _ _ Vx Vy)).
Qed.

Lemma div_proper_finite (x : number) (sy : bool) (my : positive) (ey : Z) :
  is_nan x = false -> proper (div x (S754_finite sy my ey)).
Proof.
  intros Nx.
  destruct x as [sx|sx| |sx mx ex]; try discriminate;
    try apply proper_zero; try apply proper_infinity.
  exact (rounded_proper _ _ (div_finite_rounded _ _ _ _ _ _)).
Qed.

Lemma Math_round_proper (x : number) : proper x -> proper (Math_round x).
Proof.
  intros Hx. destruct x as [sx|sx| |sx mx ex]; try exact Hx.
  cbn [Math_round]. destruct (0 <=? ex); [exact Hx|].
  destruct (_ / _); [apply proper_zero | apply of_Z_proper..].
Qed.

Lemma Number_toFixed_proper (fd : positive) (x : number) :
  proper x -> proper (Number_toFixed fd x).
Proof.
  intros Hx. destruct x as [sx|sx| |sx mx ex]; try exact Hx.
  cbn [Number_toFixed]. destruct (ge_1e21 mx ex); [exact Hx|].
  destruct (scaled_half_up fd mx ex); try apply proper_zero.
  exact (rounded_proper _ _ (div_finite_rounded _ _ _ _ _ _)).
Qed.

(** ** The emission operation *)

Lemma factor_table (m : Spec.TransportMode) :
  Object.own CONFIG.EMISSION_FACTORS (Spec.key m) = Some (Spec.factor m).
Proof. destruct m; reflexivity. Qed.

Lemma factor_shape (m : Spec.TransportMode) :
  Spec.factor m = zero
  \/ exists mf ef, Spec.factor m = S754_finite false mf ef
                   /\ valid (S754_finite false mf ef) = true.
Proof.
  destruct m; [now left|right..]; eexists _, _;
    (split; [vm_compute; reflexivity | vm_compute; reflexivity]).
Qed.

Lemma positive_not_leb_zero (d : number) :
  is_finite d = true -> ltb zero d = true -> leb d zero = false.
Proof.
  intros Hfin Hpos.
  destruct (positive_finite_inv d Hfin Hpos) as (m & e & ->). reflexivity.
Qed.

(** Past its guard, the first implementation is [toFixed(2)] of the
    product. *)
Lemma Calculator_emission (d : number) (m : Spec.TransportMode) :
  is_finite d = true -> ltb zero d = true ->
  Calculator.calculateEmission d (Spec.key m)
  = Number_toFixed 2 (mul d (Spec.factor m)).
Proof.
  intros Hfin Hpos. unfold Calculator.calculateEmission, Object.get.
  rewrite factor_table, (positive_not_leb_zero d Hfin Hpos). reflexivity.
Qed.

(** Past its guards, the second implementation is
    [Math.round(product * 100) / 100]. *)
Lemma calculator_emission (d : number) (m : Spec.TransportMode) :
  leb d zero = false ->
  calculator.calculateEmission d (Spec.key m)
  = Ok (Engine.round_scaled 2 (mul d (Spec.factor m))).
Proof.
  intros Hd. unfold calculator.calculateEmission, Object.get,
    Object.hasOwnProperty.
  rewrite factor_table, Hd. reflexivity.
Qed.

(** The product of a positive distance and a factor of the table. *)
Lemma product_rounded (d : number) (m : Spec.TransportMode) :
  Spec.positive_distance d -> rounded false (mul d (Spec.factor m)).
Proof.
  intros (V & Hfin & Hpos).
  destruct (positive_finite_inv d Hfin Hpos) as (md & ed & ->).
  destruct (factor_shape m) as [->|(mf & ef & -> & Vf)].
  - split; [reflexivity | now left].
  - exact (mul_finite_rounded false false md mf ed ef V Vf).
Qed.

(** ** Rounding the binary64 product to two decimals *)

Section RoundedProduct.

Lemma Zdigits2_bound (x k : Z) : 0 <= k -> 0 <= x < 2 ^ k -> Zdigits2 x <= k.
Proof.
  intros Hk [H0 Hx]. destruct x as [|p|p]; [cbn; lia | | lia].
  cbn [Zdigits2]. fold (digits p).
  pose proof (digits_bounds p) as [Hlo _].
  pose proof (digits_ge_1 p).
  apply Z.lt_succ_r, (Z.pow_lt_mono_r_iff 2); try lia.
  replace (Z.succ k) with (k + 1) by lia.
  rewrite Z.pow_add_r by lia.
  assert (2 ^ digits p = 2 * 2 ^ (digits p - 1)).
  { rewrite <- (Z.pow_succ_r 2) by lia. f_equal. lia. }
  lia.
Qed.

Lemma Zdigits2_succ (x : Z) : 0 <= x -> Zdigits2 (x + 1) <= Zdigits2 x + 1.
Proof.
  intros Hx. pose proof (Zdigits2_nonneg x) as Hd.
  apply Zdigits2_bound; [lia|].
  split; [lia|]. rewrite Z.pow_add_r by lia.
  destruct x as [|p|p]; [cbn; lia | | lia].
  cbn [Zdigits2]. fold (digits p).
  pose proof (digits_bounds p). lia.
Qed.

(** Rounding does not overflow when the magnitude is below [2^1023], or
    below [2^1024] with a mantissa that rounding up cannot carry out of
    53 bits. *)
Lemma binary_round_aux_finite (s : bool) (m e : Z) (l : location) :
  0 <= m -> e <= fexp (Zdigits2 m + e) ->
  Zdigits2 m + e <= 1023
  \/ (Zdigits2 m + e = 1024 /\ m / 2 ^ (971 - e) + 1 < 2 ^ 53) ->
  is_finite (binary_round_aux prec emax s m e l) = true.
Proof.
  intros Hm Hpre Hsmall. unfold binary_round_aux.
  pose proof (shr_fexp_stage m e l Hm Hpre) as H1.
  destruct (shr_fexp prec emax m e l) as [mrs1 e1].
  destruct H1 as (He1 & Hm1 & Hq1 & Hd1 & Hz1 & _).
  set (m2 := round_nearest_even (shr_m mrs1) (loc_of_shr_record mrs1)).
  pose proof (round_nearest_even_bounds (shr_m mrs1) (loc_of_shr_record mrs1))
    as Hm2. fold m2 in Hm2.
  assert (Hk : Zdigits2 m2 + e1 <= 1024).
  { assert (Hs : Zdigits2 m2 <= Zdigits2 (shr_m mrs1) + 1).
    { etransitivity; [|apply Zdigits2_succ; lia].
      apply Zdigits2_monotone. lia. }
    destruct (Z.eq_dec (shr_m mrs1) 0) as [Z0|NZ].
    - rewrite (Hz1 Z0). rewrite Z0 in Hs. cbn [Zdigits2] in Hs. lia.
    - destruct Hsmall as [A|[B1 B2]].
      + specialize (Hd1 ltac:(lia)). lia.
      + rewrite B1, fexp_eq in He1.
        assert (E : e1 = 971) by lia. rewrite E in *.
        rewrite <- Hq1 in B2.
        assert (Zdigits2 m2 <= 53) by (apply Zdigits2_bound; lia).
        lia. }
  assert (Hpre2 : e1 <= fexp (Zdigits2 m2 + e1)).
  { destruct (Z.eq_dec (shr_m mrs1) 0) as [Z0|NZ].
    - rewrite (Hz1 Z0), fexp_eq. lia.
    - rewrite He1 at 1. rewrite <- Hd1 by lia.
      apply fexp_monotone.
      pose proof (Zdigits2_monotone (shr_m mrs1) m2). lia. }
  pose proof (shr_fexp_stage m2 e1 loc_Exact ltac:(lia) Hpre2) as H2.
  destruct (shr_fexp prec emax m2 e1 loc_Exact) as [mrs2 e2].
  destruct H2 as (He2 & Hm3 & _).
  assert (He : e2 <= 971) by (rewrite He2, fexp_eq; lia).
  destruct (shr_m mrs2) as [|p|p]; [reflexivity | | lia].
  destruct (Z.leb_spec e2 (emax - prec)) as [_|C]; [reflexivity|].
  unfold emax, prec in C. lia.
Qed.

(** The product with a number below 1 is finite. *)
Lemma mul_below_one_finite (sx sy : bool) (mx my : positive) (ex ey : Z) :
  valid (S754_finite sx mx ex) = true ->
  valid (S754_finite sy my ey) = true ->
  digits my + ey <= 0 ->
  is_finite (mul (S754_finite sx mx ex) (S754_finite sy my ey)) = true.
Proof.
  intros Vx Vy Hy.
  pose proof (valid_finite _ _ _ Vx) as (Fx & Hex & Dx & Cx).
  pose proof (valid_finite _ _ _ Vy) as (Fy & Hey & Dy & Cy).
  pose proof (digits_bounds mx) as [Lx Ux].
  pose proof (digits_bounds my) as [Ly Uy].
  pose proof (digits_ge_1 mx). pose proof (digits_ge_1 my).
  pose proof (digits_mul mx my) as Hlow.
  assert (Hup : digits (mx * my) <= digits mx + digits my).
  { change (digits (mx * my)) with (Zdigits2 (Zpos (mx * my))).
    apply Zdigits2_bound; [lia|]. split; [lia|].
    rewrite Pos2Z.inj_mul.
    rewrite (Z.pow_add_r 2 (digits mx) (digits my)) by lia.
    apply Z.mul_lt_mono_nonneg; lia. }
  unfold mul. cbn [SFmul].
  apply binary_round_aux_finite; [lia | |].
  - cbn [Zdigits2]. fold (digits (mx * my)). rewrite fexp_eq. lia.
  - cbn [Zdigits2]. fold (digits (mx * my)).
    destruct (Z.le_gt_cases (digits (mx * my) + (ex + ey)) 1023) as [A|B];
      [now left | right].
    assert (Ex : ex = 971) by lia.
    assert (Eq : ey = - digits my) by lia.
    split; [lia|].
    replace (971 - (ex + ey)) with (digits my) by lia.
    assert (Zpos (mx * my) / 2 ^ digits my < Zpos mx).
    { apply Z.div_lt_upper_bound; [lia|].
      rewrite Pos2Z.inj_mul, Z.mul_comm. apply Z.mul_lt_mono_pos_r; lia. }
    assert (2 ^ digits mx <= 2 ^ 53) by (apply Z.pow_le_mono_r; lia).
    lia.
Qed.

Lemma factor_below_one (m : Spec.TransportMode) :
  Spec.factor m = zero
  \/ exists mf ef,
       Spec.factor m = S754_finite false mf ef
       /\ valid (S754_finite false mf ef) = true
       /\ digits mf + ef <= 0.
Proof.
  destruct m; [now left | right..];
    eexists _, _; (split; [reflexivity|]); split;
      try reflexivity; vm_compute; discriminate.
Qed.

(** The product of a positive distance and a factor does not overflow. *)
Lemma product_finite (d : number) (m : Spec.TransportMode) :
  Spec.positive_distance d -> is_finite (mul d (Spec.factor m)) = true.
Proof.
  intros (V & Hfin & Hpos).
  destruct (positive_finite_inv d Hfin Hpos) as (md & ed & ->).
  destruct (factor_below_one m) as [->|(mf & ef & -> & Vf & Hf)].
  - reflexivity.
  - now apply mul_below_one_finite.
Qed.

Lemma Qfloor_unique (q : Q) (z : Z) :
  (inject_Z z <= q)%Q -> (q < inject_Z (z + 1))%Q -> Qfloor q = z.
Proof.
  intros Hlo Hhi.
  pose proof (Qfloor_le q) as F1. pose proof (Qlt_floor q) as F2.
  assert (A : (inject_Z (Qfloor q) < inject_Z (z + 1))%Q)
    by (eapply Qle_lt_trans; eassumption).
  assert (B : (inject_Z z < inject_Z (Qfloor q + 1))%Q)
    by (eapply Qle_lt_trans; eassumption).
  rewrite <- Zlt_Qlt in A, B. lia.
Qed.

(** The real number a positive binary64 denotes, without powers. *)
Lemma value_integer (m : positive) (e : Z) :
  0 <= e ->
  (Spec.value (S754_finite false m e) == inject_Z (Zpos m * 2 ^ e))%Q.
Proof.
  intros He. cbn [Spec.value cond_Zopp].
  rewrite inject_Z_mult, (Zpower_Qpower 2 e He). reflexivity.
Qed.

Lemma value_fraction (m : positive) (e : Z) :
  e < 0 ->
  (Spec.value (S754_finite false m e)
   == inject_Z (Zpos m) / inject_Z (2 ^ (- e)))%Q.
Proof.
  intros He. cbn [Spec.value cond_Zopp].
  replace e with (- (- e)) at 1 by lia.
  rewrite Qpower_opp, <- (Zpower_Qpower 2 (- e)) by lia. reflexivity.
Qed.

Lemma value_positive (m : positive) (e : Z) :
  (0 < Spec.value (S754_finite false m e))%Q.
Proof.
  destruct (Z.lt_ge_cases e 0) as [He|He].
  - rewrite (value_fraction m e He).
    assert (P : 0 < 2 ^ (- e)) by (apply Z.pow_pos_nonneg; lia).
    apply Qlt_shift_div_l.
    + change 0%Q with (inject_Z 0). rewrite <- Zlt_Qlt. exact P.
    + rewrite Qmult_0_l. change 0%Q with (inject_Z 0).
      rewrite <- Zlt_Qlt. lia.
  - rewrite (value_integer m e He).
    assert (P : 0 < 2 ^ e) by (apply Z.pow_pos_nonneg; lia).
    change 0%Q with (inject_Z 0). rewrite <- Zlt_Qlt. lia.
Qed.

(** [toFixed]'s digits are the exact value times [10^fd], plus one half,
    floored. *)
Lemma scaled_half_up_floor (fd m : positive) (e : Z) :
  Qfloor (Spec.value (S754_finite false m e)
          * inject_Z (Zpos (Pos.pow 10 fd)) + (1 # 2))%Q
  = scaled_half_up fd m e.
Proof.
  unfold scaled_half_up. set (T := Zpos (10 ^ fd)).
  destruct (Z.leb_spec 0 e) as [He|He].
  - rewrite (value_integer m e He), <- inject_Z_mult.
    apply Qfloor_unique.
    + lra.
    + rewrite inject_Z_plus. change (inject_Z 1) with 1%Q. lra.
  - rewrite (value_fraction m e He).
    assert (P : 0 < 2 ^ (- e)) by (apply Z.pow_pos_nonneg; lia).
    set (D := 2 ^ (- e)) in *.
    rewrite Zdiv_Qdiv. apply Qfloor_comp.
    rewrite !inject_Z_plus, !inject_Z_mult.
    assert (N : ~ (inject_Z D == 0)%Q).
    { change 0%Q with (inject_Z 0). rewrite inject_Z_injective. lia. }
    change (inject_Z 2) with 2%Q. field. exact N.
Qed.

Lemma round_half_away_positive (fd m : positive) (e : Z) :
  Spec.round_half_away (Spec.value (S754_finite false m e)) fd
  = scaled_half_up fd m e.
Proof.
  unfold Spec.round_half_away.
  pose proof (value_positive m e) as P.
  assert (S : Z.sgn (Qnum (Spec.value (S754_finite false m e))) = 1).
  { apply Z.sgn_pos. unfold Qlt in P. cbn [Qnum Qden] in P. lia. }
  rewrite S, Z.mul_1_l, <- scaled_half_up_floor.
  apply Qfloor_comp. rewrite Qabs_pos by (apply Qlt_le_weak, P). reflexivity.
Qed.

(** What [Number(x.toFixed(fd))] returns for a finite [x] that is not
    negative: the number nearest to the exact value of [x] rounded to
    [fd] decimals, ties away from zero. *)
Lemma Number_toFixed_rounds (fd : positive) (x : number) :
  rounded false x -> is_finite x = true ->
  Number_toFixed fd x = Spec.decimal (Spec.round_half_away (Spec.value x) fd) fd.
Proof.
  intros [V [->|[->|(m & e & ->)]]] F; [reflexivity | discriminate |].
  rewrite round_half_away_positive. cbn [Number_toFixed].
  pose proof (valid_finite _ _ _ V) as (_ & _ & Dx & _).
  pose proof (digits_bounds m) as [_ Hi].
  assert (B : Zpos m < 2 ^ 53).
  { assert (2 ^ digits m <= 2 ^ 53) by (apply Z.pow_le_mono_r; lia). lia. }
  destruct (ge_1e21 m e) eqn:G.
  - unfold ge_1e21 in G. unfold scaled_half_up.
    destruct (Z.leb_spec 0 e) as [He|He].
    + assert (P : 0 < 2 ^ e) by (apply Z.pow_pos_nonneg; lia).
      destruct (Zpos m * 2 ^ e * Zpos (10 ^ fd)) as [|n|n] eqn:En; try lia.
      cbn [Spec.decimal]. symmetry. now apply nearest_integer.
    + exfalso. apply Z.leb_le in G.
      assert (P : 1 <= 2 ^ (- e)) by (apply (Z.pow_le_mono_r 2 0); lia).
      assert (2 ^ 53 < 10 ^ 21) by reflexivity.
      nia.
  - assert (N : 0 <= scaled_half_up fd m e).
    { rewrite <- scaled_half_up_floor.
      rewrite <- (Qfloor_Z 0). apply Qfloor_resp_le.
      pose proof (value_positive m e) as P.
      assert (0 <= inject_Z (Zpos (10 ^ fd)))%Q
        by (change 0%Q with (inject_Z 0); rewrite <- Zle_Qle; lia).
      assert (0 <= Spec.value (S754_finite false m e)
                   * inject_Z (Zpos (10 ^ fd)))%Q
        by (apply Qmult_le_0_compat; [apply Qlt_le_weak, P | assumption]).
      change (inject_Z 0) with 0%Q. lra. }
    destruct (scaled_half_up fd m e) as [|n|n]; [reflexivity.. | lia].
Qed.

(** C3, refuted as stated: 15 km by bus.  In exact arithmetic
    [15 * 0.089 = 1.335], which rounds to 1.34 under either tie rule the
    specification allows; the binary64 product lies just below 1.335 and
    the program returns 1.33. *)
Lemma C3_exact_product_differs :
  Spec.positive_distance (of_Z 15)
  /\ (Spec.value (of_Z 15) * Spec.factor_decimal Spec.bus == 1335 # 1000)%Q
  /\ Spec.round_half_away
       (Spec.value (of_Z 15) * Spec.factor_decimal Spec.bus) 2 = 134
  /\ Spec.round_half_even
       (Spec.value (of_Z 15) * Spec.factor_decimal Spec.bus) 2 = 134
  /\ Spec.emission (of_Z 15) Spec.bus = dec 134 2
  /\ (Spec.value (mul (of_Z 15) (Spec.factor Spec.bus)) < 1335 # 1000)%Q
  /\ Calculator.calculateEmission (of_Z 15) "bus" = dec 133 2
  /\ eqb (dec 133 2) (dec 134 2) = false.
Proof. vm_compute. repeat split; congruence. Qed.

Lemma table_distances_exact :
  Forall (fun d =>
            Calculator.calculateEmission d "car" = Spec.emission d Spec.car
            /\ Calculator.calculateEmission d "truck"
               = Spec.emission d Spec.truck)
         Spec.table_distances.
Proof.
  let l := eval vm_compute in Spec.table_distances in
  change (Forall (fun d =>
            Calculator.calculateEmission d "car" = Spec.emission d Spec.car
            /\ Calculator.calculateEmission d "truck"
               = Spec.emission d Spec.truck) l).
  repeat (apply Forall_cons; [split; vm_compute; reflexivity|]).
  apply Forall_nil.
Qed.

Lemma bicycle_exact (d : number) :
  Spec.positive_distance d ->
  Calculator.calculateEmission d "bicycle" = Spec.emission d Spec.bicycle.
Proof.
  intros (V & Hfin & Hpos).
  destruct (positive_finite_inv d Hfin Hpos) as (md & ed & ->).
  unfold Spec.emission, Spec.round_half_away.
  cbn [Spec.factor_decimal Qmult Qnum]. rewrite Z.mul_0_r. reflexivity.
Qed.

(** C3, amended: for every positive distance and each of the four modes
    the binary64 product of the distance and the factor is finite, and
    the emission is that product, taken at its exact value, rounded to 2
    decimals with ties away from zero and returned as the nearest
    binary64.  For the bicycle at every positive distance, and for the
    car and the truck at every distance of the route tables, this is the
    exact product of the distance and the decimal factor rounded to 2
    decimals, as specified. *)
Theorem C3_emission_rounds_binary64_product
  (d : number) (m : Spec.TransportMode) :
  Spec.positive_distance d ->
  is_finite (mul d (Spec.factor m)) = true
  /\ Calculator.calculateEmission d (Spec.key m)
     = Spec.emission_of_binary64_product d m
  /\ (m = Spec.bicycle
      \/ (In d Spec.table_distances /\ (m = Spec.car \/ m = Spec.truck)) ->
      Calculator.calculateEmission d (Spec.key m) = Spec.emission d m).
Proof.
  intros Hd. pose proof Hd as (V & Hfin & Hpos).
  pose proof (product_finite d m Hd) as F. split; [exact F|]. split.
  - rewrite (Calculator_emission d m Hfin Hpos).
    unfold Spec.emission_of_binary64_product.
    apply Number_toFixed_rounds; [|exact F].
    now apply product_rounded.
  - intros [->|[Hin Hm]].
    + now apply bicycle_exact.
    + pose proof table_distances_exact as H. rewrite Forall_forall in H.
      destruct (H d Hin) as [Hcar Htruck].
      now destruct Hm as [->| ->].
Qed.

Lemma C3_emission_rounds_binary64_product_witness :
  is_finite (mul (of_Z 15) (Spec.factor Spec.bus)) = true
  /\ Calculator.calculateEmission (of_Z 15) "bus"
     = Spec.emission_of_binary64_product (of_Z 15) Spec.bus
  /\ Calculator.calculateEmission (of_Z 451) "car"
     = Spec.emission (of_Z 451) Spec.car.
Proof.
  destruct (C3_emission_rounds_binary64_product (of_Z 15) Spec.bus)
    as (F & E & _); [repeat split|].
  destruct (C3_emission_rounds_binary64_product (of_Z 451) Spec.car)
    as (_ & _ & X); [repeat split|].
  split; [exact F|]. split; [exact E|].
  apply X. right. split; [|now left].
  unfold Spec.table_distances. apply in_map_iff.
  exists (route "Toronto, ON" "Ottawa, ON" 451).
  split; [reflexivity|]. apply in_or_app. left.
  unfold RoutesDB_const.routes. left. reflexivity.
Defined.

End RoundedProduct.

(** ** The bicycle *)

(** C5, refuted as stated: at distance 0 the second implementation raises
    instead of returning 0. *)
Lemma C5_zero_distance_raises :
  leb zero zero = true
  /\ calculator.calculateEmission zero "bicycle"
     = Throw calculator.invalid_distance.
Proof. split; reflexivity. Qed.

(** C5, amended: for every finite distance above 0 both implementations
    return 0 for the bicycle without raising; at a finite distance not
    above 0 the first still returns 0 and the second raises. *)
Theorem C5_bicycle_emits_nothing (d : number) :
  is_finite d = true ->
  Calculator.calculateEmission d "bicycle" = zero
  /\ (ltb zero d = true ->
      calculator.calculateEmission d "bicycle" = Ok zero)
  /\ (leb d zero = true ->
      calculator.calculateEmission d "bicycle"
      = Throw calculator.invalid_distance).
Proof.
  intros Hfin. destruct d as [s|s| |s m e]; try discriminate.
  - repeat split. discriminate.
  - destruct s; repeat split; discriminate.
Qed.

Lemma C5_bicycle_emits_nothing_witness :
  calculator.calculateEmission (of_Z 451) "bicycle" = Ok zero.
Proof.
  refine (proj1 (proj2 (C5_bicycle_emits_nothing (of_Z 451) _)) _);
    reflexivity.
Defined.


(** ** Savings *)

(** C1, refuted as stated: the first implementation does not clamp; with
    an emission of 10 kg against a baseline of 5 kg it reports -5 kg
    saved, where [max(0, 5 - 10)] is 0. *)
Lemma C1_negative_savings :
  ltb zero (of_Z 5) = true
  /\ Calculator.savedKg (Calculator.calculateSavingd (of_Z 10) (of_Z 5))
     = of_Z (-5)
  /\ ltb (of_Z (-5)) zero = true
  /\ Math_max0 (sub (of_Z 5) (of_Z 10)) = zero.
Proof. vm_compute. repeat split. Qed.

(** The second implementation rounds what it saves: 54.12 kg against
    40.14 kg is 13.979999999999997 kg before rounding, 13.98 kg after. *)
Lemma savings_are_rounded :
  Math_max0 (sub (dec 5412 2) (dec 4014 2))
  = S754_finite false 7870040348829940 (-49)
  /\ calculator.calculateSavings (dec 4014 2) (dec 5412 2)
     = Ok {| calculator.savedKg := dec 1398 2;
             calculator.percentage := dec 2583 2 |}.
Proof. vm_compute. repeat split. Qed.

Lemma sub_proper (x y : number) :
  proper x -> proper y -> sub x y = NaN \/ proper (sub x y).
Proof.
  intros [Vx Nx] [Vy Ny].
  destruct x as [sx|sx| |sx mx ex], y as [sy|sy| |sy my ey];
    try discriminate.
  9: { right. pose proof (sub_finite_sign sx sy mx my ex ey Vx Vy) as H.
       cbv zeta in H. destruct (_ ?= _).
       - rewrite H. apply proper_zero.
       - exact (rounded_proper _ _ (proj1 H)).
       - exact (rounded_proper _ _ (proj1 H)). }
  all: cbn [sub SFsub];
    repeat match goal with s : bool |- _ => destruct s end;
    first [ now left | right; split; [assumption || reflexivity | reflexivity] ].
Qed.

Lemma sub_not_nan_when_less (x y : number) :
  proper x -> proper y -> gtb y x = true -> is_nan (sub x y) = false.
Proof.
  intros Hx Hy G. destruct (sub_proper x y Hx Hy) as [E|[_ N]]; [|exact N].
  exfalso. destruct Hx as [Vx Nx], Hy as [Vy Ny].
  destruct x as [sx|sx| |sx mx ex], y as [sy|sy| |sy my ey];
    try discriminate;
    try (destruct sx, sy; discriminate).
  pose proof (sub_finite_sign sx sy mx my ex ey Vx Vy) as H.
  cbv zeta in H. rewrite E in H. destruct (_ ?= _).
  - discriminate.
  - now destruct H as [[_ [?|[?|(? & ? & ?)]]] _].
  - now destruct H as [[_ [?|[?|(? & ? & ?)]]] _].
Qed.

Lemma Math_max0_nonneg (y : number) :
  y = NaN \/ proper y -> Engine.nonneg (Math_max0 y).
Proof.
  intros [->|[V N]]; [now left|].
  destruct y as [s|s| |s m e]; try discriminate; cbn [Math_max0].
  - right. split; [reflexivity | now left].
  - destruct s; right; (split; [reflexivity|]); [now left | now right; left].
  - destruct s; right.
    + split; [reflexivity | now left].
    + split; [exact V | right; right; now exists m, e].
Qed.

Lemma hundred : of_Z (10 ^ 2) = S754_finite false 7036874417766400 (-46).
Proof. reflexivity. Qed.

Lemma hundred_valid : valid (S754_finite false 7036874417766400 (-46)) = true.
Proof. reflexivity. Qed.

Lemma Math_round_nonneg (x : number) :
  Engine.nonneg x -> Engine.nonneg (Math_round x).
Proof.
  intros [->|[V [->|[->|(m & e & ->)]]]];
    [now left | right; split; [reflexivity | now left]
    | right; split; [reflexivity | now right; left] |].
  cbn [Math_round cond_Zopp]. destruct (Z.leb_spec 0 e) as [He|He].
  - right. split; [exact V | right; right; now exists m, e].
  - assert (P : 0 < 2 ^ (- e)) by (apply Z.pow_pos_nonneg; lia).
    assert (H : 0 <= (2 * Zpos m + 2 ^ (- e)) / (2 * 2 ^ (- e)))
      by (apply Z.div_pos; lia).
    destruct (_ / _) as [|n|n]; [| |lia]; right.
    + split; [reflexivity | now left].
    + exact (of_Z_rounded (Zpos n)).
Qed.

Lemma mul_hundred_nonneg (x : number) :
  Engine.nonneg x -> Engine.nonneg (mul x (of_Z (10 ^ 2))).
Proof.
  rewrite hundred.
  intros [->|[V [->|[->|(m & e & ->)]]]];
    [now left | right; split; [reflexivity | now left]
    | right; split; [reflexivity | now right; left] |].
  right. exact (mul_finite_rounded false false _ _ _ _ V hundred_valid).
Qed.

Lemma div_hundred_nonneg (x : number) :
  Engine.nonneg x -> Engine.nonneg (div x (of_Z (10 ^ 2))).
Proof.
  rewrite hundred.
  intros [->|[V [->|[->|(m & e & ->)]]]];
    [now left | right; split; [reflexivity | now left]
    | right; split; [reflexivity | now right; left] |].
  right. exact (div_finite_rounded false false _ _ _ _).
Qed.

Lemma round_scaled_nonneg (x : number) :
  Engine.nonneg x -> Engine.nonneg (Engine.round_scaled 2 x).
Proof.
  intros H. unfold Engine.round_scaled.
  now apply div_hundred_nonneg, Math_round_nonneg, mul_hundred_nonneg.
Qed.

Lemma nonneg_not_negative (x : number) :
  Engine.nonneg x -> ltb x zero = false.
Proof. intros [->|[_ [->|[->|(m & e & ->)]]]]; reflexivity. Qed.

Lemma Math_max0_not_positive (y : number) :
  is_nan y = false -> gtb y zero = false -> Math_max0 y = zero.
Proof.
  intros N G. destruct y; try discriminate; cbn [Math_max0];
    unfold gtb in G; unfold ltb; now rewrite G.
Qed.

(** C1, amended: with a baseline above 0 the second implementation
    returns [max(0, baseline - emission)] rounded to 2 decimals; the
    figure is never negative, and it is 0 when the emission exceeds the
    baseline. *)
Theorem C1_savings_clamped (emission baseline : number) :
  proper emission -> proper baseline -> ltb zero baseline = true ->
  exists s,
    calculator.calculateSavings emission baseline = Ok s
    /\ calculator.savedKg s
       = Engine.round_scaled 2 (Math_max0 (sub baseline emission))
    /\ ltb (calculator.savedKg s) zero = false
    /\ (gtb emission baseline = true -> calculator.savedKg s = zero).
Proof.
  intros He Hb Hpos. unfold calculator.calculateSavings.
  assert (Hguard : leb baseline zero = false).
  { rewrite leb_scaled by (assumption || apply proper_zero).
    rewrite ltb_scaled in Hpos by (assumption || apply proper_zero).
    apply Z.ltb_lt in Hpos. apply Z.leb_gt. exact Hpos. }
  rewrite Hguard. eexists. split; [reflexivity|]. cbn [calculator.savedKg].
  split; [reflexivity|]. split.
  - apply nonneg_not_negative.
    apply (round_scaled_nonneg (Math_max0 (sub baseline emission))).
    apply Math_max0_nonneg. apply sub_proper; assumption.
  - intros G.
    assert (N : is_nan (sub baseline emission) = false)
      by now apply sub_not_nan_when_less.
    assert (G' : gtb (sub baseline emission) zero = false).
    { rewrite gtb_sub by assumption.
      rewrite gtb_scaled in G |- * by assumption.
      apply Z.ltb_lt in G. apply Z.ltb_ge. lia. }
    rewrite (Math_max0_not_positive _ N G'). reflexivity.
Qed.

Lemma C1_savings_clamped_witness :
  exists s,
    calculator.calculateSavings (of_Z 10) (of_Z 5) = Ok s
    /\ calculator.savedKg s
       = Engine.round_scaled 2 (Math_max0 (sub (of_Z 5) (of_Z 10)))
    /\ ltb (calculator.savedKg s) zero = false
    /\ (gtb (of_Z 10) (of_Z 5) = true -> calculator.savedKg s = zero).
Proof.
  apply (C1_savings_clamped (of_Z 10) (of_Z 5));
    [apply of_Z_proper | apply of_Z_proper | reflexivity].
Defined.


(** ** The car as its own baseline *)

(** The largest binary64, as a distance: every emission but the bicycle's
    overflows in the second implementation, and [Infinity / Infinity] is
    [NaN]. *)
Lemma C10_overflowing_baseline :
  let d := of_Z (10 ^ 308) in
  is_finite d = true
  /\ calculator.calculateEmission d "car" = Ok Infinity
  /\ gtb Infinity zero = true
  /\ exists entries car,
       calculator.calculateAllModes d = Ok entries
       /\ In car entries
       /\ calculator.mode car = "car"%string
       /\ calculator.percentageVsCar car = NaN.
Proof.
  cbv zeta. split; [reflexivity|]. split; [vm_compute; reflexivity|].
  split; [reflexivity|].
  eexists _, _. split; [vm_compute; reflexivity|].
  split; [right; left; reflexivity|]. split; reflexivity.
Qed.

(** The entries of the first implementation before sorting. *)
Lemma Calculator_allModes_entries (d : number) (x : Calculator.entry) :
  In x (Calculator.calculateAllModes d) ->
  let carEmission := Calculator.calculateEmission d "car" in
  let emission := Calculator.calculateEmission d (Calculator.mode x) in
  Calculator.emission x = emission
  /\ Calculator.percentageVsCar x
     = Number_toFixed 2
         (if gtb carEmission zero
          then mul (div emission carEmission) (of_Z 100)
          else zero).
Proof.
  unfold Calculator.calculateAllModes. intros H.
  apply Array_sort_In in H. apply in_map_iff in H.
  destruct H as (mode & <- & _). split; reflexivity.
Qed.

Lemma finite_positive_self_ratio (c : number) :
  is_finite c = true -> gtb c zero = true -> div c c = of_Z 1.
Proof.
  intros Hfin Hpos.
  destruct (positive_finite_inv c Hfin Hpos) as (m & e & ->).
  apply div_self.
Qed.

(** The entries of the second implementation before sorting. *)
Lemma calculator_allModes_entries (d : number) :
  leb d zero = false ->
  exists results,
    calculator.calculateAllModes d
    = Ok (Array_sort
            (fun a b => sub (calculator.emission a) (calculator.emission b))
            results)
    /\ map calculator.mode results = map Spec.key Spec.all_modes
    /\ forall x, In x results ->
       exists m carEmission emission,
         calculator.mode x = Spec.key m
         /\ calculator.calculateEmission d "car" = Ok carEmission
         /\ calculator.calculateEmission d (Spec.key m) = Ok emission
         /\ calculator.emission x = emission
         /\ calculator.percentageVsCar x
            = if eqb carEmission zero
              then (if eqb emission zero then of_Z 100 else Infinity)
              else Math_round (mul (div emission carEmission) (of_Z 100)).
Proof.
  intros Hd. unfold calculator.calculateAllModes. rewrite Hd.
  change "car"%string with (Spec.key Spec.car).
  rewrite (calculator_emission d Spec.car Hd). cbn [calculator.bind].
  change (Object.keys CONFIG.EMISSION_FACTORS)
    with (map Spec.key Spec.all_modes).
  cbn [map Spec.all_modes calculator.forEach_push].
  rewrite !(calculator_emission d _ Hd).
  cbn [calculator.bind Spec.key].
  cbv [calculator.transport_mode]. cbn [calculator.bind Object.own CONFIG.TRANSPORT_MODES String.eqb Ascii.eqb Bool.eqb].
  eexists. split; [reflexivity|]. split; [reflexivity|].
  intros x Hx. cbn [In] in Hx.
  destruct Hx as [<-|[<-|[<-|[<-|[]]]]];
    [exists Spec.bicycle | exists Spec.car | exists Spec.bus | exists Spec.truck];
    eexists _, _; (split; [reflexivity|]);
    rewrite !(calculator_emission d _ Hd);
    repeat split; reflexivity.
Qed.

(** C10, amended: whenever the computed car emission is finite and
    strictly positive, the comparison has an entry for "car", and every
    entry for "car" has [percentageVsCar] exactly 100, in both
    implementations. *)
Theorem C10_car_is_100_percent (d c : number) :
  is_finite c = true -> gtb c zero = true ->
  (Calculator.calculateEmission d "car" = c ->
   (exists car,
      In car (Calculator.calculateAllModes d)
      /\ Calculator.mode car = "car"%string
      /\ Calculator.percentageVsCar car = of_Z 100)
   /\ forall x, In x (Calculator.calculateAllModes d) ->
                Calculator.mode x = "car"%string ->
                Calculator.percentageVsCar x = of_Z 100)
  /\ (calculator.calculateEmission d "car" = Ok c ->
      exists entries,
        calculator.calculateAllModes d = Ok entries
        /\ (exists car,
              In car entries
              /\ calculator.mode car = "car"%string
              /\ calculator.percentageVsCar car = of_Z 100)
        /\ forall x, In x entries ->
                     calculator.mode x = "car"%string ->
                     calculator.percentageVsCar x = of_Z 100).
Proof.
  intros Hfin Hpos.
  pose proof (finite_positive_self_ratio c Hfin Hpos) as Hratio.
  split.
  - intros Hc.
    assert (Hall : forall x, In x (Calculator.calculateAllModes d) ->
                     Calculator.mode x = "car"%string ->
                     Calculator.percentageVsCar x = of_Z 100).
    { intros x Hx Hmode.
      destruct (Calculator_allModes_entries d x Hx) as [_ Hp].
      rewrite Hp, Hmode, Hc, Hpos, Hratio. reflexivity. }
    split; [|exact Hall].
    assert (Hin : exists car, In car (Calculator.calculateAllModes d)
                              /\ Calculator.mode car = "car"%string).
    { unfold Calculator.calculateAllModes.
      eexists. split.
      - apply Array_sort_In, in_map_iff. exists "car"%string.
        split; [reflexivity|]. right. left. reflexivity.
      - reflexivity. }
    destruct Hin as (car & Hin & Hmode).
    exists car. auto.
  - intros Hc.
    assert (Hd : leb d zero = false).
    { unfold calculator.calculateEmission in Hc.
      now destruct (leb d zero). }
    destruct (calculator_allModes_entries d Hd)
      as (results & E & Hmodes & Hall).
    eexists. split; [exact E|].
    assert (H100 : forall x,
              In x (Array_sort (fun a b => sub (calculator.emission a)
                                               (calculator.emission b))
                               results) ->
              calculator.mode x = "car"%string ->
              calculator.percentageVsCar x = of_Z 100).
    { intros x Hx Hmode.
      apply Array_sort_In in Hx.
      destruct (Hall x Hx) as (m & c' & e & Hm & Hc' & He & _ & Hp).
      rewrite Hmode in Hm.
      assert (m = Spec.car) by (destruct m; (reflexivity || discriminate)).
      subst m. cbn [Spec.key] in He. rewrite Hc in Hc', He.
      injection Hc' as <-. injection He as <-.
      rewrite Hp, Hratio.
      destruct (positive_finite_inv c Hfin Hpos) as (mc & ec & ->).
      reflexivity. }
    split; [|exact H100].
    assert (Hcar : In "car"%string (map calculator.mode results)).
    { rewrite Hmodes. right. left. reflexivity. }
    apply in_map_iff in Hcar. destruct Hcar as (car & Hmode & Hin).
    apply (Array_sort_In
             (fun a b => sub (calculator.emission a) (calculator.emission b)))
      in Hin.
    exists car. auto.
Qed.

Lemma C10_car_is_100_percent_witness :
  exists entries car,
    calculator.calculateAllModes (of_Z 451) = Ok entries
    /\ In car entries
    /\ calculator.mode car = "car"%string
    /\ calculator.percentageVsCar car = of_Z 100.
Proof.
  destruct (proj2 (C10_car_is_100_percent (of_Z 451) (dec 5412 2)
                     eq_refl eq_refl) eq_refl)
    as (entries & E & (car & Hin & Hmode & Hp) & _).
  exists entries, car. auto.
Defined.


(** ** The comparison across modes *)

Lemma StronglySorted_weaken {A} (R R' : A -> A -> Prop) (l : list A) :
  (forall x y, In x l -> In y l -> R x y -> R' x y) ->
  StronglySorted R l -> StronglySorted R' l.
Proof.
  intros H Hs. induction Hs as [|x l Hs IH Hall]; constructor.
  - apply IH. intros y z Hy Hz. apply H; now right.
  - rewrite Forall_forall in *. intros y Hy.
    apply H; [now left | now right | now apply Hall].
Qed.

Lemma StronglySorted_map_inv {A B} (g : A -> B) (R : B -> B -> Prop)
  (l : list A) :
  StronglySorted R (map g l) ->
  StronglySorted (fun a b => R (g a) (g b)) l.
Proof.
  induction l as [|x l IH]; cbn [map]; intros Hs; constructor;
    apply StronglySorted_inv in Hs; destruct Hs as [Hs Hall].
  - now apply IH.
  - rewrite Forall_forall in *. intros y Hy. apply Hall. now apply in_map.
Qed.

Lemma round_scaled_proper (x : number) :
  proper x -> proper (Engine.round_scaled 2 x).
Proof.
  intros Hx. unfold Engine.round_scaled. rewrite hundred.
  apply div_proper_finite.
  apply Math_round_proper, mul_proper_finite; [exact Hx | reflexivity].
Qed.

Lemma declared_mode (k : string) :
  In k (Object.keys CONFIG.EMISSION_FACTORS) -> exists m, k = Spec.key m.
Proof.
  intros H. cbn in H.
  destruct H as [<-|[<-|[<-|[<-|[]]]]];
    [exists Spec.bicycle | exists Spec.car | exists Spec.bus | exists Spec.truck];
    reflexivity.
Qed.

Section Comparison.
Context {A : Type}.
Variables (mode : A -> string) (emission : A -> number).
Variable results : list A.
Hypothesis modes_declared :
  map mode results = map Spec.key Spec.all_modes.
Hypothesis emissions_proper :
  forall x, In x results -> proper (emission x).
Hypothesis bicycle_zero :
  forall x, In x results -> mode x = "bicycle"%string -> emission x = zero.

(** Sorting one entry per mode, in declaration order, by the difference
    of emissions yields a comparison as specified. *)
Lemma sorted_results_comparison :
  Engine.comparison mode emission
    (Array_sort (fun a b => sub (emission a) (emission b)) results).
Proof.
  set (cmp := fun a b => sub (emission a) (emission b)).
  pose proof (Array_sort_perm cmp results) as Hperm.
  assert (Hin : forall x, In x (Array_sort cmp results) -> In x results).
  { intros x. apply Array_sort_In. }
  assert (Hsorted :
    StronglySorted
      (sorted_before (fun x => scaled (emission x))
                     (fun x => Engine.declaration_index (mode x)))
      (Array_sort cmp results)).
  { apply Array_sort_sorted with (ok := fun x => proper (emission x)).
    - intros t x Ht Hx. unfold cmp.
      rewrite gtb_sub by assumption. now apply gtb_scaled.
    - apply Forall_forall. exact emissions_proper.
    - apply (StronglySorted_map_inv
               (fun x => Engine.declaration_index (mode x)) Z.lt).
      rewrite <- (map_map mode Engine.declaration_index), modes_declared.
      repeat constructor. }
  repeat split.
  - rewrite (Array_sort_length cmp results).
    rewrite <- (length_map mode), modes_declared. reflexivity.
  - rewrite <- modes_declared. symmetry. now apply Permutation_map.
  - revert Hsorted. apply StronglySorted_weaken.
    intros x y Hx Hy Hxy.
    rewrite leb_scaled by (apply emissions_proper; auto).
    apply Z.leb_le. unfold sorted_before in Hxy. lia.
  - revert Hsorted. apply StronglySorted_weaken.
    intros x y Hx Hy [Hlt|[Heq Hpos]]; [left|right].
    + rewrite ltb_scaled by (apply emissions_proper; auto).
      now apply Z.ltb_lt.
    + split; [|exact Hpos].
      rewrite eqb_scaled by (apply emissions_proper; auto).
      now apply Z.eqb_eq.
  - intros x Hx. apply bicycle_zero. auto.
Qed.

End Comparison.

(** C8: for every positive distance the comparison has exactly 4 entries,
    one per mode, in ascending order of emission, entries of equal
    emission in declaration order of their modes, and the bicycle's
    emission is 0; the second implementation returns it without
    raising. *)
Theorem C8_allModes_comparison (d : number) :
  Spec.positive_distance d ->
  Engine.comparison Calculator.mode Calculator.emission
    (Calculator.calculateAllModes d)
  /\ exists entries,
       calculator.calculateAllModes d = Ok entries
       /\ Engine.comparison calculator.mode calculator.emission entries.
Proof.
  intros Hd. pose proof Hd as (V & Hfin & Hpos).
  pose proof (positive_not_leb_zero d Hfin Hpos) as Hguard.
  split.
  - unfold Calculator.calculateAllModes.
    apply sorted_results_comparison.
    + rewrite map_map. reflexivity.
    + intros x Hx. apply in_map_iff in Hx. destruct Hx as (k & <- & Hk).
      cbn [Calculator.emission].
      destruct (declared_mode k Hk) as (m & ->).
      rewrite (Calculator_emission d m Hfin Hpos).
      apply Number_toFixed_proper.
      exact (rounded_proper _ _ (product_rounded d m Hd)).
    + intros x Hx Hm. apply in_map_iff in Hx. destruct Hx as (k & <- & _).
      cbn [Calculator.emission Calculator.mode] in *. subst k.
      destruct (positive_finite_inv d Hfin Hpos) as (md & ed & ->). reflexivity.
  - destruct (calculator_allModes_entries d Hguard)
      as (results & E & Hmodes & Hall).
    eexists. split; [exact E|].
    apply sorted_results_comparison.
    + exact Hmodes.
    + intros x Hx.
      destruct (Hall x Hx) as (m & c & e & _ & _ & He & <- & _).
      rewrite (calculator_emission d m Hguard) in He. injection He as <-.
      apply round_scaled_proper.
      exact (rounded_proper _ _ (product_rounded d m Hd)).
    + intros x Hx Hm.
      destruct (Hall x Hx) as (m & c & e & Hk & _ & He & <- & _).
      rewrite Hm in Hk.
      assert (m = Spec.bicycle) by (destruct m; (reflexivity || discriminate)).
      subst m. cbn [Spec.key] in He.
      destruct (positive_finite_inv d Hfin Hpos) as (md & ed & ->).
      now injection He as <-.
Qed.

Lemma C8_allModes_comparison_witness :
  Engine.comparison Calculator.mode Calculator.emission
    (Calculator.calculateAllModes (of_Z 451))
  /\ exists entries,
       calculator.calculateAllModes (of_Z 451) = Ok entries
       /\ Engine.comparison calculator.mode calculator.emission entries.
Proof.
  apply (C8_allModes_comparison (of_Z 451)). repeat split.
Defined.


(** * The enumeration of cities *)

Section OrderedSort.
Context {A : Type}.
Variable comparefn : A -> A -> number.
Variable le : A -> A -> Prop.
Hypothesis le_trans : forall x y z, le x y -> le y z -> le x z.
Hypothesis comparefn_le :
  forall t x, if gtb (comparefn t x) zero then le x t else le t x.

Lemma insert_left_ordered (x : A) (r : list A) :
  StronglySorted (fun t u => le u t) r ->
  StronglySorted (fun t u => le u t) (insert_left comparefn x r).
Proof.
  induction r as [|t r IH]; intros Hs; cbn [insert_left].
  - repeat constructor.
  - apply StronglySorted_inv in Hs. destruct Hs as [Hs Hall].
    pose proof (comparefn_le t x) as C.
    destruct (gtb (comparefn t x) zero).
    + constructor; [now apply IH|].
      rewrite <- (insert_left_perm comparefn x r).
      constructor; [exact C | exact Hall].
    + constructor; [now constructor|].
      constructor; [exact C|].
      rewrite Forall_forall in *. intros u Hu. eauto.
Qed.

(** With a comparison function that answers as a total order does, the
    sorted array is in ascending order. *)
Lemma Array_sort_ordered (a : list A) :
  StronglySorted le (Array_sort comparefn a).
Proof.
  apply StronglySorted_rev. unfold Array_sort.
  generalize (@nil A) (SSorted_nil (fun t u : A => le u t)).
  induction a as [|x a IH]; intros r Hr; cbn [fold_left]; [exact Hr|].
  apply IH. now apply insert_left_ordered.
Qed.

End OrderedSort.

Section Cities.

Lemma string_compare_refl (s : string) : String.compare s s = Eq.
Proof.
  induction s as [|c s IH]; cbn [String.compare]; [reflexivity|].
  unfold Ascii.compare. now rewrite N.compare_refl.
Qed.

Lemma string_compare_trans (c : comparison) (x y z : string) :
  String.compare x y = c -> String.compare y z = c -> String.compare x z = c.
Proof.
  revert y z. induction x as [|a x IH]; intros [|b y] [|d z];
    cbn [String.compare]; try congruence.
  unfold Ascii.compare.
  destruct (N.compare_spec (N_of_ascii a) (N_of_ascii b)) as [E1|L1|G1];
    destruct (N.compare_spec (N_of_ascii b) (N_of_ascii d)) as [E2|L2|G2];
    intros H1 H2; try congruence.
  - rewrite E1, E2, N.compare_refl. eauto.
  - rewrite E1. now apply N.compare_lt_iff in L2 as ->.
  - rewrite E1. now apply N.compare_gt_iff in G2 as ->.
  - rewrite <- E2. now apply N.compare_lt_iff in L1 as ->.
  - assert (L : (N_of_ascii a < N_of_ascii d)%N) by lia.
    now apply N.compare_lt_iff in L as ->.
  - rewrite <- E2. now apply N.compare_gt_iff in G1 as ->.
  - assert (G : (N_of_ascii d < N_of_ascii a)%N) by lia.
    now apply N.compare_gt_iff in G as ->.
Qed.

Lemma string_leb_trans (x y z : string) :
  String.leb x y = true -> String.leb y z = true -> String.leb x z = true.
Proof.
  unfold String.leb. intros H1 H2.
  destruct (String.compare x y) eqn:E1; try discriminate;
    destruct (String.compare y z) eqn:E2; try discriminate.
  - apply String.compare_eq_iff in E1, E2. subst.
    now rewrite string_compare_refl.
  - apply String.compare_eq_iff in E1. subst. now rewrite E2.
  - apply String.compare_eq_iff in E2. subst. now rewrite E1.
  - now rewrite (string_compare_trans Lt x y z E1 E2).
Qed.

Lemma SortCompare_leb (t x : string) :
  if gtb (ES.SortCompare t x) zero
  then String.leb x t = true else String.leb t x = true.
Proof.
  unfold ES.SortCompare, String.ltb, String.leb.
  rewrite (String.compare_antisym t x).
  destruct (String.compare x t); reflexivity.
Qed.

(** [sort()] puts strings in ascending order and permutes them. *)
Lemma sort_ordered (a : list string) :
  StronglySorted (fun x y => String.leb x y = true) (ES.sort a).
Proof.
  apply Array_sort_ordered.
  - apply string_leb_trans.
  - apply SortCompare_leb.
Qed.

Lemma Set_add_In (set : list string) (x y : string) :
  In y (ES.Set_add set x) <-> In y set \/ y = x.
Proof.
  unfold ES.Set_add. destruct (existsb (String.eqb x) set) eqn:E.
  - apply existsb_exists in E. destruct E as (z & Hz & E).
    apply String.eqb_eq in E. subst z. split; [tauto|].
    intros [H| ->]; assumption.
  - rewrite in_app_iff. cbn [In]. split.
    + intros [H|[<-|[]]]; auto.
    + intros [H| ->]; auto.
Qed.

Lemma Set_add_NoDup (set : list string) (x : string) :
  NoDup set -> NoDup (ES.Set_add set x).
Proof.
  intros H. unfold ES.Set_add.
  destruct (existsb (String.eqb x) set) eqn:E; [exact H|].
  apply NoDup_app; [exact H | repeat constructor; intros [] |].
  intros y Hy [Exy|[]]. subst y.
  assert (existsb (String.eqb x) set = true); [|congruence].
  apply existsb_exists. exists x. split; [exact Hy | apply String.eqb_refl].
Qed.

Lemma Set_fold_spec (array set : list string) :
  NoDup set ->
  NoDup (fold_left ES.Set_add array set)
  /\ forall y, In y (fold_left ES.Set_add array set) <-> In y set \/ In y array.
Proof.
  revert set. induction array as [|x array IH]; intros set Hset;
    cbn [fold_left].
  - split; [exact Hset|]. intros y. cbn [In]. tauto.
  - destruct (IH (ES.Set_add set x) (Set_add_NoDup set x Hset)) as [N M].
    split; [exact N|]. intros y. rewrite M, Set_add_In. cbn [In].
    split; intros H; intuition (subst; auto).
Qed.

(** The names pushed by the second implementation, as one list. *)
Lemma pushed_names (routes : list Route) (names : list string) :
  fold_left
    (fun cities route => ((cities ++ [origin route]) ++ [destination route])%list)
    routes names
  = (names ++ flat_map (fun r => [origin r; destination r]) routes)%list.
Proof.
  revert names. induction routes as [|r routes IH]; intros names;
    cbn [fold_left flat_map].
  - now rewrite app_nil_r.
  - rewrite IH, <- !app_assoc. reflexivity.
Qed.

(** The set built by the first implementation is the set of those names. *)
Lemma added_names (routes : list Route) (set : list string) :
  fold_left
    (fun cities route =>
       ES.Set_add (ES.Set_add cities (origin route)) (destination route))
    routes set
  = fold_left ES.Set_add
      (flat_map (fun r => [origin r; destination r]) routes) set.
Proof.
  revert set. induction routes as [|r routes IH]; intros set;
    cbn [fold_left flat_map app]; [reflexivity | apply IH].
Qed.

Lemma getAllCities_agree (routes : list Route) :
  Cities_var.getAllCities routes = Cities_const.getAllCities routes.
Proof.
  unfold Cities_var.getAllCities, Cities_const.getAllCities, ES.Set_of.
  now rewrite added_names, (pushed_names routes []).
Qed.

(** X1: on every table the two implementations of [getAllCities] return
    the same array. *)
Theorem X1_getAllCities_agree (routes : list Route) :
  Cities_var.getAllCities routes = Cities_const.getAllCities routes.
Proof. apply getAllCities_agree. Qed.

Lemma cities_set_spec (routes : list Route) :
  let set := fold_left ES.Set_add
               (flat_map (fun r => [origin r; destination r]) routes) [] in
  NoDup set
  /\ forall c, In c set <->
               exists r, In r routes /\ (c = origin r \/ c = destination r).
Proof.
  cbv zeta.
  destruct (Set_fold_spec
              (flat_map (fun r => [origin r; destination r]) routes) [])
    as [N M]; [constructor|].
  split; [exact N|]. intros c. rewrite M, in_flat_map. cbn [In].
  split.
  - intros [[]|(r & Hr & [H|[H|[]]])]; exists r; auto.
  - intros (r & Hr & [H|H]); right; exists r; auto.
Qed.

Lemma getAllCities_members (routes : list Route) (c : string) :
  In c (Cities_const.getAllCities routes)
  <-> exists r, In r routes /\ (c = origin r \/ c = destination r).
Proof.
  unfold Cities_const.getAllCities, ES.sort.
  rewrite Array_sort_In, added_names.
  apply (proj2 (cities_set_spec routes)).
Qed.

(** X2: in both implementations [getAllCities] returns exactly the names
    that are the origin or the destination of a route of the table. *)
Theorem X2_getAllCities_members (routes : list Route) (c : string) :
  (In c (Cities_const.getAllCities routes)
   <-> exists r, In r routes /\ (c = origin r \/ c = destination r))
  /\ (In c (Cities_var.getAllCities routes)
      <-> exists r, In r routes /\ (c = origin r \/ c = destination r)).
Proof.
  rewrite getAllCities_agree. split; apply getAllCities_members.
Qed.

(** X3: in both implementations the array [getAllCities] returns is in
    strictly ascending order of code units, so no city is listed twice. *)
Theorem X3_getAllCities_strictly_sorted (routes : list Route) :
  StronglySorted (fun x y => String.ltb x y = true)
    (Cities_const.getAllCities routes)
  /\ StronglySorted (fun x y => String.ltb x y = true)
       (Cities_var.getAllCities routes).
Proof.
  rewrite getAllCities_agree.
  assert (H : StronglySorted (fun x y => String.ltb x y = true)
                (Cities_const.getAllCities routes)); [|now split].
  unfold Cities_const.getAllCities. rewrite added_names.
  pose proof (proj1 (cities_set_spec routes)) as N. cbv zeta in N.
  set (set := fold_left ES.Set_add _ []) in *.
  pose proof (sort_ordered set) as S.
  assert (N' : NoDup (ES.sort set)).
  { eapply Permutation_NoDup; [|exact N]. apply Array_sort_perm. }
  induction S as [|x l S IH Hall]; constructor.
  - apply IH. now inversion N'.
  - inversion N' as [|? ? Hx _]; subst.
    rewrite Forall_forall in *. intros y Hy. specialize (Hall y Hy).
    unfold String.ltb, String.leb in *.
    destruct (String.compare x y) eqn:E; try discriminate; [|reflexivity].
    apply String.compare_eq_iff in E. subst. contradiction.
Qed.

(** Every route of either table is found from its own two names, in
    either direction, with the distance it stores: where a table lists a
    pair twice, the two entries agree. *)
Lemma stored_routes_const :
  Forall (fun r =>
            RoutesDB_const.findDistance (origin r) (destination r)
            = Some (distanceKm r)
            /\ RoutesDB_const.findDistance (destination r) (origin r)
               = Some (distanceKm r))
         RoutesDB_const.routes.
Proof.
  unfold RoutesDB_const.routes.
  repeat (apply Forall_cons; [split; vm_compute; reflexivity|]).
  apply Forall_nil.
Qed.

Lemma stored_routes_var :
  Forall (fun r =>
            RoutesDB_var.findDistance (origin r) (destination r)
            = Some (distanceKm r)
            /\ RoutesDB_var.findDistance (destination r) (origin r)
               = Some (distanceKm r))
         RoutesDB_var.routes.
Proof.
  unfold RoutesDB_var.routes.
  repeat (apply Forall_cons; [split; vm_compute; reflexivity|]).
  apply Forall_nil.
Qed.

(** X4: a route stored in a table is found by that table's lookup from
    its own origin and destination, in either direction, and the distance
    returned is the one the route stores. *)
Theorem X4_stored_routes_found (r : Route) :
  (In r RoutesDB_const.routes ->
   RoutesDB_const.findDistance (origin r) (destination r)
   = Some (distanceKm r)
   /\ RoutesDB_const.findDistance (destination r) (origin r)
      = Some (distanceKm r))
  /\ (In r RoutesDB_var.routes ->
      RoutesDB_var.findDistance (origin r) (destination r)
      = Some (distanceKm r)
      /\ RoutesDB_var.findDistance (destination r) (origin r)
         = Some (distanceKm r)).
Proof.
  split; intros H.
  - exact (proj1 (Forall_forall _ _) stored_routes_const r H).
  - exact (proj1 (Forall_forall _ _) stored_routes_var r H).
Qed.

Lemma X4_stored_routes_found_witness :
  RoutesDB_var.findDistance "Hamilton, ON" "Toronto, ON" = Some (of_Z 68)
  /\ RoutesDB_var.findDistance "Toronto, ON" "Hamilton, ON" = Some (of_Z 68).
Proof.
  refine (proj2 (X4_stored_routes_found (route "Hamilton, ON" "Toronto, ON" 68)) _).
  unfold RoutesDB_var.routes. do 14 right. left. reflexivity.
Defined.

Lemma no_route_to_itself :
  Forall (fun r => String.eqb (origin r) (destination r) = false)
         RoutesDB_const.routes
  /\ Forall (fun r => String.eqb (origin r) (destination r) = false)
            RoutesDB_var.routes.
Proof.
  split.
  - unfold RoutesDB_const.routes.
    repeat (apply Forall_cons; [reflexivity|]). apply Forall_nil.
  - unfold RoutesDB_var.routes.
    repeat (apply Forall_cons; [reflexivity|]). apply Forall_nil.
Qed.

Lemma city_has_partner (routes : list Route)
  (findDistance : string -> string -> option number) (c : string) :
  Forall (fun r =>
            findDistance (origin r) (destination r) = Some (distanceKm r)
            /\ findDistance (destination r) (origin r) = Some (distanceKm r))
         routes ->
  Forall (fun r => String.eqb (origin r) (destination r) = false) routes ->
  (forall r, In r routes -> Spec.well_formed r = true) ->
  In c (Cities_const.getAllCities routes) ->
  exists c' km,
    c' <> c
    /\ In c' (Cities_const.getAllCities routes)
    /\ findDistance c c' = Some km /\ ltb zero km = true.
Proof.
  intros Hfound Hself Hwf Hc. rewrite Forall_forall in Hfound, Hself.
  apply getAllCities_members in Hc. destruct Hc as (r & Hr & Hc).
  destruct (Hfound r Hr) as [Hod Hdo].
  assert (Hne : origin r <> destination r).
  { apply String.eqb_neq. exact (Hself r Hr). }
  assert (Hpos : ltb zero (distanceKm r) = true).
  { specialize (Hwf r Hr). unfold Spec.well_formed in Hwf.
    apply andb_prop in Hwf. destruct Hwf as [Hwf _].
    apply andb_prop in Hwf. now destruct Hwf. }
  destruct Hc as [-> | ->].
  - exists (destination r), (distanceKm r).
    split; [congruence|]. repeat split; try assumption.
    apply getAllCities_members. exists r. auto.
  - exists (origin r), (distanceKm r).
    split; [exact Hne|]. repeat split; try assumption.
    apply getAllCities_members. exists r. auto.
Qed.

(** X5: every city [getAllCities] offers for a table has at least one
    other listed city, different from itself, to which that table's
    lookup knows a distance, and that distance is strictly positive. *)
Theorem X5_listed_city_has_route (c : string) :
  (In c (Cities_const.getAllCities RoutesDB_const.routes) ->
   exists c' km,
     c' <> c
     /\ In c' (Cities_const.getAllCities RoutesDB_const.routes)
     /\ RoutesDB_const.findDistance c c' = Some km /\ ltb zero km = true)
  /\ (In c (Cities_var.getAllCities RoutesDB_var.routes) ->
      exists c' km,
        c' <> c
        /\ In c' (Cities_var.getAllCities RoutesDB_var.routes)
        /\ RoutesDB_var.findDistance c c' = Some km /\ ltb zero km = true).
Proof.
  split.
  - apply city_has_partner;
      [ exact stored_routes_const | exact (proj1 no_route_to_itself)
      | exact routes_const_well_formed ].
  - rewrite getAllCities_agree. apply city_has_partner;
      [ exact stored_routes_var | exact (proj2 no_route_to_itself)
      | exact routes_var_well_formed ].
Qed.

Lemma X5_listed_city_has_route_witness :
  exists c' km,
    c' <> "Hamilton, ON"
    /\ In c' (Cities_var.getAllCities RoutesDB_var.routes)
    /\ RoutesDB_var.findDistance "Hamilton, ON" c' = Some km
    /\ ltb zero km = true.
Proof.
  refine (proj2 (X5_listed_city_has_route "Hamilton, ON") _).
  vm_compute. tauto.
Defined.

End Cities.


(** * The figures of one submission *)

Section Figures.

Lemma nonneg_nan_or_proper (x : number) :
  Engine.nonneg x -> x = NaN \/ proper x.
Proof. intros [->|H]; [now left | right; exact (rounded_proper _ _ H)]. Qed.

Lemma nonneg_zero : Engine.nonneg zero.
Proof. right. split; [reflexivity | now left]. Qed.

Lemma mul_nonneg (x y : number) :
  Engine.nonneg x -> Engine.nonneg y -> Engine.nonneg (mul x y).
Proof.
  intros [->|[Vx [->|[->|(mx & ex & ->)]]]] [->|[Vy [->|[->|(my & ey & ->)]]]];
    try (now left);
    try (right; split; [reflexivity | now left]);
    try (right; split; [reflexivity | now right; left]).
  right. exact (mul_finite_rounded false false _ _ _ _ Vx Vy).
Qed.

Lemma div_nonneg (x y : number) :
  Engine.nonneg x -> Engine.nonneg y -> Engine.nonneg (div x y).
Proof.
  intros [->|[Vx [->|[->|(mx & ex & ->)]]]] [->|[Vy [->|[->|(my & ey & ->)]]]];
    try (now left);
    try (right; split; [reflexivity | now left]);
    try (right; split; [reflexivity | now right; left]).
  right. exact (div_finite_rounded false false _ _ _ _).
Qed.

Lemma add_nonneg (x y : number) :
  Engine.nonneg x -> Engine.nonneg y -> Engine.nonneg (add x y).
Proof.
  intros [->|[Vx [->|[->|(mx & ex & ->)]]]] [->|[Vy [->|[->|(my & ey & ->)]]]];
    try (now left);
    try (right; split; [reflexivity | now left]);
    try (right; split; [reflexivity | now right; left]);
    try (right; split; [assumption | right; right; do 2 eexists; reflexivity]).
  right. unfold add. cbn [SFadd cond_Zopp Z.add binary_normalize].
  apply binary_round_rounded.
Qed.

Lemma of_Z_nonneg (z : Z) : 0 <= z -> Engine.nonneg (of_Z z).
Proof.
  intros H. right. pose proof (of_Z_rounded z) as R.
  destruct (Z.ltb_spec z 0); [lia | exact R].
Qed.

Lemma round_scaled_nonneg_at (k : Z) (x : number) :
  0 <= k -> Engine.nonneg x -> Engine.nonneg (Engine.round_scaled k x).
Proof.
  intros Hk H. unfold Engine.round_scaled.
  assert (P : Engine.nonneg (of_Z (10 ^ k)))
    by (apply of_Z_nonneg, Z.pow_nonneg; lia).
  apply div_nonneg; [|exact P].
  apply Math_round_nonneg, mul_nonneg; [exact H | exact P].
Qed.

Lemma factor_nonneg (m : Spec.TransportMode) : Engine.nonneg (Spec.factor m).
Proof.
  destruct (factor_shape m) as [->|(mf & ef & -> & V)].
  - apply nonneg_zero.
  - right. split; [exact V | right; right; eauto].
Qed.

(** A distance that [distance <= 0] does not reject is positive, infinite
    or [NaN]. *)
Lemma accepted_distance_nonneg (d : number) :
  valid d = true -> leb d zero = false -> Engine.nonneg d.
Proof.
  intros V L. destruct d as [s|s| |s m e]; try discriminate.
  - destruct s; [discriminate|]. right. split; [reflexivity | now right; left].
  - now left.
  - destruct s; [discriminate|]. right. split; [exact V | right; right; eauto].
Qed.

Lemma sub_nan_or_proper (x y : number) :
  x = NaN \/ proper x -> y = NaN \/ proper y ->
  sub x y = NaN \/ proper (sub x y).
Proof.
  intros [->|Hx] [->|Hy]; [now left | now left | left | now apply sub_proper].
  now destruct x.
Qed.

Lemma calculateSavings_nonneg (emission baseline : number) :
  Engine.nonneg emission -> Engine.nonneg baseline ->
  exists s,
    calculator.calculateSavings emission baseline = Ok s
    /\ Engine.nonneg (calculator.savedKg s)
    /\ Engine.nonneg (calculator.percentage s).
Proof.
  intros He Hb. unfold calculator.calculateSavings.
  destruct (leb baseline zero).
  - eexists. split; [reflexivity|]. split; apply nonneg_zero.
  - eexists. split; [reflexivity|]. cbn [calculator.savedKg calculator.percentage].
    assert (S : Engine.nonneg (Math_max0 (sub baseline emission))).
    { apply Math_max0_nonneg, sub_nan_or_proper; now apply nonneg_nan_or_proper. }
    split.
    + apply (round_scaled_nonneg_at 2); [lia | exact S].
    + apply (round_scaled_nonneg_at 2); [lia|].
      apply mul_nonneg; [|apply of_Z_nonneg; lia].
      now apply div_nonneg.
Qed.

Lemma calculateCarbonCredits_nonneg (emissionKg : number) :
  Engine.nonneg emissionKg ->
  exists credits,
    calculator.calculateCarbonCredits emissionKg = Ok credits
    /\ Engine.nonneg credits.
Proof.
  intros H. unfold calculator.calculateCarbonCredits.
  rewrite (nonneg_not_negative _ H). eexists. split; [reflexivity|].
  apply (round_scaled_nonneg_at 4); [lia|].
  apply div_nonneg; [exact H | apply of_Z_nonneg; lia].
Qed.

Lemma estimateCreditPrice_nonneg (credits : number) :
  Engine.nonneg credits ->
  exists p,
    calculator.estimateCreditPrice credits = Ok p
    /\ Engine.nonneg (calculator.min p)
    /\ Engine.nonneg (calculator.max p)
    /\ Engine.nonneg (calculator.average p).
Proof.
  intros H. unfold calculator.estimateCreditPrice.
  rewrite (nonneg_not_negative _ H). eexists. split; [reflexivity|].
  cbn [calculator.min calculator.max calculator.average].
  assert (Hmin : Engine.nonneg (mul credits CONFIG.PRICE_MIN_USD))
    by (apply mul_nonneg; [exact H | apply of_Z_nonneg; lia]).
  assert (Hmax : Engine.nonneg (mul credits CONFIG.PRICE_MAX_USD))
    by (apply mul_nonneg; [exact H | apply of_Z_nonneg; lia]).
  repeat split; apply (round_scaled_nonneg_at 2); try lia; try assumption.
  apply div_nonneg; [now apply add_nonneg | apply of_Z_nonneg; lia].
Qed.

Lemma validated_distance (formData : app_iife.formData) :
  app_iife.validateFormData formData = None ->
  is_nan (app_iife.distance formData) = false
  /\ leb (app_iife.distance formData) zero = false
  /\ exists t, app_iife.transport formData = Some t
               /\ JSString.falsy t = false.
Proof.
  unfold app_iife.validateFormData, ES.isNaN.
  destruct (JSString.falsy (app_iife.origin formData)); [discriminate|].
  destruct (JSString.falsy (app_iife.destination formData)); [discriminate|].
  destruct (is_nan (app_iife.distance formData)); [discriminate|].
  destruct (leb (app_iife.distance formData) zero); [discriminate|].
  cbn [orb].
  destruct (app_iife.transport formData) as [t|]; [|discriminate].
  destruct (JSString.falsy t) eqn:F; [discriminate|]. intros _.
  repeat split. now exists t.
Qed.

(** X6: when the form passes [validateFormData] and the selected mode is
    one of the four, [performCalculations] raises nothing, the two
    emissions are the rounded products of the distance and the factors,
    and no figure handed to the renderers is below zero. *)
Theorem X6_performCalculations_figures (formData : app_iife.formData)
  (m : Spec.TransportMode) :
  valid (app_iife.distance formData) = true ->
  app_iife.validateFormData formData = None ->
  app_iife.transport formData = Some (Spec.key m) ->
  exists f,
    app_iife.performCalculations formData = Ok f
    /\ app_iife.selectedEmission f
       = Engine.round_scaled 2 (mul (app_iife.distance formData) (Spec.factor m))
    /\ app_iife.carEmission f
       = Engine.round_scaled 2
           (mul (app_iife.distance formData) (Spec.factor Spec.car))
    /\ ltb (app_iife.selectedEmission f) zero = false
    /\ ltb (app_iife.carEmission f) zero = false
    /\ ltb (calculator.savedKg (app_iife.savings f)) zero = false
    /\ ltb (calculator.percentage (app_iife.savings f)) zero = false
    /\ ltb (app_iife.creditsNeeded f) zero = false
    /\ ltb (calculator.min (app_iife.creditPrice f)) zero = false
    /\ ltb (calculator.max (app_iife.creditPrice f)) zero = false
    /\ ltb (calculator.average (app_iife.creditPrice f)) zero = false.
Proof.
  intros V Hv Ht. destruct (validated_distance _ Hv) as (_ & L & _).
  set (d := app_iife.distance formData) in *.
  pose proof (accepted_distance_nonneg d V L) as Hd.
  assert (E : forall m', Engine.nonneg
                (Engine.round_scaled 2 (mul d (Spec.factor m')))).
  { intros m'. apply (round_scaled_nonneg_at 2); [lia|].
    apply mul_nonneg; [exact Hd | apply factor_nonneg]. }
  destruct (calculateSavings_nonneg _ _ (E m) (E Spec.car))
    as (s & Hs & Hs1 & Hs2).
  destruct (calculator_allModes_entries d L) as (results & Hall & _).
  destruct (calculateCarbonCredits_nonneg _ (E m)) as (c & Hc & Hc1).
  destruct (estimateCreditPrice_nonneg _ Hc1) as (p & Hp & Hp1 & Hp2 & Hp3).
  unfold app_iife.performCalculations. fold d. rewrite Ht.
  cbn [app_iife.property_name].
  rewrite (calculator_emission d m L).
  change "car" with (Spec.key Spec.car).
  rewrite (calculator_emission d Spec.car L).
  cbn [calculator.bind]. rewrite Hs. cbn [calculator.bind].
  rewrite Hall. cbn [calculator.bind]. rewrite Hc. cbn [calculator.bind].
  rewrite Hp. cbn [calculator.bind].
  eexists. split; [reflexivity|].
  cbn [app_iife.selectedEmission app_iife.carEmission app_iife.savings
       app_iife.creditsNeeded app_iife.creditPrice].
  repeat split; try reflexivity; now apply nonneg_not_negative.
Qed.

Lemma X6_performCalculations_figures_witness :
  exists f,
    app_iife.performCalculations
      {| app_iife.origin := "Toronto, ON";
         app_iife.destination := "Ottawa, ON";
         app_iife.distance := of_Z 451;
         app_iife.transport := Some "bus" |} = Ok f
    /\ app_iife.selectedEmission f = dec 4014 2
    /\ ltb (calculator.savedKg (app_iife.savings f)) zero = false.
Proof.
  destruct (X6_performCalculations_figures
              {| app_iife.origin := "Toronto, ON";
                 app_iife.destination := "Ottawa, ON";
                 app_iife.distance := of_Z 451;
                 app_iife.transport := Some "bus" |} Spec.bus)
    as (f & Hf & He & _ & _ & _ & Hs & _); try reflexivity.
  exists f. split; [exact Hf|]. split; [|exact Hs].
  rewrite He. reflexivity.
Defined.

Lemma not_a_mode (t : string) :
  (forall m, t <> Spec.key m) ->
  Object.own CONFIG.EMISSION_FACTORS t = None.
Proof.
  intros H. apply hasOwnProperty_factors. intros Hin.
  apply in_map_iff in Hin. destruct Hin as (m & E & _).
  exact (H m (eq_sym E)).
Qed.

Lemma handleFormSubmit_accepted (origin destination : string) (d : number)
  (transportMode : string) :
  JSString.falsy origin = false -> JSString.falsy destination = false ->
  JSString.falsy transportMode = false ->
  is_finite d = true -> ltb zero d = true ->
  app.handleFormSubmit origin destination d transportMode
  = let emission := Calculator.calculateEmission d transportMode in
    let credits := Calculator.calculateCarbonCredits emission in
    app.Computed
      {| app.emission := emission;
         app.carEmission := Calculator.calculateEmission d "car";
         app.savings :=
           Calculator.calculateSavingd emission
             (Calculator.calculateEmission d "car");
         app.allModesComparison := Calculator.calculateAllModes d;
         app.credits := credits;
         app.creditPrice := Calculator.estimatedCreditPrice credits |}.
Proof.
  intros Ho Hd Ht Hfin Hpos. unfold app.handleFormSubmit.
  rewrite Ho, Hd, Ht, (positive_not_leb_zero d Hfin Hpos).
  destruct (positive_finite_inv d Hfin Hpos) as (m & e & ->). reflexivity.
Qed.

(** X7: a transport mode outside the four.  The second handler computes
    nothing: its first step raises the unknown-mode error.  The first
    handler computes, for a name that objects do not inherit, exactly the
    figures it computes for the bicycle. *)
Theorem X7_unknown_mode_submitted (t : string) :
  (forall m, t <> Spec.key m) ->
  (forall formData,
     app_iife.validateFormData formData = None ->
     app_iife.transport formData = Some t ->
     app_iife.performCalculations formData
     = Throw (calculator.unknown_mode t))
  /\ (forall origin destination d,
        ~ In t Object.prototype_names ->
        JSString.falsy t = false ->
        is_finite d = true ->
        app.handleFormSubmit origin destination d t
        = app.handleFormSubmit origin destination d "bicycle").
Proof.
  intros Ht. pose proof (not_a_mode t Ht) as Hown. split.
  - intros formData Hv E. destruct (validated_distance _ Hv) as (_ & L & _).
    unfold app_iife.performCalculations, calculator.calculateEmission,
      Object.hasOwnProperty.
    rewrite E, L. cbn [app_iife.property_name]. rewrite Hown. reflexivity.
  - intros origin destination d Hp Hf Hfin.
    assert (E : Calculator.calculateEmission d t = zero).
    { unfold Calculator.calculateEmission, Object.get. rewrite Hown.
      destruct (existsb (String.eqb t) Object.prototype_names) eqn:Ex;
        [|reflexivity].
      apply existsb_exists in Ex. destruct Ex as (k & Hk & Ex).
      apply String.eqb_eq in Ex. subst k. contradiction. }
    assert (B : Calculator.calculateEmission d "bicycle" = zero).
    { destruct d as [s|s| |s m e]; try discriminate.
      - now destruct s.
      - unfold Calculator.calculateEmission.
        destruct (_ || _); reflexivity. }
    unfold app.handleFormSubmit. rewrite Hf, E, B. reflexivity.
Qed.

Lemma X7_unknown_mode_submitted_witness :
  app_iife.performCalculations
    {| app_iife.origin := "Toronto, ON";
       app_iife.destination := "Ottawa, ON";
       app_iife.distance := of_Z 451;
       app_iife.transport := Some "plane" |}
  = Throw "Unknown transport mode: plane"
  /\ app.handleFormSubmit "Toronto, ON" "Ottawa, ON" (of_Z 451) "plane"
     = app.handleFormSubmit "Toronto, ON" "Ottawa, ON" (of_Z 451) "bicycle".
Proof.
  assert (H : forall m, "plane" <> Spec.key m) by (intros []; discriminate).
  split.
  - apply (proj1 (X7_unknown_mode_submitted "plane" H)); reflexivity.
  - apply (proj2 (X7_unknown_mode_submitted "plane" H)); try reflexivity.
    simpl. intuition discriminate.
Defined.

Lemma sub_self (c : number) :
  valid c = true -> is_finite c = true -> sub c c = zero.
Proof.
  intros V F. destruct c as [s|s| |s m e]; try discriminate.
  - now destruct s.
  - pose proof (sub_finite_sign s s m m e e V V) as H. cbv zeta in H.
    now rewrite Z.compare_refl in H.
Qed.

Lemma not_leb_zero_positive (c : number) :
  is_finite c = true -> leb c zero = false ->
  exists m e, c = S754_finite false m e.
Proof.
  intros F L. destruct c as [s|s| |s m e]; try discriminate.
  destruct s; [discriminate | eauto].
Qed.

(** A journey compared with itself saves nothing, in either
    implementation. *)
Lemma savings_against_itself (c : number) :
  valid c = true -> is_finite c = true ->
  Calculator.calculateSavingd c c
  = {| Calculator.savedKg := zero; Calculator.percentage := zero |}
  /\ calculator.calculateSavings c c
     = Ok {| calculator.savedKg := zero; calculator.percentage := zero |}.
Proof.
  intros V F.
  unfold Calculator.calculateSavingd, calculator.calculateSavings.
  destruct (leb c zero) eqn:L; [now split|].
  rewrite (sub_self c V F).
  destruct (not_leb_zero_positive c F L) as (m & e & ->).
  split; reflexivity.
Qed.

(** X8: when the car is the selected mode and its emission is finite, both
    handlers report savings of 0 kg and 0 %. *)
Theorem X8_car_saves_nothing (origin destination : string) (d : number) :
  JSString.falsy origin = false -> JSString.falsy destination = false ->
  valid d = true -> is_finite d = true -> ltb zero d = true ->
  (is_finite (Calculator.calculateEmission d "car") = true ->
   exists f,
     app.handleFormSubmit origin destination d "car" = app.Computed f
     /\ app.savings f
        = {| Calculator.savedKg := zero; Calculator.percentage := zero |})
  /\ (forall c,
        calculator.calculateEmission d "car" = Ok c ->
        is_finite c = true ->
        exists f,
          app_iife.performCalculations
            {| app_iife.origin := origin;
               app_iife.destination := destination;
               app_iife.distance := d;
               app_iife.transport := Some "car" |} = Ok f
          /\ app_iife.savings f
             = {| calculator.savedKg := zero;
                  calculator.percentage := zero |}).
Proof.
  intros Ho Hd V Hfin Hpos.
  pose proof (positive_not_leb_zero d Hfin Hpos) as L.
  assert (Hp : proper (mul d (Spec.factor Spec.car))).
  { apply (rounded_proper false), product_rounded. now repeat split. }
  split.
  - intros F. eexists. split.
    + now apply handleFormSubmit_accepted.
    + cbn [app.savings].
      apply savings_against_itself; [|exact F].
      change "car" with (Spec.key Spec.car).
      rewrite (Calculator_emission d Spec.car Hfin Hpos).
      now apply Number_toFixed_proper.
  - intros c Hc0 F. pose proof Hc0 as Hc.
    change "car" with (Spec.key Spec.car) in Hc.
    rewrite (calculator_emission d Spec.car L) in Hc. injection Hc as Hc.
    assert (Vc : valid c = true).
    { rewrite <- Hc. now apply round_scaled_proper. }
    assert (Nc : Engine.nonneg c).
    { rewrite <- Hc. apply (round_scaled_nonneg_at 2); [lia|].
      apply mul_nonneg; [now apply accepted_distance_nonneg|].
      exact (factor_nonneg Spec.car). }
    destruct (calculator_allModes_entries d L) as (results & Hall & _).
    destruct (calculateCarbonCredits_nonneg c Nc) as (k & Hk & Nk).
    destruct (estimateCreditPrice_nonneg k Nk) as (p & Hp' & _).
    unfold app_iife.performCalculations.
    cbn [app_iife.distance app_iife.transport app_iife.property_name].
    rewrite Hc0. cbn [calculator.bind].
    rewrite (proj2 (savings_against_itself c Vc F)). cbn [calculator.bind].
    rewrite Hall. cbn [calculator.bind]. rewrite Hk. cbn [calculator.bind].
    rewrite Hp'. cbn [calculator.bind].
    eexists. split; reflexivity.
Qed.

Lemma X8_car_saves_nothing_witness :
  exists f,
    app.handleFormSubmit "Toronto, ON" "Ottawa, ON" (of_Z 451) "car"
    = app.Computed f
    /\ app.savings f
       = {| Calculator.savedKg := zero; Calculator.percentage := zero |}.
Proof.
  apply (X8_car_saves_nothing "Toronto, ON" "Ottawa, ON" (of_Z 451));
    reflexivity.
Defined.

Lemma positive_shape (c : number) :
  is_finite c = true -> gtb c zero = true ->
  exists m e, c = S754_finite false m e.
Proof. intros F G. exact (positive_finite_inv c F G). Qed.

(** Against a finite positive baseline an emission of 0 saves the whole
    baseline, 100 %. *)
Lemma savings_of_no_emission (c : number) :
  is_finite c = true -> gtb c zero = true ->
  Calculator.calculateSavingd zero c
  = {| Calculator.savedKg := Number_toFixed 2 c;
       Calculator.percentage := of_Z 100 |}
  /\ calculator.calculateSavings zero c
     = Ok {| calculator.savedKg := Engine.round_scaled 2 c;
             calculator.percentage := of_Z 100 |}.
Proof.
  intros F G. destruct (positive_shape c F G) as (m & e & ->).
  unfold Calculator.calculateSavingd, calculator.calculateSavings.
  change (leb (S754_finite false m e) zero) with false. cbv iota.
  change (sub (S754_finite false m e) zero) with (S754_finite false m e).
  change (Math_max0 (S754_finite false m e)) with (S754_finite false m e).
  rewrite div_self. split; reflexivity.
Qed.

(** X9: when the bicycle is selected and the car's emission is finite and
    above 0, both handlers report an emission of 0, savings of 100 % (the
    whole car emission), no credits and a price of 0. *)
Theorem X9_bicycle_figures (origin destination : string) (d : number) :
  JSString.falsy origin = false -> JSString.falsy destination = false ->
  valid d = true -> is_finite d = true -> ltb zero d = true ->
  (forall c,
     Calculator.calculateEmission d "car" = c ->
     is_finite c = true -> gtb c zero = true ->
     app.handleFormSubmit origin destination d "bicycle"
     = app.Computed
         {| app.emission := zero;
            app.carEmission := c;
            app.savings :=
              {| Calculator.savedKg := Number_toFixed 2 c;
                 Calculator.percentage := of_Z 100 |};
            app.allModesComparison := Calculator.calculateAllModes d;
            app.credits := zero;
            app.creditPrice :=
              {| Calculator.min := zero; Calculator.max := zero;
                 Calculator.average := zero |} |})
  /\ (forall c,
        calculator.calculateEmission d "car" = Ok c ->
        is_finite c = true -> gtb c zero = true ->
        exists entries,
          calculator.calculateAllModes d = Ok entries
          /\ app_iife.performCalculations
               {| app_iife.origin := origin;
                  app_iife.destination := destination;
                  app_iife.distance := d;
                  app_iife.transport := Some "bicycle" |}
             = Ok {| app_iife.selectedEmission := zero;
                     app_iife.carEmission := c;
                     app_iife.savings :=
                       {| calculator.savedKg := Engine.round_scaled 2 c;
                          calculator.percentage := of_Z 100 |};
                     app_iife.allModes := entries;
                     app_iife.creditsNeeded := zero;
                     app_iife.creditPrice :=
                       {| calculator.min := zero; calculator.max := zero;
                          calculator.average := zero |} |}).
Proof.
  intros Ho Hd V Hfin Hpos.
  pose proof (positive_not_leb_zero d Hfin Hpos) as L.
  destruct (positive_finite_inv d Hfin Hpos) as (md & ed & Ed).
  split.
  - intros c Hc F G.
    rewrite (handleFormSubmit_accepted origin destination d "bicycle")
      by (assumption || reflexivity).
    assert (B : Calculator.calculateEmission d "bicycle" = zero)
      by (rewrite Ed; reflexivity).
    rewrite B, Hc. cbv zeta.
    rewrite (proj1 (savings_of_no_emission c F G)). reflexivity.
  - intros c Hc F G.
    destruct (calculator_allModes_entries d L) as (results & Hall & _).
    eexists. split; [exact Hall|].
    assert (B : calculator.calculateEmission d "bicycle" = Ok zero)
      by (rewrite Ed; reflexivity).
    unfold app_iife.performCalculations.
    cbn [app_iife.distance app_iife.transport app_iife.property_name].
    rewrite B, Hc. cbn [calculator.bind].
    rewrite (proj2 (savings_of_no_emission c F G)). cbn [calculator.bind].
    rewrite Hall. reflexivity.
Qed.

Lemma X9_bicycle_figures_witness :
  app.handleFormSubmit "Toronto, ON" "Ottawa, ON" (of_Z 451) "bicycle"
  = app.Computed
      {| app.emission := zero;
         app.carEmission := dec 5412 2;
         app.savings :=
           {| Calculator.savedKg := dec 5412 2;
              Calculator.percentage := of_Z 100 |};
         app.allModesComparison := Calculator.calculateAllModes (of_Z 451);
         app.credits := zero;
         app.creditPrice :=
           {| Calculator.min := zero; Calculator.max := zero;
              Calculator.average := zero |} |}.
Proof.
  apply (proj1 (X9_bicycle_figures "Toronto, ON" "Ottawa, ON" (of_Z 451)
                  eq_refl eq_refl eq_refl eq_refl eq_refl) (dec 5412 2));
    reflexivity.
Defined.

(** X10: on a distance that is 0 or negative the first implementation's
    [calculateAllModes] returns the four modes in declaration order, all
    with emission 0 and 0 %, where the second raises the invalid-distance
    error. *)
Theorem X10_allModes_without_distance (d : number) :
  leb d zero = true ->
  Calculator.calculateAllModes d
  = map (fun mode => {| Calculator.mode := mode;
                        Calculator.emission := zero;
                        Calculator.percentageVsCar := zero |})
        ["bicycle"; "car"; "bus"; "truck"]
  /\ calculator.calculateAllModes d = Throw calculator.invalid_distance.
Proof.
  intros L. split.
  - assert (E : forall mode, Calculator.calculateEmission d mode = zero).
    { intros mode. unfold Calculator.calculateEmission.
      now rewrite L, orb_true_r. }
    unfold Calculator.calculateAllModes. rewrite E.
    erewrite map_ext; [|intros mode; rewrite E; reflexivity].
    reflexivity.
  - unfold calculator.calculateAllModes. now rewrite L.
Qed.

Lemma X10_allModes_without_distance_witness :
  map Calculator.mode (Calculator.calculateAllModes (of_Z (-3)))
  = ["bicycle"; "car"; "bus"; "truck"]
  /\ calculator.calculateAllModes (of_Z (-3))
     = Throw "Invalid distance. Must be a positive number.".
Proof.
  destruct (X10_allModes_without_distance (of_Z (-3)) eq_refl) as [H1 H2].
  split; [rewrite H1; reflexivity | exact H2].
Defined.

Lemma index_of_nonneg (key : string) (keys : list string) :
  0 <= Engine.index_of key keys.
Proof.
  induction keys as [|k keys IH]; cbn [Engine.index_of]; [lia|].
  destruct (String.eqb k key); lia.
Qed.

(** In a comparison without negative emissions the bicycle, whose
    emission is 0 and which is declared first, comes first. *)
Lemma comparison_starts_with_bicycle {A : Type} (mode : A -> string)
  (emission : A -> number) (entries : list A) :
  Engine.comparison mode emission entries ->
  (forall x, In x entries -> ltb (emission x) zero = false) ->
  exists first rest,
    entries = first :: rest
    /\ mode first = "bicycle" /\ emission first = zero.
Proof.
  intros (Hlen & Hperm & _ & Hsorted & Hzero) Hnonneg.
  destruct entries as [|first rest]; [discriminate|].
  exists first, rest. split; [reflexivity|].
  assert (Hb : In "bicycle" (map mode (first :: rest))).
  { eapply Permutation_in; [symmetry; exact Hperm | now left]. }
  apply in_map_iff in Hb. destruct Hb as (b & Hmode & [<-|Hin]).
  - split; [exact Hmode | apply Hzero; [now left | exact Hmode]].
  - exfalso. inversion Hsorted as [|? ? _ Hall]; subst.
    rewrite Forall_forall in Hall. specialize (Hall b Hin).
    rewrite (Hzero b (or_intror Hin) Hmode), Hmode in Hall.
    destruct Hall as [Hlt|[_ Hidx]].
    + rewrite (Hnonneg first (or_introl eq_refl)) in Hlt. discriminate.
    + pose proof (index_of_nonneg (mode first)
                    (Object.keys CONFIG.EMISSION_FACTORS)) as P.
      unfold Engine.declaration_index in Hidx.
      change (Engine.index_of "bicycle" (Object.keys CONFIG.EMISSION_FACTORS))
        with 0 in Hidx.
      lia.
Qed.

Lemma Number_toFixed_nonneg (fd : positive) (x : number) :
  Engine.nonneg x -> Engine.nonneg (Number_toFixed fd x).
Proof.
  intros [->|[V [->|[->|(m & e & ->)]]]];
    [now left | apply nonneg_zero
    | right; split; [reflexivity | now right; left] |].
  cbn [Number_toFixed]. destruct (ge_1e21 m e).
  - right. split; [exact V | right; right; eauto].
  - destruct (scaled_half_up fd m e) as [|n|n];
      [apply nonneg_zero | | apply nonneg_zero].
    right. exact (div_finite_rounded false false _ _ _ _).
Qed.

(** X11: for every positive distance the first entry of the comparison
    is the bicycle, with emission 0, in both implementations. *)
Theorem X11_bicycle_comes_first (d : number) :
  Spec.positive_distance d ->
  (exists first rest,
     Calculator.calculateAllModes d = first :: rest
     /\ Calculator.mode first = "bicycle"
     /\ Calculator.emission first = zero)
  /\ (exists first rest,
        calculator.calculateAllModes d = Ok (first :: rest)
        /\ calculator.mode first = "bicycle"
        /\ calculator.emission first = zero).
Proof.
  intros Hd. pose proof Hd as (V & Hfin & Hpos).
  pose proof (positive_not_leb_zero d Hfin Hpos) as L.
  assert (Hprod : forall m, rounded false (mul d (Spec.factor m)))
    by (intros m; now apply product_rounded).
  split.
  - apply comparison_starts_with_bicycle.
    + unfold Calculator.calculateAllModes. apply sorted_results_comparison.
      * rewrite map_map. reflexivity.
      * intros x Hx. apply in_map_iff in Hx. destruct Hx as (k & <- & Hk).
        cbn [Calculator.emission].
        destruct (declared_mode k Hk) as (m & ->).
        rewrite (Calculator_emission d m Hfin Hpos).
        apply Number_toFixed_proper. exact (rounded_proper _ _ (Hprod m)).
      * intros x Hx Hm. apply in_map_iff in Hx. destruct Hx as (k & <- & _).
        cbn [Calculator.emission Calculator.mode] in *. subst k.
        destruct (positive_finite_inv d Hfin Hpos) as (md & ed & ->).
        reflexivity.
    + intros x Hx. apply nonneg_not_negative.
      destruct (Calculator_allModes_entries d x Hx) as [-> _].
      assert (Hk : In (Calculator.mode x) (Object.keys CONFIG.EMISSION_FACTORS)).
      { unfold Calculator.calculateAllModes in Hx.
        apply Array_sort_In, in_map_iff in Hx.
        destruct Hx as (k & <- & Hk). exact Hk. }
      destruct (declared_mode _ Hk) as (m & ->).
      rewrite (Calculator_emission d m Hfin Hpos).
      apply Number_toFixed_nonneg. right. apply Hprod.
  - destruct (calculator_allModes_entries d L)
      as (results & E & Hmodes & Hall).
    assert (Hem : forall x, In x results ->
              exists m, calculator.mode x = Spec.key m
                /\ calculator.emission x
                   = Engine.round_scaled 2 (mul d (Spec.factor m))).
    { intros x Hx.
      destruct (Hall x Hx) as (m & c & e & Hk & _ & He & <- & _).
      rewrite (calculator_emission d m L) in He. injection He as <-.
      now exists m. }
    destruct (comparison_starts_with_bicycle calculator.mode
                calculator.emission
                (Array_sort (fun a b => sub (calculator.emission a)
                                            (calculator.emission b)) results))
      as (first & rest & Hfirst & Hmode & Hzero).
    + apply sorted_results_comparison.
      * exact Hmodes.
      * intros x Hx. destruct (Hem x Hx) as (m & _ & ->).
        apply round_scaled_proper. exact (rounded_proper _ _ (Hprod m)).
      * intros x Hx Hm. destruct (Hem x Hx) as (m & Hk & ->).
        rewrite Hm in Hk.
        assert (m = Spec.bicycle)
          by (destruct m; (reflexivity || discriminate)).
        subst m. destruct (positive_finite_inv d Hfin Hpos) as (md & ed & ->).
        reflexivity.
    + intros x Hx. apply Array_sort_In in Hx.
      destruct (Hem x Hx) as (m & _ & ->).
      apply nonneg_not_negative, (round_scaled_nonneg_at 2); [lia|].
      right. apply Hprod.
    + exists first, rest. rewrite E, Hfirst. now repeat split.
Qed.

Lemma X11_bicycle_comes_first_witness :
  exists first rest,
    calculator.calculateAllModes (dec 5 1) = Ok (first :: rest)
    /\ calculator.mode first = "bicycle"
    /\ calculator.emission first = zero.
Proof.
  apply (proj2 (X11_bicycle_comes_first (dec 5 1) (conj eq_refl (conj eq_refl eq_refl)))).
Defined.

Lemma bar_colours (d c : number) (x : Calculator.entry) :
  Calculator.calculateEmission d "car" = c ->
  is_finite c = true -> gtb c zero = true ->
  In x (Calculator.calculateAllModes d) ->
  (Calculator.mode x = "car" ->
   UI.barColor (Calculator.percentageVsCar x) = "orange")
  /\ (Calculator.mode x = "bicycle" ->
      UI.barColor (Calculator.percentageVsCar x) = "green").
Proof.
  intros Hc F G Hx.
  destruct (Calculator_allModes_entries d x Hx) as [_ Hp].
  cbv zeta in Hp. rewrite Hc, G in Hp.
  destruct (positive_shape c F G) as (mc & ec & Ec).
  split; intros Hm; rewrite Hp, Hm.
  - rewrite Hc, Ec, div_self. reflexivity.
  - assert (B : Calculator.calculateEmission d "bicycle" = zero).
    { unfold Calculator.calculateEmission in Hc |- *.
      cbn [Object.get Object.own CONFIG.EMISSION_FACTORS String.eqb
           Ascii.eqb Bool.eqb is_undefined orb ToNumber] in Hc |- *.
      destruct (leb d zero); [reflexivity|].
      destruct d as [s|s| |s m e]; try reflexivity.
      - subst c. now destruct s.
      - subst c. discriminate. }
    rewrite B, Ec. reflexivity.
Qed.

Lemma allModes_has_entry (d : number) (k : string) :
  In k (Object.keys CONFIG.EMISSION_FACTORS) ->
  exists x, In x (Calculator.calculateAllModes d) /\ Calculator.mode x = k.
Proof.
  intros Hk. unfold Calculator.calculateAllModes. eexists. split.
  - apply Array_sort_In, in_map_iff. exists k. split; [reflexivity | exact Hk].
  - reflexivity.
Qed.

(** X12: in the bar chart of the first [UI], whenever the car's emission
    is finite and above 0 the comparison has an entry for the car whose
    bar is orange and an entry for the bicycle whose bar is green. *)
Theorem X12_bar_colours (d c : number) :
  Calculator.calculateEmission d "car" = c ->
  is_finite c = true -> gtb c zero = true ->
  exists car bicycle,
    In car (Calculator.calculateAllModes d)
    /\ Calculator.mode car = "car"
    /\ UI.barColor (Calculator.percentageVsCar car) = "orange"
    /\ In bicycle (Calculator.calculateAllModes d)
    /\ Calculator.mode bicycle = "bicycle"
    /\ UI.barColor (Calculator.percentageVsCar bicycle) = "green".
Proof.
  intros Hc F G.
  destruct (allModes_has_entry d "car") as (car & Hcar & Mcar);
    [right; left; reflexivity|].
  destruct (allModes_has_entry d "bicycle") as (bic & Hbic & Mbic);
    [left; reflexivity|].
  exists car, bic.
  pose proof (proj1 (bar_colours d c car Hc F G Hcar) Mcar).
  pose proof (proj2 (bar_colours d c bic Hc F G Hbic) Mbic).
  auto 10.
Qed.

Lemma X12_bar_colours_witness :
  exists car bicycle,
    In car (Calculator.calculateAllModes (of_Z 451))
    /\ Calculator.mode car = "car"
    /\ UI.barColor (Calculator.percentageVsCar car) = "orange"
    /\ In bicycle (Calculator.calculateAllModes (of_Z 451))
    /\ Calculator.mode bicycle = "bicycle"
    /\ UI.barColor (Calculator.percentageVsCar bicycle) = "green".
Proof.
  apply (X12_bar_colours (of_Z 451) (dec 5412 2)).
  - vm_compute. reflexivity.
  - reflexivity.
  - reflexivity.
Defined.

End Figures.
